(** * ERP_CONRAT: the experiment phase controller

    A shallow embedding of [ERP_CONRAT.py] (a Tk application that runs
    fifteen Connections puzzles, ten remote-associates items and a five
    item questionnaire, and emits event markers), and the properties of
    its specification that concern the phase controller.

    Conventions of the embedding.
    - Python integers that only count upwards from zero (indices,
      counters, seconds left) are [nat]; [py_str] prints them the way an
      f-string does.
    - The three game classes only touch the rest of the program through
      their callbacks ([on_marker], [on_complete]) and through Tk
      ([after], [after_cancel], key bindings, widgets).  Their methods
      are functions from the object's fields to the new fields and the
      list of those calls, in program order ([Effect]); the application
      performs the calls.  A method that raises returns [None].
    - The application object and Tk's own state (pending [after]
      callbacks, key bindings, the widgets on screen) form the [World];
      the methods of [ExperimentApp] pass it along explicitly.
    - Objects live in stores indexed by the order of their creation, so
      that a callback bound to a replaced object still finds it.
    - A handler runs to completion before the next event is taken, with
      one exception: [flash_correct_group] calls [parent.update()] four
      times, and each call takes the events that are waiting (clicks,
      keys, [after] callbacks that are due) and runs their handlers
      inside the handler of the click.  An event that is a click on a
      tile therefore carries the events its flash takes, and what the
      game does after the flash it does to the fields as those handlers
      left them.  Configuring a widget that has been destroyed raises
      [TclError]; Tk reports it and the handler is over at that point.
    - Of what is drawn, the tile buttons and the selection label of a
      Connections game are modelled, apart from the controller
      ([ConnectionsView]).
    - Durations are not modelled: a pending [after] callback may fire
      at any later turn of the main loop, in any order with the input
      events. *)

From Stdlib Require Import DecimalString DecimalNat.
From stdpp Require Import base list strings sets.


(** ** Markers *)

(** [str(n)] for a non-negative integer. *)
Definition py_str (n : nat) : string := NilEmpty.string_of_uint (Nat.to_uint n).

(** [str(x)] for a field that holds an integer or [None]. *)
Definition py_str_opt (o : option nat) : string :=
  match o with
  | Some n => py_str n
  | None => "None"
  end.

(** The labels handed to [send_marker], one constructor per f-string of
    the source.  The text the f-string evaluates to is [label_text]. *)
Inductive Label : Type :=
  | Session_Start
  | Connections_Start (i : nat)
  | Connections_Guess (i g : nat) (correct : bool)
  | Connections_End (i : nat)
  | Connections_Rest_Start (i : nat)
  | Connections_Rest_End (i : option nat)
  | ConnectionQ (i : option nat) (value : nat)
  | ConnectionQ_NoResponse (i : option nat)
  | RAT_Start (i : nat)
  | RAT_Response (i : nat) (yes : bool)
  | RAT_End (i : nat)
  | RAT_Rest_Start (i : nat)
  | RAT_Rest_End (i : nat)
  | PostSurvey_Start
  | PostSurvey_End
  | PostQ (i value : nat)
  | PostQ_NoResponse (i : nat).

Definition label_text (l : Label) : string :=
  match l with
  | Session_Start => "Session_Start"
  | Connections_Start i => "Connections" +:+ py_str i +:+ "_Start"
  | Connections_Guess i g true =>
      "Connections" +:+ py_str i +:+ "_Guess" +:+ py_str g +:+ "_Correct"
  | Connections_Guess i g false =>
      "Connections" +:+ py_str i +:+ "_Guess" +:+ py_str g +:+ "_Incorrect"
  | Connections_End i => "Connections" +:+ py_str i +:+ "_End"
  | Connections_Rest_Start i => "Connections" +:+ py_str i +:+ "_Rest_Start"
  | Connections_Rest_End i => "Connections" +:+ py_str_opt i +:+ "_Rest_End"
  | ConnectionQ i v => "ConnectionQ" +:+ py_str_opt i +:+ "_" +:+ py_str v
  | ConnectionQ_NoResponse i => "ConnectionQ" +:+ py_str_opt i +:+ "_NoResponse"
  | RAT_Start i => "RAT" +:+ py_str i +:+ "_Start"
  | RAT_Response i true => "RAT" +:+ py_str i +:+ "_Response_Y"
  | RAT_Response i false => "RAT" +:+ py_str i +:+ "_Response_N"
  | RAT_End i => "RAT" +:+ py_str i +:+ "_End"
  | RAT_Rest_Start i => "RAT" +:+ py_str i +:+ "_Rest_Start"
  | RAT_Rest_End i => "RAT" +:+ py_str i +:+ "_Rest_End"
  | PostSurvey_Start => "PostSurvey_Start"
  | PostSurvey_End => "PostSurvey_End"
  | PostQ i v => "PostQ" +:+ py_str i +:+ "_" +:+ py_str v
  | PostQ_NoResponse i => "PostQ" +:+ py_str i +:+ "_NoResponse"
  end.

(** ** Callbacks, widgets and the calls a game object makes *)

(** The callables the program stores or schedules.  A bound method of a
    game object carries the object's place in its store. *)
Inductive Callback : Type :=
  | cb_submit
  | cb_show_connections_instructions
  | cb_start_connections_game
  | cb_start_rat_task
  | cb_show_post_questions
  | cb_root_destroy
  | cb_end_connections_rest
  | cb_tick_connections_rest
  | cb_on_connections_puzzle_complete
  | cb_tick_think (rat : nat)
  | cb_tick_rest (rat : nat)
  | cb_skip_current (postq : nat).

(** The children of [main_frame] that take input. *)
Inductive Widget : Type :=
  | w_player_id
  | w_tiles (game : nat)
  | w_rating_buttons
  | w_post_buttons (postq : nat).

Global Instance Widget_eq_dec : EqDecision Widget.
Proof. solve_decision. Defined.

Inductive Effect : Type :=
  | on_marker (l : Label)
  | after (aid ms : nat) (cb : Callback)
  | after_cancel (aid : nat)
  | bind_all_yes_no (rat : nat)
  | unbind_all_yes_no
  | destroy_children
  | pack (wd : Widget)
  | destroy (wd : Widget)
  | app_last_on_next (cb : Callback)
  | on_complete
  | config_selected
  | update
  | selected_clear.

(** What a method returns: the object's new fields and the calls it
    made, or [None] when it raised.

    The last three calls are those of a Connections game around its
    flash.  [config_selected] is [for idx in indexes:
    self.buttons[idx].config(...)], where [indexes] is the list object
    [self.selected]; [update] is [self.parent.update()], which hands
    control to Tk; [selected_clear] is [self.selected.clear()] after the
    flash.  After an [update] the fields may have been changed by other
    handlers of the same object: the fields a method returns are those
    it leaves when it first calls [update] (or when it returns, if it
    never does), and what it reads or clears afterwards is read or
    cleared when the call is performed. *)
Definition Result (A : Type) : Type := option (A * list Effect).

Definition andThen {A : Type} (f g : A → Result A) : A → Result A :=
  λ a, match f a with
       | None => None
       | Some (a1, e1) =>
           match g a1 with
           | None => None
           | Some (a2, e2) => Some (a2, e1 ++ e2)
           end
       end.

Infix ">>>" := andThen (at level 61, left associativity).

Definition modify {A : Type} (f : A → A) : A → Result A := λ a, Some (f a, []).
Definition call {A : Type} (e : Effect) : A → Result A := λ a, Some (a, [e]).
Definition skip {A : Type} : A → Result A := λ a, Some (a, []).
Definition raise {A : Type} : A → Result A := λ _, None.

(** ** ConnectionsGame *)

Module ConnectionsGame.

Record Tile : Type := MkTile { text : string; group : string; matched : bool }.

Record t : Type := Mk {
  tiles : list Tile;
  selected : list nat;
  found_groups : nat;
  guess_count : nat;
  puzzle_index : nat;
}.

Definition set_tiles (v : list Tile) (g : t) : t :=
  Mk v (selected g) (found_groups g) (guess_count g) (puzzle_index g).
Definition set_selected (v : list nat) (g : t) : t :=
  Mk (tiles g) v (found_groups g) (guess_count g) (puzzle_index g).
Definition set_guess_count (v : nat) (g : t) : t :=
  Mk (tiles g) (selected g) (found_groups g) v (puzzle_index g).

(** [on_complete] is [ExperimentApp.on_connections_puzzle_complete] at
    both places where a game is constructed. *)
Definition on_complete_cb : Callback := cb_on_connections_puzzle_complete.

(** [__init__] followed by [start_new_puzzle].  [layout] is the outcome
    of [random.sample] and [random.shuffle]: the text and the group
    label of each tile, in grid order. *)
Definition init (self puzzle_index : nat) (layout : list (string * string)) : t * list Effect :=
  (Mk (map (λ p, MkTile p.1 p.2 false) layout) [] 0 0 puzzle_index,
   [pack (w_tiles self); on_marker (Connections_Start puzzle_index)]).

(** [list.remove]: drop the first occurrence. *)
Fixpoint remove (x : nat) (l : list nat) : list nat :=
  match l with
  | [] => []
  | y :: l' => if decide (x = y) then l' else y :: remove x l'
  end.

Definition set_matched (tl : Tile) : Tile := MkTile (text tl) (group tl) true.

(** [for idx in self.selected: self.tiles[idx]["matched"] = True]. *)
Definition mark_matched (ts : list Tile) (sel : list nat) : list Tile :=
  foldl (λ ts idx, alter set_matched idx ts) ts sel.

(** The calls of [flash_correct_group(self.selected)]: yellow and green,
    twice, with [parent.update()] after each colour.  ([parent.after(150)]
    without a callback only waits.) *)
Definition flash_correct_group : list Effect :=
  [config_selected; update; config_selected; update;
   config_selected; update; config_selected; update].

(** On a correct guess the method hands control to Tk inside the flash,
    with the four tiles still selected: the [_End] marker, the
    [parent.after(2500, self.on_complete)] and [self.selected.clear()]
    come after it.  On a wrong guess nothing is handed over, and the
    selection is cleared before the method returns.  [aid] is the next
    free [after] handle when the method is called. *)
Definition check_selection (aid : nat) (g : t) : Result t :=
  let g := set_guess_count (guess_count g + 1) g in
  match mapM (λ i, group <$> tiles g !! i) (selected g) with
  | None => None
  | Some groups =>
      let is_correct :=
        match groups with
        | [] => true
        | g0 :: _ => forallb (λ x, bool_decide (x = g0)) groups
        end in
      if is_correct then
        match groups with
        | [] => None
        | group_name :: _ =>
            let g := set_tiles (mark_matched (tiles g) (selected g)) g in
            Some (g,
                  [on_marker (Connections_Guess (puzzle_index g) (guess_count g) true)]
                  ++ flash_correct_group
                  ++ [on_marker (Connections_End (puzzle_index g));
                      after aid 2500 on_complete_cb;
                      selected_clear])
        end
      else
        Some (set_selected [] g,
              [on_marker (Connections_Guess (puzzle_index g) (guess_count g) false)])
  end.

(** The selection after the first half of [toggle_tile]. *)
Definition toggled (idx : nat) (sel : list nat) : list nat :=
  if bool_decide (idx ∈ sel) then remove idx sel
  else if length sel <? 4 then sel ++ [idx]
  else sel.

Definition toggle_tile (aid idx : nat) (g : t) : Result t :=
  match tiles g !! idx with
  | None => None
  | Some tl =>
      if matched tl then Some (g, [])
      else
        let g := set_selected (toggled idx (selected g)) g in
        if length (selected g) =? 4 then check_selection aid g
        else Some (g, [])
  end.

Definition deselect_all (g : t) : Result t := Some (set_selected [] g, []).

End ConnectionsGame.

(** ** The buttons of a Connections game

    [self.buttons], [self.selected_label] and the methods that only
    draw.  They read the fields of the game and configure widgets; a
    method that raises returns [None]. *)

Module ConnectionsView.
Import ConnectionsGame.

(** A tile button: its text, the options the program sets ([fg] is
    Tk's default until [update_tile_styles] sets it), and its cell. *)
Record Button : Type := MkButton {
  btn_text : string;
  bg : string;
  fg : option string;
  relief : string;
  state : string;
  row : nat;
  column : nat;
}.

(** [btn.config(bg=..., fg=..., relief=..., state=...)]. *)
Definition config (bg' fg' relief' state' : string) (b : Button) : Button :=
  MkButton (btn_text b) bg' (Some fg') relief' state' (row b) (column b).

(** [btn.config(bg=...)]. *)
Definition config_bg (bg' : string) (b : Button) : Button :=
  MkButton (btn_text b) bg' (fg b) (relief b) (state b) (row b) (column b).

(** [draw_tiles]: the new value of [self.buttons]. *)
Definition draw_tiles (g : t) : list Button :=
  imap (λ i tile,
          MkButton (text tile)
                   (if negb (matched tile) then "white" else "#b3e6b3")
                   None "raised"
                   (if matched tile then "disabled" else "normal")
                   (i / 4) (i mod 4))
       (tiles g).

(** One turn of the loop of [update_tile_styles]. *)
Definition style (g : t) (i : nat) (b : Button) : option Button :=
  match tiles g !! i with
  | None => None
  | Some tile =>
      if matched tile then Some (config "#b3e6b3" "black" "raised" "disabled" b)
      else if bool_decide (i ∈ selected g)
           then Some (config "#666666" "black" "sunken" "normal" b)
           else Some (config "white" "black" "raised" "normal" b)
  end.

(** [for i, btn in enumerate(self.buttons)], from index [i] on. *)
Fixpoint restyle (g : t) (i : nat) (bs : list Button) : option (list Button) :=
  match bs with
  | [] => Some []
  | b :: bs' =>
      match style g i b with
      | None => None
      | Some b' =>
          match restyle g (S i) bs' with
          | None => None
          | Some bs'' => Some (b' :: bs'')
          end
      end
  end.

Definition update_tile_styles (g : t) (bs : list Button) : option (list Button) :=
  restyle g 0 bs.

(** [on_hover] and [on_leave] differ in the colour only. *)
Definition recolour (colour : string) (idx : nat) (g : t) (bs : list Button) :
    option (list Button) :=
  match tiles g !! idx with
  | None => None
  | Some tile =>
      if negb (matched tile) && negb (bool_decide (idx ∈ selected g)) then
        match bs !! idx with
        | None => None
        | Some _ => Some (alter (config_bg colour) idx bs)
        end
      else Some bs
  end.

Definition on_hover : nat → t → list Button → option (list Button) := recolour "#cce6ff".
Definition on_leave : nat → t → list Button → option (list Button) := recolour "white".

(** [", ".join(...)]. *)
Fixpoint join (sep : string) (l : list string) : string :=
  match l with
  | [] => ""
  | [x] => x
  | x :: l' => x +:+ sep +:+ join sep l'
  end.

(** [update_selected_label]: the new text of [self.selected_label]. *)
Definition update_selected_label (g : t) : option string :=
  match selected g with
  | [] => Some "Selected: None"
  | _ =>
      match mapM (λ i, text <$> tiles g !! i) (selected g) with
      | None => None
      | Some texts => Some ("Selected: " +:+ join ", " texts)
      end
  end.

End ConnectionsView.

(** ** RATGame *)

Definition RAT_PROMPTS : list string :=
  ["cottage / swiss / cake"; "cream / skate / water"; "rocking / wheel / high";
   "show / life / row"; "fountain / baking / pop"; "duck / fold / dollar";
   "sleeping / bean / trash"; "dew / comb / bee"; "night / wrist / stop";
   "loser / throat / spot"].

Definition RAT_ANSWERS : list string :=
  ["cheese"; "ice"; "chair"; "boat"; "soda"; "bill"; "bag"; "honey"; "watch"; "sore"].

Module RATGame.

Inductive Phase : Type := think | reveal | rest | done.

Record t : Type := Mk {
  index : nat;
  phase : option Phase;
  awaiting_yes_no : bool;
  _think_remaining : nat;
  _rest_remaining : nat;
  _think_after_id : option nat;
  _rest_after_id : option nat;
}.

Definition set_index (v : nat) (r : t) : t :=
  Mk v (phase r) (awaiting_yes_no r) (_think_remaining r) (_rest_remaining r)
     (_think_after_id r) (_rest_after_id r).
Definition set_phase (v : option Phase) (r : t) : t :=
  Mk (index r) v (awaiting_yes_no r) (_think_remaining r) (_rest_remaining r)
     (_think_after_id r) (_rest_after_id r).
Definition set_awaiting_yes_no (v : bool) (r : t) : t :=
  Mk (index r) (phase r) v (_think_remaining r) (_rest_remaining r)
     (_think_after_id r) (_rest_after_id r).
Definition set_think_remaining (v : nat) (r : t) : t :=
  Mk (index r) (phase r) (awaiting_yes_no r) v (_rest_remaining r)
     (_think_after_id r) (_rest_after_id r).
Definition set_rest_remaining (v : nat) (r : t) : t :=
  Mk (index r) (phase r) (awaiting_yes_no r) (_think_remaining r) v
     (_think_after_id r) (_rest_after_id r).
Definition set_think_after_id (v : option nat) (r : t) : t :=
  Mk (index r) (phase r) (awaiting_yes_no r) (_think_remaining r) (_rest_remaining r)
     v (_rest_after_id r).
Definition set_rest_after_id (v : option nat) (r : t) : t :=
  Mk (index r) (phase r) (awaiting_yes_no r) (_think_remaining r) (_rest_remaining r)
     (_think_after_id r) v.

Definition think_seconds : nat := 10.
Definition rest_seconds_default : nat := 15.

(** The two attribute names [_cancel_after] is called with. *)
Inductive Attr : Type := attr_think_after_id | attr_rest_after_id.

Definition _cancel_after (a : Attr) (r : t) : Result t :=
  match a with
  | attr_think_after_id =>
      match _think_after_id r with
      | Some aid => Some (set_think_after_id None r, [after_cancel aid])
      | None => Some (r, [])
      end
  | attr_rest_after_id =>
      match _rest_after_id r with
      | Some aid => Some (set_rest_after_id None r, [after_cancel aid])
      | None => Some (r, [])
      end
  end.

(** [xs[self.index]] for one of the two ten-element tables: raises when
    the index is out of range, and its value is only drawn. *)
Definition subscript (xs : list string) (r : t) : Result t :=
  match xs !! index r with
  | Some _ => Some (r, [])
  | None => None
  end.

Section methods.

(** [self] is the object's place in the store of RAT games; [aid] is
    the handle [root.after] returns if the method calls it (no method
    calls it twice). *)
Context (self aid : nat).

Definition clear_screen : t → Result t := call destroy_children.
Definition _bind_yes_no_keys : t → Result t := call (bind_all_yes_no self).
Definition _unbind_yes_no_keys : t → Result t := call unbind_all_yes_no.

Definition reveal_phase : t → Result t :=
  _cancel_after attr_think_after_id >>>
  λ r, match phase r with
       | Some rest | Some done => skip r
       | _ =>
           (modify (set_phase (Some reveal)) >>>
            modify (set_awaiting_yes_no true) >>>
            subscript RAT_ANSWERS >>>
            _bind_yes_no_keys) r
       end.

Definition _tick_think (r : t) : Result t :=
  match phase r with
  | Some think =>
      if 0 <? _think_remaining r then
        (modify (set_think_remaining (_think_remaining r - 1)) >>>
         call (after aid 1000 (cb_tick_think self)) >>>
         modify (set_think_after_id (Some aid))) r
      else reveal_phase r
  | _ => skip r
  end.

Definition show_think_phase : t → Result t :=
  _cancel_after attr_think_after_id >>>
  _cancel_after attr_rest_after_id >>>
  _unbind_yes_no_keys >>>
  clear_screen >>>
  modify (set_phase (Some think)) >>>
  modify (set_awaiting_yes_no false) >>>
  subscript RAT_PROMPTS >>>
  modify (set_think_remaining think_seconds) >>>
  (λ r, call (on_marker (RAT_Start (index r + 1))) r) >>>
  _tick_think.

Definition start_next_item : t → Result t :=
  _cancel_after attr_think_after_id >>>
  _cancel_after attr_rest_after_id >>>
  λ r, if length RAT_PROMPTS <=? index r then
         (modify (set_phase (Some done)) >>> call on_complete) r
       else show_think_phase r.

Definition __init__ : Result t :=
  start_next_item (Mk 0 None false 0 0 None None).

Definition _tick_rest (r : t) : Result t :=
  match phase r with
  | Some rest =>
      if 0 <? _rest_remaining r then
        (modify (set_rest_remaining (_rest_remaining r - 1)) >>>
         call (after aid 1000 (cb_tick_rest self)) >>>
         modify (set_rest_after_id (Some aid))) r
      else
        (_cancel_after attr_rest_after_id >>>
         call (on_marker (RAT_Rest_End (index r + 1))) >>>
         modify (set_index (index r + 1)) >>>
         start_next_item) r
  | _ => skip r
  end.

Definition start_rest_phase : t → Result t :=
  _unbind_yes_no_keys >>>
  _cancel_after attr_think_after_id >>>
  clear_screen >>>
  modify (set_phase (Some rest)) >>>
  modify (set_rest_remaining rest_seconds_default) >>>
  (λ r, call (on_marker (RAT_Rest_Start (index r + 1))) r) >>>
  _tick_rest.

Definition _on_yes (r : t) : Result t :=
  match phase r, awaiting_yes_no r with
  | Some reveal, true =>
      (modify (set_awaiting_yes_no false) >>>
       _unbind_yes_no_keys >>>
       call (on_marker (RAT_Response (index r + 1) true)) >>>
       call (on_marker (RAT_End (index r + 1))) >>>
       start_rest_phase) r
  | _, _ => skip r
  end.

Definition _on_no (r : t) : Result t :=
  match phase r, awaiting_yes_no r with
  | Some reveal, true =>
      (modify (set_awaiting_yes_no false) >>>
       _unbind_yes_no_keys >>>
       call (on_marker (RAT_Response (index r + 1) false)) >>>
       call (on_marker (RAT_End (index r + 1))) >>>
       start_rest_phase) r
  | _, _ => skip r
  end.

Definition force_advance (r : t) : Result t :=
  match phase r with
  | Some think => (_cancel_after attr_think_after_id >>> reveal_phase) r
  | Some reveal => if awaiting_yes_no r then _on_no r else skip r
  | Some rest =>
      (_cancel_after attr_rest_after_id >>>
       call (on_marker (RAT_Rest_End (index r + 1))) >>>
       modify (set_index (index r + 1)) >>>
       start_next_item) r
  | Some done => skip r
  | None => skip r
  end.

End methods.

End RATGame.

(** ** PostQuestionnaire *)

Module PostQuestionnaire.

Definition questions : list string := ["test 1"; "test 2"; "test 3"; "test 4"; "test 5"].

Record t : Type := Mk { index : nat }.

Section methods.

Context (self : nat).

(** [clear] destroys the children of the questionnaire's own frame:
    the five rating buttons of the question shown. *)
Definition clear : t → Result t := call (destroy (w_post_buttons self)).

Definition show_current : t → Result t :=
  clear >>>
  λ q, if length questions <=? index q then call on_complete q
       else (call (app_last_on_next (cb_skip_current self)) >>>
             call (pack (w_post_buttons self))) q.

Definition __init__ : Result t := show_current (Mk 0).

Definition record_response (value : nat) (q : t) : Result t :=
  (call (on_marker (PostQ (index q + 1) value)) >>>
   modify (λ _, Mk (index q + 1)) >>>
   show_current) q.

Definition skip_current (q : t) : Result t :=
  if index q <? length questions then
    (call (on_marker (PostQ_NoResponse (index q + 1))) >>>
     modify (λ _, Mk (index q + 1)) >>>
     show_current) q
  else skip q.

End methods.

End PostQuestionnaire.

(** ** The application object, Tk, and the world *)

Record ExperimentApp : Type := MkApp {
  player_id : option string;
  connections_puzzles_completed : nat;
  connections_spontaneity : list (option nat);
  _last_on_next : option Callback;
  _conn_rest_active : bool;
  _conn_rest_remaining : nat;
  _conn_rest_after_id : option nat;
  _conn_rating_choice : option nat;
  _conn_rest_for_puzzle_index : option nat;
  conn : option nat;
  rat : option nat;
  postq : option nat;
}.

(** What Tk holds for the program: the [after] callbacks not yet run
    (handle and callable), the next handle, the [<Return>] binding of the
    root window, the RAT game whose handlers [bind_all] gave the Y and N
    keys to, the input widgets inside [main_frame], the text of the
    player-ID entry with surrounding white space removed (what
    [entry.get().strip()] returns), and whether the root is destroyed. *)
Record Tk : Type := MkTk {
  pending : list (nat * Callback);
  next_after : nat;
  return_binding : option Callback;
  yes_no_binding : option nat;
  children : list Widget;
  entry : string;
  destroyed : bool;
}.

(** A marker as sent: the label [send_marker] was given, and the text
    pushed to the outlet and printed. *)
Record Marker : Type := MkMarker { label : Label; msg : string }.

Record World : Type := MkWorld {
  app : ExperimentApp;
  tk : Tk;
  games : list ConnectionsGame.t;
  rats : list RATGame.t;
  postqs : list PostQuestionnaire.t;
  random_layout : nat → list (string * string);
  sent : list Marker;
}.

Definition set_player_id (v : option string) (a : ExperimentApp) : ExperimentApp :=
  MkApp v (connections_puzzles_completed a) (connections_spontaneity a)
      (_last_on_next a) (_conn_rest_active a) (_conn_rest_remaining a)
      (_conn_rest_after_id a) (_conn_rating_choice a) (_conn_rest_for_puzzle_index a)
      (conn a) (rat a) (postq a).
Definition set_connections_puzzles_completed (v : nat) (a : ExperimentApp) :
    ExperimentApp :=
  MkApp (player_id a) v (connections_spontaneity a) (_last_on_next a)
      (_conn_rest_active a) (_conn_rest_remaining a) (_conn_rest_after_id a)
      (_conn_rating_choice a) (_conn_rest_for_puzzle_index a) (conn a) (rat a) (postq a).
Definition set_connections_spontaneity (v : list (option nat)) (a : ExperimentApp) :
    ExperimentApp :=
  MkApp (player_id a) (connections_puzzles_completed a) v (_last_on_next a)
      (_conn_rest_active a) (_conn_rest_remaining a) (_conn_rest_after_id a)
      (_conn_rating_choice a) (_conn_rest_for_puzzle_index a) (conn a) (rat a) (postq a).
Definition set_last_on_next (v : option Callback) (a : ExperimentApp) : ExperimentApp :=
  MkApp (player_id a) (connections_puzzles_completed a) (connections_spontaneity a) v
      (_conn_rest_active a) (_conn_rest_remaining a) (_conn_rest_after_id a)
      (_conn_rating_choice a) (_conn_rest_for_puzzle_index a) (conn a) (rat a) (postq a).
Definition set_conn_rest_active (v : bool) (a : ExperimentApp) : ExperimentApp :=
  MkApp (player_id a) (connections_puzzles_completed a) (connections_spontaneity a)
      (_last_on_next a) v (_conn_rest_remaining a) (_conn_rest_after_id a)
      (_conn_rating_choice a) (_conn_rest_for_puzzle_index a) (conn a) (rat a) (postq a).
Definition set_conn_rest_remaining (v : nat) (a : ExperimentApp) : ExperimentApp :=
  MkApp (player_id a) (connections_puzzles_completed a) (connections_spontaneity a)
      (_last_on_next a) (_conn_rest_active a) v (_conn_rest_after_id a)
      (_conn_rating_choice a) (_conn_rest_for_puzzle_index a) (conn a) (rat a) (postq a).
Definition set_conn_rest_after_id (v : option nat) (a : ExperimentApp) : ExperimentApp :=
  MkApp (player_id a) (connections_puzzles_completed a) (connections_spontaneity a)
      (_last_on_next a) (_conn_rest_active a) (_conn_rest_remaining a) v
      (_conn_rating_choice a) (_conn_rest_for_puzzle_index a) (conn a) (rat a) (postq a).
Definition set_conn_rating_choice (v : option nat) (a : ExperimentApp) : ExperimentApp :=
  MkApp (player_id a) (connections_puzzles_completed a) (connections_spontaneity a)
      (_last_on_next a) (_conn_rest_active a) (_conn_rest_remaining a)
      (_conn_rest_after_id a) v (_conn_rest_for_puzzle_index a) (conn a) (rat a) (postq a).
Definition set_conn_rest_for_puzzle_index (v : option nat) (a : ExperimentApp) :
    ExperimentApp :=
  MkApp (player_id a) (connections_puzzles_completed a) (connections_spontaneity a)
      (_last_on_next a) (_conn_rest_active a) (_conn_rest_remaining a)
      (_conn_rest_after_id a) (_conn_rating_choice a) v (conn a) (rat a) (postq a).
Definition set_conn (v : option nat) (a : ExperimentApp) : ExperimentApp :=
  MkApp (player_id a) (connections_puzzles_completed a) (connections_spontaneity a)
      (_last_on_next a) (_conn_rest_active a) (_conn_rest_remaining a)
      (_conn_rest_after_id a) (_conn_rating_choice a) (_conn_rest_for_puzzle_index a) v
      (rat a) (postq a).
Definition set_rat (v : option nat) (a : ExperimentApp) : ExperimentApp :=
  MkApp (player_id a) (connections_puzzles_completed a) (connections_spontaneity a)
      (_last_on_next a) (_conn_rest_active a) (_conn_rest_remaining a)
      (_conn_rest_after_id a) (_conn_rating_choice a) (_conn_rest_for_puzzle_index a)
      (conn a) v (postq a).
Definition set_postq (v : option nat) (a : ExperimentApp) : ExperimentApp :=
  MkApp (player_id a) (connections_puzzles_completed a) (connections_spontaneity a)
      (_last_on_next a) (_conn_rest_active a) (_conn_rest_remaining a)
      (_conn_rest_after_id a) (_conn_rating_choice a) (_conn_rest_for_puzzle_index a)
      (conn a) (rat a) v.

Definition set_pending (v : list (nat * Callback)) (k : Tk) : Tk :=
  MkTk v (next_after k) (return_binding k) (yes_no_binding k) (children k) (entry k)
      (destroyed k).
Definition set_next_after (v : nat) (k : Tk) : Tk :=
  MkTk (pending k) v (return_binding k) (yes_no_binding k) (children k) (entry k)
      (destroyed k).
Definition set_return_binding (v : option Callback) (k : Tk) : Tk :=
  MkTk (pending k) (next_after k) v (yes_no_binding k) (children k) (entry k) (destroyed k).
Definition set_yes_no_binding (v : option nat) (k : Tk) : Tk :=
  MkTk (pending k) (next_after k) (return_binding k) v (children k) (entry k) (destroyed k).
Definition set_children (v : list Widget) (k : Tk) : Tk :=
  MkTk (pending k) (next_after k) (return_binding k) (yes_no_binding k) v (entry k)
      (destroyed k).
Definition set_entry (v : string) (k : Tk) : Tk :=
  MkTk (pending k) (next_after k) (return_binding k) (yes_no_binding k) (children k) v
      (destroyed k).
Definition set_destroyed (v : bool) (k : Tk) : Tk :=
  MkTk (pending k) (next_after k) (return_binding k) (yes_no_binding k) (children k)
      (entry k) v.

Definition upd_app (f : ExperimentApp → ExperimentApp) (w : World) : World :=
  MkWorld (f (app w)) (tk w) (games w) (rats w) (postqs w) (random_layout w) (sent w).
Definition upd_tk (f : Tk → Tk) (w : World) : World :=
  MkWorld (app w) (f (tk w)) (games w) (rats w) (postqs w) (random_layout w) (sent w).
Definition set_games (v : list ConnectionsGame.t) (w : World) : World :=
  MkWorld (app w) (tk w) v (rats w) (postqs w) (random_layout w) (sent w).
Definition set_rats (v : list RATGame.t) (w : World) : World :=
  MkWorld (app w) (tk w) (games w) v (postqs w) (random_layout w) (sent w).
Definition set_postqs (v : list PostQuestionnaire.t) (w : World) : World :=
  MkWorld (app w) (tk w) (games w) (rats w) v (random_layout w) (sent w).
Definition set_sent (v : list Marker) (w : World) : World :=
  MkWorld (app w) (tk w) (games w) (rats w) (postqs w) (random_layout w) v.

(** ** Tk calls *)

(** [root.after(ms, cb)] returning the handle [aid]. *)
Definition tk_after (aid : nat) (cb : Callback) : World → World :=
  upd_tk (λ k, set_next_after (S aid) (set_pending (pending k ++ [(aid, cb)]) k)).

(** [root.after_cancel(aid)]: a handle that has fired or was cancelled
    before is ignored. *)
Definition tk_after_cancel (aid : nat) : World → World :=
  upd_tk (λ k, set_pending (filter (λ p, p.1 ≠ aid) (pending k)) k).

Definition tk_pack (wd : Widget) : World → World :=
  upd_tk (λ k, set_children (children k ++ [wd]) k).

Definition tk_destroy (wd : Widget) : World → World :=
  upd_tk (λ k, set_children (filter (λ x, x ≠ wd) (children k)) k).

(** ** ExperimentApp *)

Definition send_marker (label : Label) (w : World) : World :=
  let pid := match player_id (app w) with
             | None => "NA"
             | Some s => if bool_decide (s = "") then "NA" else s
             end in
  let msg := "Player" +:+ pid +:+ "_" +:+ label_text label in
  set_sent (sent w ++ [MkMarker label msg]) w.

Definition clear_screen : World → World :=
  upd_tk (set_children []).

(** The calls of a game method, performed in order.  [complete] is the
    [on_complete] the object was constructed with.  The calls around the
    flash of a Connections game are performed by [perform_game]; no other
    object makes them. *)
Definition perform (complete : World → World) (e : Effect) (w : World) : World :=
  match e with
  | on_marker l => send_marker l w
  | after aid _ cb => tk_after aid cb w
  | after_cancel aid => tk_after_cancel aid w
  | bind_all_yes_no r => upd_tk (set_yes_no_binding (Some r)) w
  | unbind_all_yes_no => upd_tk (set_yes_no_binding None) w
  | destroy_children => clear_screen w
  | pack wd => tk_pack wd w
  | destroy wd => tk_destroy wd w
  | app_last_on_next cb => upd_app (set_last_on_next (Some cb)) w
  | on_complete => complete w
  | config_selected | update | selected_clear => w
  end.

Definition perform_all (complete : World → World) (effs : list Effect) (w : World) : World :=
  foldl (λ w e, perform complete e w) w effs.

Definition center_message_screen (on_next : Callback) (w : World) : World :=
  let w := clear_screen w in
  let w := upd_app (set_last_on_next (Some on_next)) w in
  upd_tk (set_return_binding (Some on_next)) w.

Definition show_player_id_screen (w : World) : World :=
  let w := clear_screen w in
  let w := upd_tk (set_entry "") w in
  let w := tk_pack w_player_id w in
  let w := upd_app (set_last_on_next (Some cb_submit)) w in
  upd_tk (set_return_binding (Some cb_submit)) w.

Definition show_intro : World → World :=
  center_message_screen cb_show_connections_instructions.

Definition show_connections_instructions : World → World :=
  center_message_screen cb_start_connections_game.

Definition show_rat_instructions : World → World :=
  center_message_screen cb_start_rat_task.

Definition show_congratulations : World → World :=
  center_message_screen cb_show_post_questions.

Definition final_thanks_and_exit (w : World) : World :=
  let w := send_marker PostSurvey_End w in
  center_message_screen cb_root_destroy w.

(** [submit], the closure of [show_player_id_screen]. *)
Definition submit (w : World) : World :=
  let pid := entry (tk w) in
  if bool_decide (pid = "") then w
  else
    let w := upd_app (set_player_id (Some pid)) w in
    let w := send_marker Session_Start w in
    show_intro w.

(** [PostQuestionnaire(...)], then the assignment to [self.postq]. *)
Definition show_post_questions (w : World) : World :=
  let w := clear_screen w in
  let w := send_marker PostSurvey_Start w in
  let self := length (postqs w) in
  match PostQuestionnaire.__init__ self with
  | None => w
  | Some (q, effs) =>
      let w := set_postqs (postqs w ++ [q]) w in
      let w := perform_all final_thanks_and_exit effs w in
      upd_app (set_postq (Some self)) w
  end.

(** A call of a method of the questionnaire at [self].  A call that
    raises is reported by Tk and leaves the world as it was. *)
Definition call_postq (m : nat → PostQuestionnaire.t → Result PostQuestionnaire.t)
    (self : nat) (w : World) : World :=
  match postqs w !! self with
  | None => w
  | Some q =>
      match m self q with
      | None => w
      | Some (q', effs) =>
          perform_all final_thanks_and_exit effs (set_postqs (<[self := q']> (postqs w)) w)
      end
  end.

(** A call of a method of the RAT game at [self]. *)
Definition call_rat (m : nat → nat → RATGame.t → Result RATGame.t)
    (self : nat) (w : World) : World :=
  match rats w !! self with
  | None => w
  | Some r =>
      match m self (next_after (tk w)) r with
      | None => w
      | Some (r', effs) =>
          perform_all show_congratulations effs (set_rats (<[self := r']> (rats w)) w)
      end
  end.

Definition start_rat_task (w : World) : World :=
  let w := clear_screen w in
  let w := upd_tk (set_return_binding None) w in
  let w := upd_app (set_last_on_next None) w in
  let self := length (rats w) in
  match RATGame.__init__ self (next_after (tk w)) with
  | None => w
  | Some (r, effs) =>
      let w := set_rats (rats w ++ [r]) w in
      let w := perform_all show_congratulations effs w in
      upd_app (set_rat (Some self)) w
  end.

(** Whether [config_selected] of the game at [self] finds its buttons:
    every selected index has a button, and the grid is still on screen.
    With nothing selected nothing is configured. *)
Definition can_config (self : nat) (w : World) : bool :=
  match games w !! self with
  | None => false
  | Some g =>
      match ConnectionsGame.selected g with
      | [] => true
      | sel =>
          forallb (λ idx, idx <? length (ConnectionsGame.tiles g)) sel
          && bool_decide (w_tiles self ∈ children (tk w))
      end
  end.

(** A call of the Connections game at [self] that neither configures
    the flashing buttons nor hands control to Tk.  [selected_clear]
    empties the selection as it is when the call is made.
    [parent.after] returns the handle that is free when the call is made
    (the one that was free when the method started may have been used
    inside an [update]); the game drops it. *)
Definition game_call (self : nat) (e : Effect) (w : World) : World :=
  match e with
  | selected_clear =>
      set_games (alter (ConnectionsGame.set_selected []) self (games w)) w
  | after _ _ cb => tk_after (next_after (tk w)) cb w
  | _ => perform id e w
  end.

(** The calls of a method of the Connections game at [self], performed
    in order.  [updates] holds, for each [parent.update()] to come, what
    the handlers of the events it takes do.  [config_selected] reads the
    selection as it is by then, and raises when a button is gone: the
    calls that remain are not made.  Nor are they when a handler inside
    an [update] destroyed the root window: the [parent.after(150)] that
    follows raises. *)
Fixpoint perform_game (self : nat) (updates : list (World → World)) (effs : list Effect)
    (w : World) : World :=
  match effs with
  | [] => w
  | config_selected :: effs' =>
      if can_config self w then perform_game self updates effs' w else w
  | update :: effs' =>
      let w := match updates with
               | u :: _ => u w
               | [] => w
               end in
      if destroyed (tk w) then w else perform_game self (tail updates) effs' w
  | e :: effs' => perform_game self updates effs' (game_call self e w)
  end.

(** A call of a method of the Connections game at [self].  The game
    never calls [on_complete] itself: it schedules it.  A method that
    raises before its first call leaves the world as it was. *)
Definition call_game (m : nat → ConnectionsGame.t → Result ConnectionsGame.t)
    (updates : list (World → World)) (self : nat) (w : World) : World :=
  match games w !! self with
  | None => w
  | Some g =>
      match m (next_after (tk w)) g with
      | None => w
      | Some (g', effs) =>
          perform_game self updates effs (set_games (<[self := g']> (games w)) w)
      end
  end.

(** [self.conn = ConnectionsGame(..., puzzle_index=puzzle_index, ...)]. *)
Definition new_connections_game (puzzle_index : nat) (w : World) : World :=
  let self := length (games w) in
  let '(g, effs) := ConnectionsGame.init self puzzle_index (random_layout w self) in
  let w := set_games (games w ++ [g]) w in
  let w := perform_all id effs w in
  upd_app (set_conn (Some self)) w.

Definition start_connections_game (w : World) : World :=
  let w := clear_screen w in
  let w := upd_tk (set_return_binding None) w in
  let w := upd_app (set_last_on_next None) w in
  let w := upd_app (set_connections_puzzles_completed 0) w in
  let puzzle_index := connections_puzzles_completed (app w) + 1 in
  new_connections_game puzzle_index w.

Definition _end_connections_rest (w : World) : World :=
  let w := match _conn_rest_after_id (app w) with
           | Some aid => upd_app (set_conn_rest_after_id None) (tk_after_cancel aid w)
           | None => w
           end in
  let w := match _conn_rating_choice (app w) with
           | None => send_marker (ConnectionQ_NoResponse (_conn_rest_for_puzzle_index (app w))) w
           | Some _ => w
           end in
  let w := upd_app (λ a, set_connections_spontaneity
                           (connections_spontaneity a ++ [_conn_rating_choice a]) a) w in
  let w := upd_app (set_conn_rest_active false) w in
  let w := tk_destroy w_rating_buttons w in
  let w := send_marker (Connections_Rest_End (_conn_rest_for_puzzle_index (app w))) w in
  if connections_puzzles_completed (app w) <? 15 then
    let puzzle_index := connections_puzzles_completed (app w) + 1 in
    new_connections_game puzzle_index w
  else show_rat_instructions w.

Definition _tick_connections_rest (w : World) : World :=
  if negb (_conn_rest_active (app w)) then w
  else if 0 <? _conn_rest_remaining (app w) then
    let w := upd_app (λ a, set_conn_rest_remaining (_conn_rest_remaining a - 1) a) w in
    let aid := next_after (tk w) in
    let w := tk_after aid cb_tick_connections_rest w in
    upd_app (set_conn_rest_after_id (Some aid)) w
  else _end_connections_rest w.

Definition _start_connections_rest (just_finished_index : nat) (w : World) : World :=
  let w := clear_screen w in
  let w := upd_app (set_conn_rest_active true) w in
  let w := upd_app (set_conn_rest_remaining 15) w in
  let w := upd_app (set_conn_rating_choice None) w in
  let w := upd_app (set_conn_rest_for_puzzle_index (Some just_finished_index)) w in
  let w := send_marker (Connections_Rest_Start just_finished_index) w in
  let w := tk_pack w_rating_buttons w in
  let w := upd_app (set_last_on_next (Some cb_end_connections_rest)) w in
  _tick_connections_rest w.

Definition _conn_select_rating (value : nat) (w : World) : World :=
  if negb (_conn_rest_active (app w)) then w
  else
    match _conn_rating_choice (app w) with
    | Some _ => w
    | None =>
        let w := upd_app (set_conn_rating_choice (Some value)) w in
        let pidx := _conn_rest_for_puzzle_index (app w) in
        send_marker (ConnectionQ pidx value) w
    end.

Definition on_connections_puzzle_complete (w : World) : World :=
  let w := upd_app (λ a, set_connections_puzzles_completed
                           (connections_puzzles_completed a + 1) a) w in
  _start_connections_rest (connections_puzzles_completed (app w)) w.

(** Calling a stored or scheduled callable. *)
Definition run_callback (cb : Callback) (w : World) : World :=
  match cb with
  | cb_submit => submit w
  | cb_show_connections_instructions => show_connections_instructions w
  | cb_start_connections_game => start_connections_game w
  | cb_start_rat_task => start_rat_task w
  | cb_show_post_questions => show_post_questions w
  | cb_root_destroy => upd_tk (set_destroyed true) w
  | cb_end_connections_rest => _end_connections_rest w
  | cb_tick_connections_rest => _tick_connections_rest w
  | cb_on_connections_puzzle_complete => on_connections_puzzle_complete w
  | cb_tick_think r => call_rat RATGame._tick_think r w
  | cb_tick_rest r => call_rat RATGame._tick_rest r w
  | cb_skip_current q => call_postq PostQuestionnaire.skip_current q w
  end.

Definition _master_skip (w : World) : World :=
  match _last_on_next (app w) with
  | Some cb => run_callback cb (upd_app (set_last_on_next None) w)
  | None =>
      if _conn_rest_active (app w) then _end_connections_rest w
      else
        match conn (app w) with
        | Some _ => on_connections_puzzle_complete w
        | None =>
            match rat (app w) with
            | Some r => call_rat RATGame.force_advance r w
            | None =>
                match postq (app w) with
                | Some q => call_postq PostQuestionnaire.skip_current q w
                | None => w
                end
            end
        end
  end.

(** [ExperimentApp.__init__] on a fresh root; [layouts] stands for the
    random choices of the puzzles to come. *)
Definition __init__ (layouts : nat → list (string * string)) : World :=
  show_player_id_screen
    (MkWorld (MkApp None 0 [] None false 0 None None None None None None)
             (MkTk [] 0 None None [] "" false)
             [] [] [] layouts []).

(** ** Events *)

(** What the main loop takes.
    - [ev_type s]: the text of the ID entry is edited, to [s] (stripped),
      by keys other than the period.
    - [ev_period]: the period key when the focus is not in the ID entry
      (no ID screen is up, or the focus was moved to its button): only
      the binding of the root window runs.
    - [ev_period_in_entry s]: the period key when the ID entry has the
      focus, as it has when the ID screen comes up ([entry.focus_set()]):
      the entry inserts the character, its text being [s] afterwards, and
      then the binding of the root window runs.
    - [ev_tile game idx]: a click on a tile while nothing else is waiting:
      the four [update()] calls of a flash find no event.
    - [ev_tile_flash game idx u1 u2 u3 u4]: a click on a tile whose
      flash, if the click brings one, takes the events [u1] in its first
      [update()], [u2] in its second, and so on. *)
#[warnings="-register-all"]
Inductive Event : Type :=
  | ev_type (s : string)
  | ev_continue
  | ev_return
  | ev_period
  | ev_tile (game idx : nat)
  | ev_deselect (game : nat)
  | ev_rating (value : nat)
  | ev_key_y
  | ev_key_n
  | ev_post_rating (postq value : nat)
  | ev_after (aid : nat)
  | ev_period_in_entry (s : string)
  | ev_tile_flash (game idx : nat) (u1 u2 u3 u4 : list Event).

Definition on_screen (wd : Widget) (w : World) : bool :=
  bool_decide (wd ∈ children (tk w)).

Definition is_rating (value : nat) : bool := (1 <=? value) && (value <=? 5).

(** The text holds a period. *)
Definition has_period (s : string) : bool :=
  match String.index 0 "." s with
  | Some _ => true
  | None => false
  end.

(** The handler bound to an event, if the widget or binding it needs is
    there.  [nested] runs the events an [update()] takes. *)
Definition handle (nested : list Event → World → World) (e : Event) (w : World) : World :=
  if destroyed (tk w) then w
  else
    match e with
    | ev_type s => if on_screen w_player_id w then upd_tk (set_entry s) w else w
    | ev_continue => if on_screen w_player_id w then submit w else w
    | ev_return =>
        match return_binding (tk w) with
        | Some cb => run_callback cb w
        | None => w
        end
    | ev_period => _master_skip w
    | ev_period_in_entry s =>
        if on_screen w_player_id w && has_period s
        then _master_skip (upd_tk (set_entry s) w)
        else w
    | ev_tile game idx =>
        if on_screen (w_tiles game) w
        then call_game (λ aid, ConnectionsGame.toggle_tile aid idx) [] game w
        else w
    | ev_tile_flash game idx u1 u2 u3 u4 =>
        if on_screen (w_tiles game) w
        then call_game (λ aid, ConnectionsGame.toggle_tile aid idx)
               [nested u1; nested u2; nested u3; nested u4] game w
        else w
    | ev_deselect game =>
        if on_screen (w_tiles game) w
        then call_game (λ _, ConnectionsGame.deselect_all) [] game w
        else w
    | ev_rating value =>
        if on_screen w_rating_buttons w && is_rating value
        then _conn_select_rating value w
        else w
    | ev_key_y =>
        match yes_no_binding (tk w) with
        | Some r => call_rat RATGame._on_yes r w
        | None => w
        end
    | ev_key_n =>
        match yes_no_binding (tk w) with
        | Some r => call_rat RATGame._on_no r w
        | None => w
        end
    | ev_post_rating q value =>
        if on_screen (w_post_buttons q) w && is_rating value
        then call_postq (λ self, PostQuestionnaire.record_response self value) q w
        else w
    | ev_after aid =>
        match list_find (λ p, p.1 = aid) (pending (tk w)) with
        | Some (_, (_, cb)) => run_callback cb (tk_after_cancel aid w)
        | None => w
        end
    end.

(** One turn of [mainloop], or one event taken by an [update()]; the
    events an [update()] takes are handled one after the other. *)
Fixpoint step (e : Event) (w : World) {struct e} : World :=
  handle (λ es w, foldl (λ w e', step e' w) w es) e w.

Definition run (es : list Event) (w : World) : World :=
  foldl (λ w e, step e w) w es.

(** ** Vocabulary of the properties *)

(** The labels sent so far, oldest first. *)
Definition labels (w : World) : list Label := map label (sent w).

(** What holds of the selection of a Connections game at every moment,
    inside a handler or between two: at most four tiles, none twice, all
    inside the grid; and none of them matched, unless they are the four
    tiles of a correct guess whose flash is under way or has raised. *)
Definition game_ok (g : ConnectionsGame.t) : Prop :=
  length (ConnectionsGame.selected g) ≤ 4 ∧
  NoDup (ConnectionsGame.selected g) ∧
  (∀ i, i ∈ ConnectionsGame.selected g → i < length (ConnectionsGame.tiles g)) ∧
  ((∀ i tl, i ∈ ConnectionsGame.selected g → ConnectionsGame.tiles g !! i = Some tl →
            ConnectionsGame.matched tl = false) ∨
   (length (ConnectionsGame.selected g) = 4 ∧
    ∀ i tl, i ∈ ConnectionsGame.selected g → ConnectionsGame.tiles g !! i = Some tl →
            ConnectionsGame.matched tl = true)).

(** The methods of a RAT game that are called from outside it: by a
    timer, by a key, by the master skip. *)
Inductive RatCall : Type :=
  | rc_tick_think
  | rc_tick_rest
  | rc_on_yes
  | rc_on_no
  | rc_force_advance.

Definition rat_call (c : RatCall) : nat → nat → RATGame.t → Result RATGame.t :=
  match c with
  | rc_tick_think => RATGame._tick_think
  | rc_tick_rest => RATGame._tick_rest
  | rc_on_yes => RATGame._on_yes
  | rc_on_no => RATGame._on_no
  | rc_force_advance => RATGame.force_advance
  end.

Inductive rat_reachable : RATGame.t → Prop :=
  | rat_reach_init self aid r effs :
      RATGame.__init__ self aid = Some (r, effs) → rat_reachable r
  | rat_reach_call c self aid r r' effs :
      rat_reachable r → rat_call c self aid r = Some (r', effs) → rat_reachable r'.

Definition rat_inv (r : RATGame.t) : Prop :=
  match RATGame.phase r with
  | Some RATGame.think | Some RATGame.rest => RATGame.index r < length RAT_PROMPTS
  | Some RATGame.reveal =>
      RATGame.index r < length RAT_PROMPTS ∧ RATGame.awaiting_yes_no r = true
  | Some RATGame.done => True
  | None => False
  end.

(** The calls of [_cancel_after] on a field holding [o]. *)
Definition cancel (o : option nat) : list Effect :=
  match o with
  | Some aid => [after_cancel aid]
  | None => []
  end.

Global Instance Label_eq_dec : EqDecision Label.
Proof. solve_decision. Defined.

(** How often a label was sent. *)
Definition count (l : Label) (ls : list Label) : nat :=
  length (filter (λ x, x = l) ls).

(** *** A session to run the program on *)

(** Sixteen tiles of four groups, as [start_new_puzzle] lays them out;
    the tiles at 0, 2, 4 and 6 form group A. *)
Definition example_layout : list (string * string) :=
  [("a1", "A"); ("b1", "B"); ("a2", "A"); ("c1", "C");
   ("a3", "A"); ("d1", "D"); ("a4", "A"); ("b2", "B");
   ("b3", "B"); ("b4", "B"); ("c2", "C"); ("c3", "C");
   ("c4", "C"); ("d2", "D"); ("d3", "D"); ("d4", "D")].

Definition example_init : World := __init__ (λ _, example_layout).

(** Participant 7 enters the ID and passes the two message screens. *)
Definition to_first_puzzle : list Event :=
  [ev_type "7"; ev_return; ev_return; ev_return].

(** The four tiles of group A of the game at [game] are clicked. *)
Definition solve (game : nat) : list Event :=
  [ev_tile game 0; ev_tile game 2; ev_tile game 4; ev_tile game 6].

(** The four tiles of group B. *)
Definition solve_b (game : nat) : list Event :=
  [ev_tile game 1; ev_tile game 7; ev_tile game 8; ev_tile game 9].

(** The [after] callbacks with handles [first .. first + n - 1] fire in
    turn. *)
Definition timers (first n : nat) : list Event := map ev_after (seq first n).

(** The first puzzle of the session as constructed, and with three
    tiles of three groups selected. *)
Definition example_game : ConnectionsGame.t :=
  (ConnectionsGame.init 0 1 example_layout).1.

Definition example_three_selected : ConnectionsGame.t :=
  ConnectionsGame.set_selected [0; 1; 3] example_game.

(** The first RAT item as constructed: thinking, first tick scheduled
    under handle 0. *)
Definition example_rat : RATGame.t :=
  RATGame.Mk 0 (Some RATGame.think) false 9 0 (Some 0) None.

(** The first puzzle is solved and, 2500 ms later, its rest begins. *)
Definition to_first_rest : list Event :=
  to_first_puzzle ++ solve 0 ++ [ev_after 0].

(** The world during the first rest, before and after the participant
    clicked on button 3. *)
Definition example_rest : World := run to_first_rest example_init.

(** The marker [send_marker] builds for a label when the player ID
    field holds [pid]. *)
Definition stamp (pid : option string) (l : Label) : Marker :=
  MkMarker l
    ("Player" +:+
     match pid with
     | None => "NA"
     | Some s => if bool_decide (s = "") then "NA" else s
     end +:+ "_" +:+ label_text l).

(** Block [b] (counted from 0) of a session without forced skips: the
    puzzle is solved, [on_complete] fires 2500 ms later, and the
    fifteen ticks of the rest run out without a rating.  Each block
    uses sixteen [after] handles. *)
Definition natural_block (b : nat) : list Event :=
  solve b ++ [ev_after (16 * b)] ++ timers (16 * b + 1) 15.

Definition natural_connections_stage : list Event :=
  to_first_puzzle ++ concat (map natural_block (seq 0 15)).

(** The first block ends by itself (solved, rest run out): the second
    puzzle is on screen. *)
Definition to_second_puzzle : list Event := to_first_puzzle ++ natural_block 0.

(** The first puzzle is solved and, before the 2500 ms have passed, the
    master skip is pressed. *)
Definition solve_then_skip : list Event := to_first_puzzle ++ solve 0 ++ [ev_period].

(** The first puzzle is left by the master skip. *)
Definition skip_first_puzzle : list Event := to_first_puzzle ++ [ev_period].

(** The first puzzle is on screen and group A is clicked, then group B,
    before the 2500 ms after the first correct guess have passed. *)
Definition solve_twice : list Event := to_first_puzzle ++ solve 0 ++ solve_b 0.

(** After that both [on_complete] callbacks fire, and the ticks of the
    rest run out without a rating. *)
Definition solve_twice_and_rest : list Event :=
  solve_twice ++ [ev_after 0; ev_after 1] ++ timers 2 16.

(** The first puzzle is on screen and three tiles of group A are
    selected. *)
Definition three_of_group_a : list Event :=
  to_first_puzzle ++ [ev_tile 0 0; ev_tile 0 2; ev_tile 0 4].

(** The click on the fourth tile of group A, when a click on tile 1 (of
    group B, not matched) is waiting: the first [update()] of the flash
    takes it. *)
Definition click_inside_flash : Event := ev_tile_flash 0 6 [ev_tile 0 1] [] [] [].

(** The same click when the period key is waiting. *)
Definition skip_inside_flash : Event := ev_tile_flash 0 6 [ev_period] [] [] [].

Definition is_connections_start (l : Label) : bool :=
  match l with
  | Connections_Start _ => true
  | _ => false
  end.

(** The claim about [_End] markers as the specification words it: a
    block that is over (its rest has started) has exactly one
    [Connections<i>_End], which comes after a
    [Connections<i>_Guess<g>_Correct]. *)
Definition one_end_after_correct (ls : list Label) (i : nat) : Prop :=
  count (Connections_End i) ls = 1 ∧
  ∀ k, ls !! k = Some (Connections_End i) →
       ∃ j g, j < k ∧ ls !! j = Some (Connections_Guess i g true).

Definition every_block_ends_once (ls : list Label) : Prop :=
  ∀ i, Connections_Rest_Start i ∈ ls → one_end_after_correct ls i.

(** *** Invariants of a session *)

(** The events taken inside the handler of an event. *)
Definition nested_events (e : Event) : list (list Event) :=
  match e with
  | ev_tile_flash _ _ u1 u2 u3 u4 => [u1; u2; u3; u4]
  | _ => []
  end.

(** A handler [f] that, started where [P] holds, ends in a world related
    by [R] to the one it started in. *)
Definition keeps (P : World → Prop) (R : World → World → Prop) (f : World → World) : Prop :=
  ∀ w, P w → R w (f w).

(** A marker as [send_marker] builds it under the player ID [pid]. *)
Definition stamped (pid : option string) (m : Marker) : Prop :=
  m = stamp pid (label m).

(** Nothing can call [submit] any more: it is in no callback slot and
    on no timer, and the player-ID screen is gone. *)
Definition no_submit (w : World) : Prop :=
  (_last_on_next (app w) ≠ Some cb_submit) ∧
  (return_binding (tk w) ≠ Some cb_submit) ∧
  (w_player_id ∉ children (tk w)) ∧
  (∀ aid, (aid, cb_submit) ∉ pending (tk w)).

(** What every handler but [submit] does to the markers: the player ID
    stays, [submit] stays out of reach, and the markers sent are added
    at the end, built by [send_marker]. *)
Definition ext (w w' : World) : Prop :=
  player_id (app w') = player_id (app w) ∧
  no_submit w' ∧
  ∃ c, sent w' = sent w ++ c ∧
       Forall (stamped (player_id (app w))) c.

(** The calls of a game object bring nothing that calls [submit]. *)
Definition effect_ok (e : Effect) : Prop :=
  match e with
  | after _ _ cb | app_last_on_next cb => cb ≠ cb_submit
  | pack wd => wd ≠ w_player_id
  | _ => True
  end.

(** Before the player ID is accepted: nothing was sent, and nothing but
    [submit] can happen. *)
Definition pre_session (w : World) : Prop :=
  player_id (app w) = None ∧ sent w = [] ∧
  (_last_on_next (app w) = None ∨ _last_on_next (app w) = Some cb_submit) ∧
  return_binding (tk w) = Some cb_submit ∧
  children (tk w) = [w_player_id] ∧ pending (tk w) = [] ∧
  _conn_rest_active (app w) = false ∧ conn (app w) = None ∧ rat (app w) = None ∧
  postq (app w) = None ∧ yes_no_binding (tk w) = None.

(** After it: the ID is not empty and every marker carries it. *)
Definition in_session (w : World) : Prop :=
  ∃ p, player_id (app w) = Some p ∧ p ≠ "" ∧ no_submit w ∧
       Forall (stamped (Some p)) (sent w).

Definition session_inv (w : World) : Prop := pre_session w ∨ in_session w.

(** The first puzzle is solved at the first guess. *)
Definition solved_first_puzzle : list Event := to_first_puzzle ++ solve 0.

(** The fifteen blocks are done and Return starts the RAT task. *)
Definition to_first_rat_item : list Event := natural_connections_stage ++ [ev_return].

(** *** Whole puzzles, items and questionnaires *)

(** What a participant does to a puzzle: a click on a tile ([aid] is the
    handle [parent.after] returns if the click schedules [on_complete])
    or on the deselect button, each when nothing else is waiting. *)
Inductive Click : Type :=
  | cl_tile (aid idx : nat)
  | cl_deselect.

Definition is_selected_clear (e : Effect) : bool :=
  match e with
  | selected_clear => true
  | _ => false
  end.

(** The fields of a game when a method has returned and no [update()]
    of it took an event: what the method left, with the selection
    cleared if the method clears it after the flash. *)
Definition settle (r : ConnectionsGame.t * list Effect) : ConnectionsGame.t * list Effect :=
  (if existsb is_selected_clear r.2 then ConnectionsGame.set_selected [] r.1 else r.1, r.2).

Definition click (c : Click) (g : ConnectionsGame.t) : Result ConnectionsGame.t :=
  match c with
  | cl_tile aid idx => settle <$> ConnectionsGame.toggle_tile aid idx g
  | cl_deselect => ConnectionsGame.deselect_all g
  end.

(** The clicks of [cs] one after the other; the calls add up. *)
Fixpoint play (cs : list Click) (g : ConnectionsGame.t) : Result ConnectionsGame.t :=
  match cs with
  | [] => Some (g, [])
  | c :: cs' => (click c >>> play cs') g
  end.

(** The guess markers among the calls made: block and guess number. *)
Definition guesses (effs : list Effect) : list (nat * nat) :=
  omap (λ e, match e with
             | on_marker (Connections_Guess i n _) => Some (i, n)
             | _ => None
             end) effs.

(** What no click changes: the words and the groups of the grid, the
    puzzle index and [found_groups]; the guess counter never goes down
    and a matched tile stays matched. *)
Definition same_puzzle (g g' : ConnectionsGame.t) : Prop :=
  ConnectionsGame.text <$> ConnectionsGame.tiles g'
    = ConnectionsGame.text <$> ConnectionsGame.tiles g ∧
  ConnectionsGame.group <$> ConnectionsGame.tiles g'
    = ConnectionsGame.group <$> ConnectionsGame.tiles g ∧
  ConnectionsGame.puzzle_index g' = ConnectionsGame.puzzle_index g ∧
  ConnectionsGame.found_groups g' = ConnectionsGame.found_groups g ∧
  ConnectionsGame.guess_count g ≤ ConnectionsGame.guess_count g' ∧
  ∀ i tl, ConnectionsGame.tiles g !! i = Some tl → ConnectionsGame.matched tl = true →
          ConnectionsGame.matched <$> ConnectionsGame.tiles g' !! i = Some true.

(** The timer handles a RAT game holds fit its phase: the handle of the
    think countdown is held in Think only, that of the rest countdown
    in Rest only, and the counters are below their start values. *)
Definition rat_timers (r : RATGame.t) : Prop :=
  match RATGame.phase r with
  | Some RATGame.think =>
      is_Some (RATGame._think_after_id r) ∧ RATGame._rest_after_id r = None ∧
      RATGame._think_remaining r < RATGame.think_seconds ∧
      RATGame.awaiting_yes_no r = false
  | Some RATGame.reveal =>
      RATGame._think_after_id r = None ∧ RATGame._rest_after_id r = None
  | Some RATGame.rest =>
      RATGame._think_after_id r = None ∧ is_Some (RATGame._rest_after_id r) ∧
      RATGame._rest_remaining r < RATGame.rest_seconds_default ∧
      RATGame.awaiting_yes_no r = false
  | Some RATGame.done =>
      RATGame._think_after_id r = None ∧ RATGame._rest_after_id r = None ∧
      RATGame.index r = length RAT_PROMPTS
  | None => False
  end.

(** Calls from outside on the RAT game at [self], one after the other,
    each with the handle [root.after] would return. *)
Fixpoint rat_calls (self : nat) (cs : list (RatCall * nat)) (r : RATGame.t) :
    Result RATGame.t :=
  match cs with
  | [] => Some (r, [])
  | (c, aid) :: cs' => (rat_call c self aid >>> rat_calls self cs') r
  end.

(** The construction of the game, then the calls of [cs]. *)
Definition rat_session (self aid : nat) (cs : list (RatCall * nat)) : Result RATGame.t :=
  match RATGame.__init__ self aid with
  | None => None
  | Some (r, e) =>
      match rat_calls self cs r with
      | None => None
      | Some (r', e') => Some (r', e ++ e')
      end
  end.

(** The markers and the call of [on_complete] among the calls of a RAT
    game, the answer of a response marker left out of account. *)
Definition rat_norm (e : Effect) : option Effect :=
  match e with
  | on_marker (RAT_Response i _) => Some (on_marker (RAT_Response i false))
  | on_marker l => Some (on_marker l)
  | on_complete => Some on_complete
  | _ => None
  end.

(** The five markers of item [i]. *)
Definition rat_item (i : nat) : list Effect :=
  on_marker <$> [RAT_Start i; RAT_Response i false; RAT_End i;
                 RAT_Rest_Start i; RAT_Rest_End i].

(** A whole RAT task: the ten items, then [on_complete]. *)
Definition rat_expected : list Effect :=
  flat_map rat_item (seq 1 (length RAT_PROMPTS)) ++ [on_complete].

(** How far into [rat_expected] a game is. *)
Definition rat_pos (r : RATGame.t) : nat :=
  match RATGame.phase r with
  | Some RATGame.think => 5 * RATGame.index r + 1
  | Some RATGame.reveal => 5 * RATGame.index r + 1
  | Some RATGame.rest => 5 * RATGame.index r + 4
  | Some RATGame.done => 5 * RATGame.index r + 1
  | None => 0
  end.

Definition is_response (e : Effect) : bool :=
  match e with
  | on_marker (RAT_Response _ _) => true
  | _ => false
  end.

(** What is done to a question: one of the rating buttons is clicked,
    or the question is skipped. *)
Inductive Answer : Type :=
  | ans_rating (value : nat)
  | ans_skip.

Definition answer (self : nat) (a : Answer) :
    PostQuestionnaire.t → Result PostQuestionnaire.t :=
  match a with
  | ans_rating value => PostQuestionnaire.record_response self value
  | ans_skip => PostQuestionnaire.skip_current self
  end.

Fixpoint answers (self : nat) (ans : list Answer) (q : PostQuestionnaire.t) :
    Result PostQuestionnaire.t :=
  match ans with
  | [] => Some (q, [])
  | a :: ans' => (answer self a >>> answers self ans') q
  end.

(** The construction of the questionnaire, then the answers of [ans]. *)
Definition postq_session (self : nat) (ans : list Answer) : Result PostQuestionnaire.t :=
  match PostQuestionnaire.__init__ self with
  | None => None
  | Some (q, e) =>
      match answers self ans q with
      | None => None
      | Some (q', e') => Some (q', e ++ e')
      end
  end.

(** The marker of question [i] (counted from 1) for an answer. *)
Definition answer_label (i : nat) (a : Answer) : Label :=
  match a with
  | ans_rating value => PostQ i value
  | ans_skip => PostQ_NoResponse i
  end.

(** The markers among the calls made. *)
Definition markers (effs : list Effect) : list Label :=
  omap (λ e, match e with
             | on_marker l => Some l
             | _ => None
             end) effs.

Definition is_complete (e : Effect) : bool :=
  match e with
  | on_complete => true
  | _ => false
  end.

(** The events that put text into the entry field: keys that edit it to
    a text that is not empty, the period among them. *)
Definition types_an_id (e : Event) : bool :=
  match e with
  | ev_type s => negb (bool_decide (s = ""))
  | ev_period_in_entry _ => true
  | _ => false
  end.

(** The continuations of the message screens between the stages. *)
Definition is_screen_continuation (cb : Callback) : bool :=
  match cb with
  | cb_show_connections_instructions | cb_start_connections_game
  | cb_start_rat_task | cb_show_post_questions => true
  | _ => false
  end.

(** What a rating rest adds to the markers when it ends with [k]
    puzzles completed: the start of puzzle [k + 1], if there is one. *)
Definition next_puzzle_start (k : nat) : list Label :=
  if k <? 15 then [Connections_Start (k + 1)] else [].

(** *** Every object of a session *)

(** Every Connections game built so far has at most four tiles
    selected, and every RAT game is in a state that its own methods
    reach from its construction. *)
Definition stores_ok (w : World) : Prop :=
  Forall game_ok (games w) ∧ Forall rat_reachable (rats w).

Definition is_rest_end (l : Label) : bool :=
  match l with
  | Connections_Rest_End _ => true
  | _ => false
  end.

(** What every handler but [submit] does: the game objects stay as
    [stores_ok] says, the markers added do not include [Session_Start],
    and one rating entry is added for each [_Rest_End] marker. *)
Definition grow (w w' : World) : Prop :=
  (stores_ok w → stores_ok w') ∧
  ∃ c s, labels w' = labels w ++ c ∧ (Session_Start ∉ c) ∧
         connections_spontaneity (app w') = connections_spontaneity (app w) ++ s ∧
         length s = length (filter (λ l, is_rest_end l = true) c).

(** The calls of a game object send neither [Session_Start] nor a
    [_Rest_End] marker of a Connections block. *)
Definition effect_quiet (e : Effect) : Prop :=
  match e with
  | on_marker Session_Start | on_marker (Connections_Rest_End _) => False
  | _ => True
  end.

(** Both at once. *)
Definition ext_grow (w w' : World) : Prop := ext w w' ∧ grow w w'.

(** Before the player ID is accepted no object is built and no rating
    is recorded. *)
Definition pre_fields (w : World) : Prop :=
  games w = [] ∧ rats w = [] ∧ connections_spontaneity (app w) = [].

(** [Session_Start] is the first marker and is not sent again. *)
Definition starts_once (ls : list Label) : Prop :=
  ∃ rest, ls = Session_Start :: rest ∧ (Session_Start ∉ rest).

Definition session_inv2 (w : World) : Prop :=
  session_inv w ∧ stores_ok w ∧
  length (connections_spontaneity (app w))
  = length (filter (λ l, is_rest_end l = true) (labels w)) ∧
  ((pre_session w ∧ pre_fields w) ∨ (in_session w ∧ starts_once (labels w))).

(** The callbacks of the screens before the first puzzle. *)
Definition early_cb (cb : Callback) : bool :=
  match cb with
  | cb_submit | cb_show_connections_instructions | cb_start_connections_game => true
  | _ => false
  end.

(** Before the first puzzle: no game object exists, no timer runs, and
    only the screens before the first puzzle can come next. *)
Definition early (w : World) : Prop :=
  conn (app w) = None ∧ rat (app w) = None ∧ postq (app w) = None ∧
  _conn_rest_active (app w) = false ∧ pending (tk w) = [] ∧
  yes_no_binding (tk w) = None ∧
  (∀ cb, _last_on_next (app w) = Some cb → early_cb cb = true) ∧
  (∀ cb, return_binding (tk w) = Some cb → early_cb cb = true) ∧
  (∀ wd, wd ∈ children (tk w) → wd = w_player_id).

(** A handler never takes the Connections game away from [self.conn]. *)
Definition keeps_conn (w w' : World) : Prop :=
  is_Some (conn (app w)) → is_Some (conn (app w')).

(** *** The text of a marker *)

Definition is_digit (c : Ascii.ascii) : bool :=
  bool_decide (c ∈ String.list_ascii_of_string "0123456789").

(** A string of decimal digits. *)
Fixpoint digits (s : string) : bool :=
  match s with
  | EmptyString => true
  | String c s' => is_digit c && digits s'
  end.

(** A rating as the five buttons give it, or none. *)
Definition rating_ok (o : option nat) : Prop :=
  match o with
  | Some v => 1 ≤ v ≤ 5
  | None => True
  end.

Definition ratings_ok (w : World) : Prop :=
  Forall rating_ok (connections_spontaneity (app w)) ∧
  rating_ok (_conn_rating_choice (app w)).

Definition keeps_ratings (w w' : World) : Prop := ratings_ok w → ratings_ok w'.

(** * Properties *)

Local Arguments Nat.leb : simpl never.
Local Arguments Nat.ltb : simpl never.
Local Arguments ConnectionsGame.mark_matched : simpl never.

(** ** A Connections block *)

Section connections_game.
Import ConnectionsGame.

Lemma mark_matched_lookup sel : ∀ ts j,
  mark_matched ts sel !! j
  = if bool_decide (j ∈ sel) then set_matched <$> ts !! j else ts !! j.
Proof.
  unfold mark_matched. induction sel as [|a sel IH]; intros ts j; simpl.
  - done.
  - rewrite IH. destruct (decide (j = a)) as [->|Hne].
    + rewrite list_lookup_alter_eq.
      rewrite (bool_decide_eq_true_2 (a ∈ a :: sel)) by (apply elem_of_cons; by left).
      case_bool_decide; [|done]. by destruct (ts !! a).
    + rewrite list_lookup_alter_ne by done.
      destruct (decide (j ∈ sel)).
      * rewrite !bool_decide_eq_true_2; [done| |done]. apply elem_of_cons; by right.
      * rewrite !bool_decide_eq_false_2; [done| |done]. rewrite elem_of_cons. tauto.
Qed.

Lemma mark_matched_length sel : ∀ ts, length (mark_matched ts sel) = length ts.
Proof.
  unfold mark_matched. induction sel as [|a sel IH]; intros ts; simpl; [done|].
  by rewrite IH, length_alter.
Qed.

(** It returns when something inside the grid is selected. *)
Lemma check_selection_returns aid g :
  selected g ≠ [] →
  (∀ i, i ∈ selected g → i < length (tiles g)) →
  is_Some (check_selection aid g).
Proof.
  intros Hne Hin. unfold check_selection. simpl.
  destruct (mapM (λ i, group <$> tiles g !! i) (selected g)) as [gs|] eqn:E.
  - apply length_mapM in E. destruct gs as [|g0 gs].
    + destruct (selected g); [done|discriminate].
    + by destruct (forallb _ _).
  - apply mapM_None in E. apply Exists_exists in E as (i & Hi & Hnone).
    apply Hin, lookup_lt_is_Some_2 in Hi as [tl Htl].
    rewrite Htl in Hnone. discriminate.
Qed.

Lemma remove_length x l : length (remove x l) ≤ length l.
Proof. induction l as [|y l IH]; simpl; [lia|]. case_decide; simpl; lia. Qed.

Lemma remove_subset x l i : i ∈ remove x l → i ∈ l.
Proof.
  induction l as [|y l IH]; simpl; [done|].
  case_decide; rewrite !elem_of_cons; tauto.
Qed.

Lemma remove_snoc x l : x ∉ l → remove x (l ++ [x]) = l.
Proof.
  induction l as [|y l IH]; simpl.
  - intros _. by case_decide.
  - rewrite not_elem_of_cons. intros [Hne Hl]. case_decide; [done|]. by rewrite IH.
Qed.

Lemma remove_NoDup x l : NoDup l → NoDup (remove x l).
Proof.
  induction 1 as [|y l Hy Hl IH]; simpl; [constructor|].
  case_decide; [done|]. constructor; [|done].
  intros Hin. by apply Hy, (remove_subset x).
Qed.

Lemma toggled_length idx sel : length sel ≤ 4 → length (toggled idx sel) ≤ 4.
Proof.
  intros H. unfold toggled. case_bool_decide.
  - pose proof (remove_length idx sel). lia.
  - destruct (length sel <? 4) eqn:E; [|lia].
    apply Nat.ltb_lt in E. rewrite length_app; simpl. lia.
Qed.

Lemma toggled_valid n idx sel :
  idx < n → (∀ i, i ∈ sel → i < n) → ∀ i, i ∈ toggled idx sel → i < n.
Proof.
  intros Hidx Hsel i. unfold toggled. case_bool_decide.
  - intros Hi. apply Hsel. by eapply remove_subset.
  - destruct (length sel <? 4); [|by auto].
    rewrite elem_of_app, list_elem_of_singleton. intros [?| ->]; auto.
Qed.

Lemma toggled_NoDup idx sel : NoDup sel → NoDup (toggled idx sel).
Proof.
  intros Hnd. unfold toggled. case_bool_decide as Hin.
  - by apply remove_NoDup.
  - destruct (length sel <? 4); [|done].
    apply NoDup_app. split; [done|]. split; [|apply NoDup_singleton].
    intros x Hx Hx'. apply list_elem_of_singleton in Hx' as ->. done.
Qed.

Lemma toggled_elem idx sel i : i ∈ toggled idx sel → i ∈ sel ∨ i = idx.
Proof.
  unfold toggled. case_bool_decide.
  - intros Hi. left. by eapply remove_subset.
  - destruct (length sel <? 4); [|by left].
    rewrite elem_of_app, list_elem_of_singleton. tauto.
Qed.

Lemma game_ok_nil g : selected g = [] → game_ok g.
Proof.
  intros Hs. unfold game_ok. rewrite Hs. split; simpl; [lia|]. split; [constructor|].
  split; [|left]; intros i; intros; by apply elem_of_nil in H.
Qed.

Lemma game_ok_clear g : game_ok (set_selected [] g).
Proof. by apply game_ok_nil. Qed.

Lemma check_selection_ok aid g g' effs :
  game_ok g → length (selected g) = 4 →
  check_selection aid g = Some (g', effs) → game_ok g'.
Proof.
  intros (Hlen & Hnd & Hval & _) H4. unfold check_selection. simpl.
  destruct (mapM _ _) as [gs|]; [|done].
  destruct gs as [|g0 gs]; [done|].
  destruct (forallb _ _); intros [= <- <-].
  - split; [done|]. split; [done|]. simpl. split.
    + intros i Hi. rewrite mark_matched_length. auto.
    + right. split; [done|]. intros i tl Hi.
      rewrite mark_matched_lookup, bool_decide_eq_true_2 by done.
      destruct (tiles g !! i); simpl; [|done]. by intros [= <-].
  - apply game_ok_clear.
Qed.

Lemma toggle_tile_ok aid idx g g' effs :
  game_ok g → toggle_tile aid idx g = Some (g', effs) → game_ok g'.
Proof.
  intros (Hlen & Hnd & Hval & Hm). unfold toggle_tile.
  destruct (tiles g !! idx) as [tl|] eqn:Hidx; [|done].
  destruct (matched tl) eqn:Hmt.
  { intros [= <- <-]. done. }
  assert (Hok : game_ok (set_selected (toggled idx (selected g)) g)).
  { split; simpl; [by apply toggled_length|]. split; [by apply toggled_NoDup|]. split.
    - apply toggled_valid; [by eapply lookup_lt_Some|done].
    - destruct Hm as [Hun|[H4 Hma]].
      + left. intros i t [Hi| ->]%toggled_elem Ht; [by eapply Hun|congruence].
      + right. assert (Hsame : toggled idx (selected g) = selected g).
        { unfold toggled. rewrite bool_decide_eq_false_2.
          - by rewrite H4.
          - intros Hi. specialize (Hma idx tl Hi Hidx). congruence. }
        by rewrite Hsame. }
  simpl. destruct (length (toggled idx (selected g)) =? 4) eqn:E.
  - apply Nat.eqb_eq in E. by apply check_selection_ok.
  - by intros [= <- <-].
Qed.

Lemma check_selection_effects aid g g' effs :
  check_selection aid g = Some (g', effs) → Forall effect_ok effs.
Proof.
  unfold check_selection.
  destruct (mapM _ _) as [gs|]; [|done].
  destruct gs as [|g0 gs]; [done|].
  destruct (forallb _ _); intros [= <- <-]; repeat constructor; done.
Qed.

Lemma toggle_tile_effects aid idx g g' effs :
  toggle_tile aid idx g = Some (g', effs) → Forall effect_ok effs.
Proof.
  unfold toggle_tile.
  destruct (_ !! _) as [tl|]; [|done].
  destruct (matched tl); [intros [= <- <-]; constructor|].
  destruct (_ =? _); [by apply check_selection_effects|intros [= <- <-]; constructor].
Qed.

End connections_game.

(** ** A RAT item *)

Local Arguments lookup : simpl never.

Ltac rat_unfold :=
  unfold rat_call, RATGame.force_advance, RATGame._on_no, RATGame._on_yes,
    RATGame.start_rest_phase, RATGame._tick_rest, RATGame.__init__,
    RATGame.start_next_item, RATGame.show_think_phase, RATGame._tick_think,
    RATGame.reveal_phase, RATGame._bind_yes_no_keys, RATGame._unbind_yes_no_keys,
    RATGame.clear_screen, RATGame.subscript, RATGame._cancel_after, andThen, modify,
    call, skip, raise, RATGame.think_seconds, RATGame.rest_seconds_default in *.

(** Case analysis on whatever a [match] of the goal inspects: a field
    of the object, a comparison, a table lookup. *)
Ltac case_split :=
  repeat match goal with
         | |- context [match ?x with _ => _ end] =>
             first [is_var x; destruct x
                   |match x with
                    | negb ?b => destruct b
                    | _ <=? _ => destruct x eqn:?
                    | _ <? _ => destruct x eqn:?
                    | _ !! _ => destruct x eqn:?
                    end]; simpl
         end.

Ltac arith :=
  repeat match goal with
         | H : _ ∧ _ |- _ => destruct H
         | H : (_ <=? _) = true |- _ => apply Nat.leb_le in H
         | H : (_ <=? _) = false |- _ => apply Nat.leb_gt in H
         | H : (_ <? _) = true |- _ => apply Nat.ltb_lt in H
         | H : (_ <? _) = false |- _ => apply Nat.ltb_ge in H
         | H : _ !! _ = None |- _ => apply lookup_ge_None in H
         end; simpl in *; try lia.

Section rat_game.
Import RATGame.

Lemma rat_call_inv c self aid r r' effs :
  rat_inv r → rat_call c self aid r = Some (r', effs) → rat_inv r'.
Proof.
  unfold rat_inv. destruct r as [i ph aw tr rr ta ra]. simpl.
  destruct ph as [[]|]; [| | | |done]; intros Hinv; destruct c; rat_unfold; simpl.
  all: case_split.
  all: try (intros [= <- <-]; simpl).
  all: try done.
  all: arith.
Qed.

Lemma rat_init_inv self aid r effs : __init__ self aid = Some (r, effs) → rat_inv r.
Proof. rat_unfold. simpl. intros [= <- <-]. unfold rat_inv. simpl. lia. Qed.

(** In a reachable state an item that is shown has its index inside the
    tables, and the reveal phase is always awaiting the Y/N answer. *)
Lemma rat_reachable_inv r : rat_reachable r → rat_inv r.
Proof.
  induction 1; [by eapply rat_init_inv|by eapply rat_call_inv].
Qed.

(** C6. In every reachable state, [force_advance] does the following.
    Think: it cancels the think countdown ([after_cancel] of the stored
    handle) and enters Reveal, awaiting the answer, with the Y/N keys
    bound; no marker is sent.  Reveal: it sends [RAT<i>_Response_N], then
    [RAT<i>_End], then starts Rest ([RAT<i>_Rest_Start], fifteen seconds,
    first tick scheduled).  Rest: it cancels the rest countdown, sends
    [RAT<i>_Rest_End], moves to the next index and starts its Think
    phase ([RAT<i+1>_Start]), or, after the tenth item, becomes Done and
    calls [on_complete].  Done: nothing changes and nothing is called. *)
Theorem force_advance_mapping self aid r :
  rat_reachable r →
  match phase r with
  | Some think =>
      force_advance self aid r =
        Some (set_awaiting_yes_no true (set_phase (Some reveal) (set_think_after_id None r)),
              cancel (_think_after_id r) ++ [bind_all_yes_no self])
  | Some reveal =>
      force_advance self aid r =
        Some (Mk (index r) (Some rest) false (_think_remaining r) 14 None (Some aid),
              [unbind_all_yes_no;
               on_marker (RAT_Response (index r + 1) false);
               on_marker (RAT_End (index r + 1));
               unbind_all_yes_no] ++ cancel (_think_after_id r) ++
              [destroy_children;
               on_marker (RAT_Rest_Start (index r + 1));
               after aid 1000 (cb_tick_rest self)])
  | Some rest =>
      if index r + 1 <? length RAT_PROMPTS then
        force_advance self aid r =
          Some (Mk (index r + 1) (Some think) false 9 (_rest_remaining r) (Some aid) None,
                cancel (_rest_after_id r) ++ [on_marker (RAT_Rest_End (index r + 1))] ++
                cancel (_think_after_id r) ++
                [unbind_all_yes_no; destroy_children;
                 on_marker (RAT_Start (index r + 2));
                 after aid 1000 (cb_tick_think self)])
      else
        force_advance self aid r =
          Some (Mk (index r + 1) (Some done) (awaiting_yes_no r) (_think_remaining r)
                   (_rest_remaining r) None None,
                cancel (_rest_after_id r) ++ [on_marker (RAT_Rest_End (index r + 1))] ++
                cancel (_think_after_id r) ++ [on_complete])
  | Some done => force_advance self aid r = Some (r, [])
  | None => False
  end.
Proof.
  intros Hr. apply rat_reachable_inv in Hr. revert Hr. unfold rat_inv.
  destruct r as [i ph aw tr rr ta ra]. simpl.
  destruct ph as [[]|]; [| | | |done]; intros Hinv.
  - rat_unfold; simpl. case_split; arith; try done.
  - destruct Hinv as [Hi ->]. rat_unfold; simpl. case_split; arith; try done.
  - rat_unfold; simpl. case_split; arith; try done.
    all: replace (i + 1 + 1) with (i + 2) by lia; done.
  - done.
Qed.


End rat_game.

Lemma force_advance_mapping_witness :
  RATGame.force_advance 0 1 example_rat =
    Some (RATGame.Mk 0 (Some RATGame.reveal) true 9 0 None None,
          [after_cancel 0; bind_all_yes_no 0]).
Proof.
  exact (force_advance_mapping 0 1 example_rat
           (rat_reach_init 0 0 example_rat _ eq_refl)).
Defined.

(** ** The application *)

Lemma send_marker_stamp l w :
  send_marker l w = set_sent (sent w ++ [stamp (player_id (app w)) l]) w.
Proof. reflexivity. Qed.



(** One call of [_end_connections_rest] with [k] puzzles completed: if
    [k] is below 15 a fresh Connections game with index [k + 1] is
    constructed and becomes the current one ([Connections<k+1>_Start] is
    the last marker sent); otherwise no game is constructed and the RAT
    instruction screen is up, its continuation being [start_rat_task]. *)
Lemma rest_end_loop_bound w :
  let k := connections_puzzles_completed (app w) in
  let w' := _end_connections_rest w in
  _conn_rest_active (app w') = false ∧
  connections_puzzles_completed (app w') = k ∧
  if k <? 15 then
    games w' = games w ++
      [(ConnectionsGame.init (length (games w)) (k + 1)
          (random_layout w (length (games w)))).1] ∧
    conn (app w') = Some (length (games w)) ∧
    w_tiles (length (games w)) ∈ children (tk w') ∧
    last (labels w') = Some (Connections_Start (k + 1))
  else
    games w' = games w ∧
    conn (app w') = conn (app w) ∧
    children (tk w') = [] ∧
    _last_on_next (app w') = Some cb_start_rat_task ∧
    return_binding (tk w') = Some cb_start_rat_task ∧
    last (labels w') = Some (Connections_Rest_End (_conn_rest_for_puzzle_index (app w))).
Proof.
  destruct w as [[pid k sp lon act rem aid ch pidx cn rt pq] [pe na rb yn cs en de] gs rs qs rl st].
  unfold _end_connections_rest, labels; simpl.
  destruct aid, ch; simpl; destruct (k <? 15) eqn:Hk; simpl; rewrite ?Hk; simpl.
  all: unfold new_connections_game, labels; simpl.
  all: rewrite ?map_app, ?last_app; simpl.
  all: repeat split; try done.
  all: rewrite elem_of_app, list_elem_of_singleton; by right.
Qed.

(** A session without forced skips in which every puzzle is solved by
    one correct guess and nothing else is clicked: fifteen puzzles are
    started, with indices 1 to 15, and after the rest of the fifteenth
    the RAT instruction screen is up. *)
Lemma natural_session_reaches_rat_instructions :
  let w := run natural_connections_stage example_init in
  filter is_connections_start (labels w) = map Connections_Start (seq 1 15) ∧
  last (labels w) = Some (Connections_Rest_End (Some 15)) ∧
  length (games w) = 15 ∧
  _last_on_next (app w) = Some cb_start_rat_task ∧
  return_binding (tk w) = Some cb_start_rat_task ∧
  children (tk w) = [] ∧
  rat (app w) = None.
Proof. vm_compute. repeat split. Qed.

(** The master skip while a puzzle is on screen, when the callback slot
    is empty and no rest is running (as it is during the first puzzle):
    the counter grows by one and the rest of that puzzle starts, with no
    rating chosen; no game object changes, so no tile becomes matched. *)
Lemma master_skip_in_puzzle w :
  _last_on_next (app w) = None → _conn_rest_active (app w) = false →
  is_Some (conn (app w)) →
  let k := connections_puzzles_completed (app w) in
  let w' := _master_skip w in
  connections_puzzles_completed (app w') = k + 1 ∧
  _conn_rest_active (app w') = true ∧
  _conn_rest_for_puzzle_index (app w') = Some (k + 1) ∧
  _conn_rating_choice (app w') = None ∧
  children (tk w') = [w_rating_buttons] ∧
  games w' = games w.
Proof.
  intros Hl Ha [c Hc]. unfold _master_skip. rewrite Hl, Ha, Hc.
  destruct w as [[pid k sp lon act rem aid ch pidx cn rt pq] [pe na rb yn cs en de]
                 gs rs qs rl st].
  unfold on_connections_puzzle_complete, _start_connections_rest,
    _tick_connections_rest; simpl.
  repeat split.
Qed.

(** The master skip during a RAT item does not reach [force_advance]:
    [conn] still holds the last Connections game, so the branch before
    it is taken and the rest of a sixteenth puzzle starts. *)
Lemma skip_during_rat_takes_connections_branch :
  let w := run to_first_rat_item example_init in
  let w' := step ev_period w in
  (last (labels w) = Some (RAT_Start 1) ∧ rat (app w) = Some 0 ∧
   _last_on_next (app w) = None) ∧
  (last (labels w') = Some (Connections_Rest_Start 16) ∧
   connections_puzzles_completed (app w') = 16 ∧
   rats w' = rats w).
Proof. vm_compute. repeat split. Qed.

(** C1 does not hold from the second puzzle on.  The second puzzle is on
    screen after the first block ended by itself: no message screen is
    shown and no rest is running, but [_last_on_next] still holds
    [_end_connections_rest].  The master skip then runs the end of the
    first rest once more: it sends [ConnectionQ1_NoResponse],
    [Connections1_Rest_End] and [Connections2_Start], starts no rest
    (no [Connections2_Rest_Start], counter unchanged) and puts a second
    copy of puzzle 2 on screen. *)
Theorem skip_in_second_puzzle_repeats_rest_end :
  let w := run to_second_puzzle example_init in
  let w' := step ev_period w in
  (children (tk w) = [w_tiles 1] ∧
   _conn_rest_active (app w) = false ∧
   ConnectionsGame.puzzle_index <$> (conn (app w) ≫= λ c, games w !! c) = Some 2 ∧
   _last_on_next (app w) = Some cb_end_connections_rest) ∧
  (_conn_rest_active (app w') = false ∧
   connections_puzzles_completed (app w') = connections_puzzles_completed (app w) ∧
   labels w' = labels w ++ [ConnectionQ_NoResponse (Some 1);
                            Connections_Rest_End (Some 1);
                            Connections_Start 2] ∧
   children (tk w') = [w_tiles 1; w_tiles 2]).
Proof. vm_compute. repeat split. Qed.

(** C3 does not hold for the completion timer.  The first puzzle is solved,
    the master skip moves on to the first rest, and then the
    [on_complete] scheduled by the correct guess fires: it is still
    pending after the skip, and it completes a second puzzle, so that
    the rest of puzzle 2 starts without puzzle 2 ever having started. *)
Theorem stale_on_complete_fires_after_skip :
  let w := run solve_then_skip example_init in
  let w' := step (ev_after 0) w in
  ((0, cb_on_connections_puzzle_complete) ∈ pending (tk w) ∧
   connections_puzzles_completed (app w) = 1 ∧
   _conn_rest_for_puzzle_index (app w) = Some 1) ∧
  (connections_puzzles_completed (app w') = 2 ∧
   _conn_rest_for_puzzle_index (app w') = Some 2 ∧
   labels w' = [Session_Start; Connections_Start 1; Connections_Guess 1 1 true;
                Connections_End 1; Connections_Rest_Start 1; Connections_Rest_Start 2]).
Proof.
  vm_compute. repeat split. apply elem_of_cons; by left.
Qed.

(** C4 does not hold in the session of C1.  One
    rating rest has run, and [ConnectionQ1_NoResponse] is sent twice
    and two entries are appended to the rating sequence. *)
Theorem rating_recorded_twice :
  let w := run (to_second_puzzle ++ [ev_period]) example_init in
  count (Connections_Rest_Start 1) (labels w) = 1 ∧
  count (ConnectionQ_NoResponse (Some 1)) (labels w) = 2 ∧
  connections_spontaneity (app w) = [None; None].
Proof. vm_compute. repeat split. Qed.

(** C5 does not hold when a second group is found before the 2500 ms
    after the first correct guess have passed.  No key is pressed, so no
    skip is forced.  The grid stays on screen and takes clicks during
    the 2500 ms, so the second correct guess schedules [on_complete] a
    second time.  The first call starts the rest of puzzle 1; the second
    counts a second puzzle as completed and starts the rest of puzzle 2
    on top of it.  When that rest ends, puzzle 3 starts: puzzle 2 is
    never shown, and the rest of puzzle 1 never ends. *)
Theorem second_group_skips_a_block :
  let w := run solve_twice example_init in
  let w' := run solve_twice_and_rest example_init in
  (pending (tk w) = [(0, cb_on_connections_puzzle_complete);
                     (1, cb_on_connections_puzzle_complete)] ∧
   connections_puzzles_completed (app w) = 0 ∧
   children (tk w) = [w_tiles 0]) ∧
  (connections_puzzles_completed (app w') = 2 ∧
   filter is_connections_start (labels w') = [Connections_Start 1; Connections_Start 3] ∧
   labels w' = labels w ++ [Connections_Rest_Start 1; Connections_Rest_Start 2;
                            ConnectionQ_NoResponse (Some 2);
                            Connections_Rest_End (Some 2);
                            Connections_Start 3] ∧
   children (tk w') = [w_tiles 1]).
Proof. vm_compute. repeat split. Qed.

(** C2 does not hold when a second group is found before the 2500 ms
    after the first correct guess have passed: the first block, which
    no skip has touched, sends [Connections1_End] twice, once for each
    correct guess. *)
Theorem second_group_sends_a_second_end :
  let w := run solve_twice example_init in
  labels w = [Session_Start; Connections_Start 1;
              Connections_Guess 1 1 true; Connections_End 1;
              Connections_Guess 1 2 true; Connections_End 1] ∧
  count (Connections_End 1) (labels w) = 2 ∧
  ¬ one_end_after_correct (labels w) 1.
Proof.
  vm_compute. repeat split. intros [H _]. discriminate.
Qed.

(** C8 does not hold when a click is taken inside the flash.  Three
    tiles of group A are selected and the fourth is clicked, while a
    click on tile 1 is waiting.  The first [update()] of the flash takes
    that click: tile 1 is not matched, it is not added because four
    tiles are selected, and since four tiles are selected the guess is
    evaluated again.  One selection of four tiles is counted as two
    guesses, [Connections1_Guess2_Correct] comes between
    [Connections1_Guess1_Correct] and [Connections1_End],
    [Connections1_End] is sent twice and [on_complete] is scheduled
    twice.  With nothing waiting, the same click counts one guess and
    sends [Connections1_Guess1_Correct] and [Connections1_End]. *)
Theorem click_inside_flash_counts_twice :
  let w := run three_of_group_a example_init in
  let w1 := step (ev_tile 0 6) w in
  let w2 := step click_inside_flash w in
  (ConnectionsGame.selected <$> games w !! 0 = Some [0; 2; 4] ∧
   ConnectionsGame.guess_count <$> games w !! 0 = Some 0 ∧
   pending (tk w) = []) ∧
  (labels w1 = labels w ++ [Connections_Guess 1 1 true; Connections_End 1] ∧
   ConnectionsGame.guess_count <$> games w1 !! 0 = Some 1 ∧
   pending (tk w1) = [(0, cb_on_connections_puzzle_complete)]) ∧
  (labels w2 = labels w ++ [Connections_Guess 1 1 true; Connections_Guess 1 2 true;
                            Connections_End 1; Connections_End 1] ∧
   ConnectionsGame.guess_count <$> games w2 !! 0 = Some 2 ∧
   ConnectionsGame.selected <$> games w2 !! 0 = Some [] ∧
   ConnectionsGame.tiles <$> games w2 !! 0 = ConnectionsGame.tiles <$> games w1 !! 0 ∧
   pending (tk w2) = [(0, cb_on_connections_puzzle_complete);
                      (1, cb_on_connections_puzzle_complete)]).
Proof. vm_compute. repeat split. Qed.

(** C7 does not hold when the master skip is taken inside the flash.
    Three tiles of group A are selected and the fourth is clicked, while
    the period key is waiting.  The first [update()] of the flash takes
    the key: the rest of puzzle 1 starts and the grid is destroyed.  The
    flash then configures a destroyed button and raises: the selection is
    not cleared, so four tiles stay selected after the click, and neither
    [Connections1_End] is sent nor [on_complete] scheduled. *)
Theorem skip_inside_flash_leaves_four_selected :
  let w := run three_of_group_a example_init in
  let w' := step skip_inside_flash w in
  (ConnectionsGame.selected <$> games w !! 0 = Some [0; 2; 4] ∧
   children (tk w) = [w_tiles 0]) ∧
  (ConnectionsGame.selected <$> games w' !! 0 = Some [0; 2; 4; 6] ∧
   ConnectionsGame.guess_count <$> games w' !! 0 = Some 1 ∧
   labels w' = labels w ++ [Connections_Guess 1 1 true; Connections_Rest_Start 1] ∧
   pending (tk w') = [(0, cb_tick_connections_rest)] ∧
   children (tk w') = [w_rating_buttons]).
Proof. vm_compute. repeat split. Qed.

(** The master skip leaves the first puzzle and starts its rest without
    any [Connections1_End]. *)
Lemma skipped_block_has_no_end :
  labels (run skip_first_puzzle example_init)
    = [Session_Start; Connections_Start 1; Connections_Rest_Start 1] ∧
  ¬ every_block_ends_once (labels (run skip_first_puzzle example_init)).
Proof.
  split; [reflexivity|].
  intros H. destruct (H 1) as [Hcount _].
  - vm_compute. apply elem_of_cons; right. apply elem_of_cons; right.
    apply elem_of_cons; by left.
  - vm_compute in Hcount. discriminate.
Qed.

(** C10, [send_marker] alone: it sends exactly one marker, whose text
    is [Player<pid>_<label>] with the player ID when that is set and not
    empty, and [PlayerNA_<label>] otherwise. *)
Lemma send_marker_prefix w l :
  ∃ m, sent (send_marker l w) = sent w ++ [MkMarker l m] ∧
       (∀ pid, player_id (app w) = Some pid → pid ≠ "" →
               m = "Player" +:+ pid +:+ "_" +:+ label_text l) ∧
       (player_id (app w) = None ∨ player_id (app w) = Some "" →
        m = "PlayerNA_" +:+ label_text l).
Proof.
  unfold send_marker; simpl. eexists. split; [reflexivity|]. split.
  - intros pid -> Hne. by rewrite bool_decide_eq_false_2.
  - intros [-> | ->]; reflexivity.
Qed.

(** ** Every run of the session

    Once the player ID is accepted, every handler leaves it alone and
    only adds markers built by [send_marker].  The handlers of the
    application are checked one by one ([ext]); the game objects through
    the calls they make ([effect_ok]); the handlers that run inside a
    flash by induction on the events. *)

Ltac app_unfold :=
  unfold run_callback, _master_skip, on_connections_puzzle_complete, _conn_select_rating,
    _start_connections_rest, _tick_connections_rest, _end_connections_rest,
    start_connections_game, new_connections_game, start_rat_task, call_rat,
    call_postq, show_post_questions, final_thanks_and_exit, show_congratulations,
    show_rat_instructions, show_connections_instructions, show_intro,
    center_message_screen, game_call, perform_all, perform, clear_screen, send_marker,
    tk_destroy, tk_pack, tk_after_cancel, tk_after in *.

Ltac mem_tac :=
  intros;
  repeat match goal with
         | |- _ ∉ _ => intros ?
         | H : _ ∈ _ ++ _ |- _ => apply elem_of_app in H as [H|H]
         | H : _ ∈ filter _ _ |- _ => apply list_elem_of_filter in H as [_ H]
         | H : _ ∈ _ :: _ |- _ => apply elem_of_cons in H as [H|H]
         | H : _ ∈ [] |- _ => by apply elem_of_nil in H
         end;
  try done; try congruence;
  try match goal with
      | H : ∀ aid, (aid, cb_submit) ∉ _ |- _ => by eapply H
      end.

Ltac no_submit_tac :=
  match goal with H : no_submit _ |- _ => revert H end;
  unfold no_submit in *; simpl in *;
  intros (? & ? & ? & ?); repeat split; try done; mem_tac.

Ltac chunk_tac :=
  first [exists []; split; [by rewrite app_nil_r|constructor]
        |eexists; split; [rewrite <- ?app_assoc; reflexivity|repeat constructor]].

Ltac ext_tac := split; [reflexivity|split; [no_submit_tac|chunk_tac]].

Ltac destruct_world w :=
  destruct w as [[pid k sp lon act rem raid ch pidx cn rt pq] [pe na rb yn cs en de]
                 gs rs qs rl st].

Lemma step_unfold e w : step e w = handle run e w.
Proof. by destruct e. Qed.

(** What holds of every handler holds of every event and of every run,
    the events taken inside a flash included. *)
Section every_handler.
Variable P : World → Prop.
Variable R : World → World → Prop.
Hypothesis R_refl : ∀ w, P w → R w w.
Hypothesis R_trans : ∀ w1 w2 w3, R w1 w2 → R w2 w3 → R w1 w3.
Hypothesis R_next : ∀ w w', P w → R w w' → P w'.

Lemma keeps_run es : Forall (λ e, keeps P R (step e)) es → keeps P R (run es).
Proof.
  unfold run. induction 1 as [|e es He _ IH]; intros w Hw; simpl; [by apply R_refl|].
  eapply R_trans; [by apply He|]. apply IH. eapply R_next; [done|by apply He].
Qed.

Lemma keeps_perform_game self effs : ∀ updates,
  Forall (keeps P R) updates →
  Forall (λ e, keeps P R (game_call self e)) effs →
  keeps P R (perform_game self updates effs).
Proof.
  induction effs as [|e effs IH]; intros updates Hu Hok w Hw; simpl; [by apply R_refl|].
  apply Forall_cons in Hok as [He Hok].
  assert (Hcall : R w (perform_game self updates effs (game_call self e w))).
  { eapply R_trans; [by apply He|]. apply IH; [done|done|].
    eapply R_next; [done|by apply He]. }
  destruct e; try exact Hcall.
  - destruct (can_config self w); [by apply IH|by apply R_refl].
  - destruct Hu as [|u updates Hu0 Hu]; simpl.
    + destruct (destroyed (tk w)); [by apply R_refl|by apply IH].
    + destruct (destroyed (tk (u w))); [by apply Hu0|].
      eapply R_trans; [by apply Hu0|]. apply IH; [done|done|].
      eapply R_next; [done|by apply Hu0].
Qed.

Lemma keeps_step :
  (∀ nested e, Forall (λ es, keeps P R (nested es)) (nested_events e) →
               keeps P R (handle nested e)) →
  ∀ e, keeps P R (step e).
Proof.
  intros H. fix IH 1. intros e w Hw. rewrite step_unfold. apply H; [|done].
  destruct e as [| | | | | | | | | | | |game idx u1 u2 u3 u4]; simpl; repeat constructor.
  all: apply keeps_run.
  - induction u1 as [|e' u1 IHu]; constructor; [apply IH|apply IHu].
  - induction u2 as [|e' u2 IHu]; constructor; [apply IH|apply IHu].
  - induction u3 as [|e' u3 IHu]; constructor; [apply IH|apply IHu].
  - induction u4 as [|e' u4 IHu]; constructor; [apply IH|apply IHu].
Qed.

End every_handler.

Lemma ext_refl w : no_submit w → ext w w.
Proof. intros. split; [done|split; [done|]]. chunk_tac. Qed.

Lemma ext_trans w1 w2 w3 : ext w1 w2 → ext w2 w3 → ext w1 w3.
Proof.
  intros (Hp1 & _ & c1 & Hs1 & Hf1) (Hp2 & Hn2 & c2 & Hs2 & Hf2).
  split; [congruence|split; [done|]].
  exists (c1 ++ c2). split; [by rewrite Hs2, Hs1, app_assoc|].
  apply Forall_app. split; [done|]. by rewrite <- Hp1.
Qed.

Lemma ext_next w w' : no_submit w → ext w w' → no_submit w'.
Proof. intros _ (_ & H & _). exact H. Qed.

Lemma ext_end_connections_rest w : no_submit w → ext w (_end_connections_rest w).
Proof.
  destruct_world w. intros Hns. unfold ext. app_unfold. simpl.
  case_split. all: ext_tac.
Qed.

Lemma ext_tick_connections_rest w : no_submit w → ext w (_tick_connections_rest w).
Proof.
  destruct_world w. intros Hns. unfold ext. app_unfold. simpl.
  case_split. all: ext_tac.
Qed.

Lemma ext_on_connections_puzzle_complete w :
  no_submit w → ext w (on_connections_puzzle_complete w).
Proof.
  destruct_world w. intros Hns. unfold ext. app_unfold. simpl.
  case_split. all: ext_tac.
Qed.

Lemma ext_conn_select_rating v w : no_submit w → ext w (_conn_select_rating v w).
Proof.
  destruct_world w. intros Hns. unfold ext. app_unfold. simpl.
  case_split. all: ext_tac.
Qed.

Ltac effects_tac :=
  try (intros [= <- <-]); try done; repeat constructor; simpl; done.

Lemma rat_call_effects c self aid r r' effs :
  rat_call c self aid r = Some (r', effs) → Forall effect_ok effs.
Proof.
  destruct r as [i ph aw tr rr ta ra].
  destruct c; rat_unfold; simpl; case_split.
  all: effects_tac.
Qed.

Lemma rat_init_effects self aid r effs :
  RATGame.__init__ self aid = Some (r, effs) → Forall effect_ok effs.
Proof. rat_unfold; simpl; case_split. all: effects_tac. Qed.

Ltac postq_unfold :=
  unfold PostQuestionnaire.__init__, PostQuestionnaire.skip_current,
    PostQuestionnaire.record_response, PostQuestionnaire.show_current,
    PostQuestionnaire.clear, andThen, modify, call, skip in *.

Lemma postq_skip_effects self q q' effs :
  PostQuestionnaire.skip_current self q = Some (q', effs) → Forall effect_ok effs.
Proof. destruct q as [i]. postq_unfold; simpl; case_split. all: effects_tac. Qed.

Lemma postq_record_effects self v q q' effs :
  PostQuestionnaire.record_response self v q = Some (q', effs) → Forall effect_ok effs.
Proof. destruct q as [i]. postq_unfold; simpl; case_split. all: effects_tac. Qed.

Lemma postq_init_effects self q effs :
  PostQuestionnaire.__init__ self = Some (q, effs) → Forall effect_ok effs.
Proof. postq_unfold; simpl; case_split. all: effects_tac. Qed.

Lemma ext_perform complete e w :
  (∀ w, no_submit w → ext w (complete w)) →
  effect_ok e → no_submit w → ext w (perform complete e w).
Proof.
  intros Hc He Hns. destruct e; simpl in He; try by auto.
  all: try by apply ext_refl.
  all: destruct_world w; unfold ext; app_unfold; simpl.
  all: ext_tac.
Qed.

Lemma ext_perform_all complete effs : ∀ w,
  (∀ w, no_submit w → ext w (complete w)) →
  Forall effect_ok effs → no_submit w → ext w (perform_all complete effs w).
Proof.
  unfold perform_all. induction effs as [|e effs IH]; intros w Hc Hok Hns; simpl.
  - by apply ext_refl.
  - apply Forall_cons in Hok as [He Hok].
    pose proof (ext_perform complete e w Hc He Hns) as H1.
    eapply ext_trans; [exact H1|]. apply IH; [done|done|]. apply H1.
Qed.

Ltac world_tac w :=
  destruct_world w; intros; unfold ext; app_unfold; simpl; case_split; ext_tac.

Lemma ext_show_congratulations w : no_submit w → ext w (show_congratulations w).
Proof. world_tac w. Qed.

Lemma ext_final_thanks_and_exit w : no_submit w → ext w (final_thanks_and_exit w).
Proof. world_tac w. Qed.

Lemma ext_set_rats v w : no_submit w → ext w (set_rats v w).
Proof. world_tac w. Qed.

Lemma ext_set_postqs v w : no_submit w → ext w (set_postqs v w).
Proof. world_tac w. Qed.

Lemma ext_set_games v w : no_submit w → ext w (set_games v w).
Proof. world_tac w. Qed.

Lemma ext_call_rat c self w : no_submit w → ext w (call_rat (rat_call c) self w).
Proof.
  intros Hns. unfold call_rat.
  destruct (rats w !! self) as [r|]; [|by apply ext_refl].
  destruct (rat_call c self (next_after (tk w)) r) as [[r' effs]|] eqn:E;
    [|by apply ext_refl].
  pose proof (ext_set_rats (<[self:=r']> (rats w)) w Hns) as H1.
  eapply ext_trans; [exact H1|].
  apply ext_perform_all; [apply ext_show_congratulations| |apply H1].
  by eapply rat_call_effects.
Qed.

Lemma ext_call_postq_skip self w :
  no_submit w → ext w (call_postq PostQuestionnaire.skip_current self w).
Proof.
  intros Hns. unfold call_postq.
  destruct (postqs w !! self) as [q|]; [|by apply ext_refl].
  destruct (PostQuestionnaire.skip_current self q) as [[q' effs]|] eqn:E;
    [|by apply ext_refl].
  pose proof (ext_set_postqs (<[self:=q']> (postqs w)) w Hns) as H1.
  eapply ext_trans; [exact H1|].
  apply ext_perform_all; [apply ext_final_thanks_and_exit| |apply H1].
  by eapply postq_skip_effects.
Qed.

Lemma ext_call_postq_record self v w :
  no_submit w →
  ext w (call_postq (λ self, PostQuestionnaire.record_response self v) self w).
Proof.
  intros Hns. unfold call_postq.
  destruct (postqs w !! self) as [q|]; [|by apply ext_refl].
  destruct (PostQuestionnaire.record_response self v q) as [[q' effs]|] eqn:E;
    [|by apply ext_refl].
  pose proof (ext_set_postqs (<[self:=q']> (postqs w)) w Hns) as H1.
  eapply ext_trans; [exact H1|].
  apply ext_perform_all; [apply ext_final_thanks_and_exit| |apply H1].
  by eapply postq_record_effects.
Qed.

Lemma ext_show_post_questions w : no_submit w → ext w (show_post_questions w).
Proof.
  intros Hns. unfold show_post_questions.
  set (w1 := send_marker PostSurvey_Start (clear_screen w)).
  assert (H1 : ext w w1) by (subst w1; revert Hns; world_tac w).
  destruct (PostQuestionnaire.__init__ (length (postqs w1))) as [[q effs]|] eqn:E; [|done].
  pose proof (ext_set_postqs (postqs w1 ++ [q]) w1 (proj1 (proj2 H1))) as H2.
  pose proof (ext_perform_all final_thanks_and_exit effs _ ext_final_thanks_and_exit
                (postq_init_effects _ _ _ E) (proj1 (proj2 H2))) as H3.
  eapply ext_trans; [exact H1|]. eapply ext_trans; [exact H2|].
  eapply ext_trans; [exact H3|]. revert H3. intros (_ & H3 & _). revert H3.
  generalize (perform_all final_thanks_and_exit effs (set_postqs (postqs w1 ++ [q]) w1)).
  intros w2. world_tac w2.
Qed.

Lemma ext_start_rat_task w : no_submit w → ext w (start_rat_task w).
Proof.
  intros Hns. unfold start_rat_task.
  set (w1 := upd_app (set_last_on_next None)
               (upd_tk (set_return_binding None) (clear_screen w))).
  assert (H1 : ext w w1) by (subst w1; revert Hns; world_tac w).
  destruct (RATGame.__init__ (length (rats w1)) (next_after (tk w1)))
    as [[r effs]|] eqn:E; [|done].
  pose proof (ext_set_rats (rats w1 ++ [r]) w1 (proj1 (proj2 H1))) as H2.
  pose proof (ext_perform_all show_congratulations effs _ ext_show_congratulations
                (rat_init_effects _ _ _ _ E) (proj1 (proj2 H2))) as H3.
  eapply ext_trans; [exact H1|]. eapply ext_trans; [exact H2|].
  eapply ext_trans; [exact H3|]. revert H3. intros (_ & H3 & _). revert H3.
  generalize (perform_all show_congratulations effs (set_rats (rats w1 ++ [r]) w1)).
  intros w2. world_tac w2.
Qed.

Lemma ext_game_call self e : effect_ok e → keeps no_submit ext (game_call self e).
Proof.
  intros He w Hns.
  assert (Hid : ∀ w, no_submit w → ext w (id w)) by (intros; by apply ext_refl).
  destruct e; try by apply (ext_perform id).
  - simpl in He. revert Hns. world_tac w.
  - by apply ext_set_games.
Qed.

Lemma ext_call_game m updates self :
  (∀ aid g g' effs, m aid g = Some (g', effs) → Forall effect_ok effs) →
  Forall (keeps no_submit ext) updates →
  keeps no_submit ext (call_game m updates self).
Proof.
  intros Hm Hu w Hns. unfold call_game.
  destruct (games w !! self) as [g|]; [|by apply ext_refl].
  destruct (m (next_after (tk w)) g) as [[g' effs]|] eqn:E; [|by apply ext_refl].
  pose proof (ext_set_games (<[self:=g']> (games w)) w Hns) as H1.
  eapply ext_trans; [exact H1|].
  apply (keeps_perform_game no_submit ext ext_refl ext_trans ext_next); [done| |apply H1].
  eapply Forall_impl; [by eapply Hm|]. intros e He. by apply ext_game_call.
Qed.

Lemma ext_start_connections_game w : no_submit w → ext w (start_connections_game w).
Proof. world_tac w. Qed.

Lemma ext_show_connections_instructions w :
  no_submit w → ext w (show_connections_instructions w).
Proof. world_tac w. Qed.

Lemma ext_root_destroy w : no_submit w → ext w (upd_tk (set_destroyed true) w).
Proof. world_tac w. Qed.

Lemma ext_run_callback cb w :
  cb ≠ cb_submit → no_submit w → ext w (run_callback cb w).
Proof.
  intros Hcb Hns. destruct cb; simpl; try done.
  - by apply ext_show_connections_instructions.
  - by apply ext_start_connections_game.
  - by apply ext_start_rat_task.
  - by apply ext_show_post_questions.
  - by apply ext_root_destroy.
  - by apply ext_end_connections_rest.
  - by apply ext_tick_connections_rest.
  - by apply ext_on_connections_puzzle_complete.
  - by apply (ext_call_rat rc_tick_think).
  - by apply (ext_call_rat rc_tick_rest).
  - by apply ext_call_postq_skip.
Qed.

Lemma ext_clear_last_on_next w : no_submit w → ext w (upd_app (set_last_on_next None) w).
Proof. world_tac w. Qed.

Lemma ext_master_skip w : no_submit w → ext w (_master_skip w).
Proof.
  intros Hns. unfold _master_skip.
  destruct (_last_on_next (app w)) as [cb|] eqn:Hcb.
  - pose proof (ext_clear_last_on_next w Hns) as H1.
    eapply ext_trans; [exact H1|]. apply ext_run_callback; [|apply H1].
    intros ->. by destruct Hns as [Hns _].
  - destruct (_conn_rest_active (app w)); [by apply ext_end_connections_rest|].
    destruct (conn (app w)); [by apply ext_on_connections_puzzle_complete|].
    destruct (rat (app w)); [by apply (ext_call_rat rc_force_advance)|].
    destruct (postq (app w)); [by apply ext_call_postq_skip|by apply ext_refl].
Qed.

Lemma ext_set_entry s w : no_submit w → ext w (upd_tk (set_entry s) w).
Proof. world_tac w. Qed.

Lemma ext_after_cancel aid w : no_submit w → ext w (tk_after_cancel aid w).
Proof. world_tac w. Qed.

(** The updates of a click, each keeping what its events keep. *)
Lemma keeps_updates P R (nested : list Event → World → World) u1 u2 u3 u4 :
  Forall (λ es, keeps P R (nested es)) [u1; u2; u3; u4] →
  Forall (keeps P R) [nested u1; nested u2; nested u3; nested u4].
Proof.
  intros H. repeat (apply Forall_cons in H as [? H]). repeat constructor; done.
Qed.

Lemma ext_handle nested e :
  Forall (λ es, keeps no_submit ext (nested es)) (nested_events e) →
  keeps no_submit ext (handle nested e).
Proof.
  intros Hn w Hns. unfold handle. destruct (destroyed (tk w)); [by apply ext_refl|].
  destruct e.
  - destruct (on_screen _ _); [by apply ext_set_entry|by apply ext_refl].
  - destruct (on_screen _ _) eqn:E; [|by apply ext_refl].
    apply bool_decide_eq_true in E. by destruct Hns as (_ & _ & Hns & _).
  - destruct (return_binding (tk w)) as [cb|] eqn:E; [|by apply ext_refl].
    apply ext_run_callback; [|done]. intros ->. by destruct Hns as (_ & Hns & _).
  - by apply ext_master_skip.
  - destruct (on_screen _ _); [|by apply ext_refl].
    apply ext_call_game; [|constructor|done]. intros aid g g' effs. apply toggle_tile_effects.
  - destruct (on_screen _ _); [|by apply ext_refl].
    apply ext_call_game; [|constructor|done]. intros aid g g' effs [= <- <-]. constructor.
  - destruct (_ && _); [by apply ext_conn_select_rating|by apply ext_refl].
  - destruct (yes_no_binding (tk w)); [by apply (ext_call_rat rc_on_yes)|by apply ext_refl].
  - destruct (yes_no_binding (tk w)); [by apply (ext_call_rat rc_on_no)|by apply ext_refl].
  - destruct (_ && _); [by apply ext_call_postq_record|by apply ext_refl].
  - destruct (list_find _ _) as [[i [a cb]]|] eqn:E; [|by apply ext_refl].
    apply list_find_Some in E as (Hi & _).
    pose proof (ext_after_cancel aid w Hns) as H1.
    eapply ext_trans; [exact H1|]. apply ext_run_callback; [|apply H1].
    intros ->. destruct Hns as (_ & _ & _ & Hns). apply (Hns a).
    by eapply list_elem_of_lookup_2.
  - destruct (on_screen _ _) eqn:E; [|by apply ext_refl].
    apply bool_decide_eq_true in E. by destruct Hns as (_ & _ & Hns & _).
  - destruct (on_screen _ _); [|by apply ext_refl].
    apply ext_call_game; [|by apply keeps_updates|done].
    intros aid g g' effs. apply toggle_tile_effects.
Qed.

Lemma ext_step e w : no_submit w → ext w (step e w).
Proof.
  apply (keeps_step no_submit ext ext_refl ext_trans ext_next). apply ext_handle.
Qed.

Lemma pre_session_init layouts : pre_session (__init__ layouts).
Proof. unfold pre_session. simpl. repeat split; auto. Qed.

Lemma submit_pre_session w :
  pre_session w → session_inv (submit w).
Proof.
  destruct_world w. unfold pre_session, session_inv, submit. simpl.
  intros (-> & -> & Hlon & -> & -> & -> & -> & -> & -> & -> & ->).
  case_bool_decide as Hen.
  - left. unfold pre_session; simpl. repeat split; auto.
  - right. exists en. simpl. split; [done|]. split; [done|]. split.
    + unfold no_submit; simpl. repeat split; try done; mem_tac.
    + repeat constructor.
Qed.

Lemma on_screen_player_id w :
  children (tk w) = [w_player_id] →
  ∀ wd, on_screen wd w = bool_decide (wd = w_player_id).
Proof.
  intros H wd. unfold on_screen. rewrite H. apply bool_decide_ext.
  apply list_elem_of_singleton.
Qed.

Lemma pre_session_set_entry s w : pre_session w → pre_session (upd_tk (set_entry s) w).
Proof. destruct_world w. unfold pre_session. simpl. tauto. Qed.

Lemma pre_session_clear_last_on_next w :
  pre_session w → pre_session (upd_app (set_last_on_next None) w).
Proof.
  destruct_world w. unfold pre_session. simpl.
  intros (? & ? & ? & ? & ? & ? & ? & ? & ? & ? & ?). repeat split; auto.
Qed.

(** The master skip on the ID screen: [submit], or nothing. *)
Lemma master_skip_pre_session w :
  pre_session w →
  _master_skip w = w ∨ _master_skip w = submit (upd_app (set_last_on_next None) w).
Proof.
  intros (Hp & Hs & [Hl|Hl] & Hr & Hc & Hpe & Ha & Hcn & Hrt & Hpq & Hyn);
    unfold _master_skip; rewrite Hl.
  - left. by rewrite Ha, Hcn, Hrt, Hpq.
  - by right.
Qed.

Lemma step_pre_session e w : pre_session w → session_inv (step e w).
Proof.
  intros Hpre.
  assert (Hsame : session_inv w) by (by left).
  assert (Hscr := on_screen_player_id w (proj1 (proj2 (proj2 (proj2 (proj2 Hpre)))))).
  assert (Hskip : ∀ w, pre_session w → session_inv (_master_skip w)).
  { intros w' Hw'. destruct (master_skip_pre_session w' Hw') as [-> | ->]; [by left|].
    by apply submit_pre_session, pre_session_clear_last_on_next. }
  rewrite step_unfold. unfold handle. destruct (destroyed (tk w)); [done|].
  destruct e; rewrite ?Hscr; simpl; try done.
  - by apply submit_pre_session.
  - rewrite (proj1 (proj2 (proj2 (proj2 Hpre)))). simpl. by apply submit_pre_session.
  - by apply Hskip.
  - destruct Hpre as (_ & _ & _ & _ & _ & _ & _ & _ & _ & _ & Hyn). by rewrite Hyn.
  - destruct Hpre as (_ & _ & _ & _ & _ & _ & _ & _ & _ & _ & Hyn). by rewrite Hyn.
  - destruct Hpre as (_ & _ & _ & _ & _ & Hpe & _). by rewrite Hpe.
  - destruct (has_period s); [|done]. by apply Hskip, pre_session_set_entry.
Qed.

Lemma step_in_session e w : in_session w → session_inv (step e w).
Proof.
  intros (p & Hp & Hne & Hns & Hst).
  destruct (ext_step e w Hns) as (Hp' & Hns' & c & Hs & Hc).
  right. exists p. rewrite Hp', Hs. split; [done|split; [done|split; [done|]]].
  apply Forall_app. split; [done|]. by rewrite <- Hp.
Qed.

Lemma step_session_inv e w : session_inv w → session_inv (step e w).
Proof.
  intros [Hpre|Hin]; [by apply step_pre_session|by apply step_in_session].
Qed.

Lemma run_session_inv es : ∀ w, session_inv w → session_inv (run es w).
Proof.
  unfold run. induction es as [|e es IH]; intros w Hw; simpl; [done|].
  apply IH. by apply step_session_inv.
Qed.

Lemma reachable_session_inv layouts es : session_inv (run es (__init__ layouts)).
Proof.
  apply run_session_inv. left; apply pre_session_init.
Qed.

(** C10.  [send_marker] sends exactly one marker, with the text
    [Player<pid>_<label>] when the player ID is set and not empty and
    [PlayerNA_<label>] when it is unset or empty.  And in every run of
    the session, every marker sent has the text [Player<pid>_<label>]
    for the player ID accepted on the ID screen, which is not empty. *)
Theorem markers_carry_player_prefix :
  (∀ w l, ∃ m,
     sent (send_marker l w) = sent w ++ [MkMarker l m] ∧
     (∀ pid, player_id (app w) = Some pid → pid ≠ "" →
             m = "Player" +:+ pid +:+ "_" +:+ label_text l) ∧
     (player_id (app w) = None ∨ player_id (app w) = Some "" →
      m = "PlayerNA_" +:+ label_text l)) ∧
  (∀ layouts es mk,
     mk ∈ sent (run es (__init__ layouts)) →
     ∃ pid, player_id (app (run es (__init__ layouts))) = Some pid ∧ pid ≠ "" ∧
            msg mk = "Player" +:+ pid +:+ "_" +:+ label_text (label mk)).
Proof.
  split; [apply send_marker_prefix|].
  intros layouts es mk Hmk.
  destruct (reachable_session_inv layouts es) as [Hpre|Hin].
  - destruct Hpre as (_ & Hs & _). rewrite Hs in Hmk. by apply elem_of_nil in Hmk.
  - destruct Hin as (p & Hp & Hne & _ & Hst). exists p. split; [done|split; [done|]].
    rewrite Forall_forall in Hst. rewrite (Hst mk Hmk). simpl.
    by rewrite bool_decide_eq_false_2.
Qed.

Lemma markers_carry_player_prefix_witness :
  MkMarker (Connections_End 1) "Player7_Connections1_End"
    ∈ sent (run solved_first_puzzle example_init) ∧
  ∃ pid, player_id (app (run solved_first_puzzle example_init)) = Some pid ∧ pid ≠ "" ∧
         "Player7_Connections1_End" = "Player" +:+ pid +:+ "_Connections1_End".
Proof.
  assert (H : MkMarker (Connections_End 1) "Player7_Connections1_End"
                ∈ sent (run solved_first_puzzle example_init)).
  { vm_compute. do 3 (apply elem_of_cons; right). apply elem_of_cons; by left. }
  split; [exact H|].
  exact (proj2 markers_carry_player_prefix (λ _, example_layout) solved_first_puzzle _ H).
Defined.

(** * Further properties *)

(** ** The Connections game between two guesses *)

Section connections_clicks.
Import ConnectionsGame.

(** X1.  A click on a tile raises [IndexError] exactly when the index is
    outside the grid.  In a game whose selection is as [game_ok] says
    (as it is at every moment of every run, X20), [toggle_tile] with an
    index inside the grid returns the fields and the calls it makes:
    the evaluation of a guess finds every selected tile.  (The calls may
    still end early: configuring a destroyed button inside the flash
    raises [TclError] when they are performed.) *)
Theorem toggle_tile_raises_only_out_of_range aid idx g :
  game_ok g →
  (idx < length (tiles g) → is_Some (toggle_tile aid idx g)) ∧
  (length (tiles g) ≤ idx → toggle_tile aid idx g = None).
Proof.
  intros (Hlen & Hnd & Hval & _).
  unfold toggle_tile. split.
  - intros Hidx. destruct (lookup_lt_is_Some_2 _ _ Hidx) as [tl Htl]. rewrite Htl.
    destruct (matched tl); [done|]. simpl.
    destruct (length (toggled idx (selected g)) =? 4) eqn:E; [|done].
    apply Nat.eqb_eq in E. apply check_selection_returns; simpl.
    + intros Hnil. by rewrite Hnil in E.
    + by apply toggled_valid.
  - intros Hidx. by rewrite (proj2 (lookup_ge_None _ _) Hidx).
Qed.

(** Three tiles of three groups are selected in the first puzzle. *)
Lemma game_ok_three_selected : game_ok example_three_selected.
Proof.
  split; [vm_compute; lia|]. split; [|split; [|left]].
  - apply (bool_decide_unpack _). by vm_compute.
  - intros i Hi. vm_compute in Hi. vm_compute.
    repeat (apply elem_of_cons in Hi as [->|Hi]; [lia|]).
    by apply elem_of_nil in Hi.
  - intros i tl Hi. vm_compute in Hi.
    repeat (apply elem_of_cons in Hi as [->|Hi]; [by intros [= <-]|]).
    by apply elem_of_nil in Hi.
Qed.

Lemma toggle_tile_raises_only_out_of_range_witness :
  (5 < length (tiles example_three_selected) →
   is_Some (toggle_tile 0 5 example_three_selected)) ∧
  (length (tiles example_three_selected) ≤ 16 →
   toggle_tile 0 16 example_three_selected = None).
Proof.
  apply (toggle_tile_raises_only_out_of_range 0 16 example_three_selected) || split.
  - apply (toggle_tile_raises_only_out_of_range 0 5 example_three_selected).
    apply game_ok_three_selected.
  - apply (toggle_tile_raises_only_out_of_range 0 16 example_three_selected).
    apply game_ok_three_selected.
Defined.

(** X2.  A guess that a click completes is of four different tiles, none
    of them matched before: when fewer than four tiles are selected and
    a click on an unmatched tile brings the selection to four, the
    selection has no duplicate and holds unmatched tiles only.  (With
    four tiles selected a click evaluates them once more, C8.) *)
Theorem guess_is_four_fresh_tiles idx tl g :
  game_ok g →
  tiles g !! idx = Some tl → matched tl = false →
  length (selected g) < 4 →
  length (toggled idx (selected g)) = 4 →
  NoDup (toggled idx (selected g)) ∧
  ∀ i, i ∈ toggled idx (selected g) → matched <$> tiles g !! i = Some false.
Proof.
  intros (_ & Hnd & Hval & [Hun|[H4 _]]) Hidx Hm Hlt Ht; [|lia].
  split; [by apply toggled_NoDup|].
  intros i [Hi| ->]%toggled_elem.
  - destruct (lookup_lt_is_Some_2 _ _ (Hval i Hi)) as [t Ht']. rewrite Ht'. simpl.
    f_equal. by eapply Hun.
  - rewrite Hidx. simpl. by f_equal.
Qed.

Lemma guess_is_four_fresh_tiles_witness :
  NoDup (toggled 5 (selected example_three_selected)) ∧
  ∀ i, i ∈ toggled 5 (selected example_three_selected) →
       matched <$> tiles example_three_selected !! i = Some false.
Proof.
  apply (guess_is_four_fresh_tiles 5 (MkTile "d1" "D" false) example_three_selected).
  - apply game_ok_three_selected.
  - reflexivity.
  - reflexivity.
  - vm_compute. lia.
  - reflexivity.
Defined.

End connections_clicks.

Section connections_play.
Import ConnectionsGame.

(** X3.  Selecting a tile and clicking it again gives the game back: for an
    unmatched tile that is not selected, with fewer than three tiles
    selected, the two clicks return the game as it was, and neither
    makes a call. *)
Theorem select_then_unselect aid aid' idx tl g :
  tiles g !! idx = Some tl → matched tl = false →
  idx ∉ selected g → length (selected g) < 3 →
  ∃ g1, toggle_tile aid idx g = Some (g1, []) ∧
        selected g1 = selected g ++ [idx] ∧
        toggle_tile aid' idx g1 = Some (g, []).
Proof.
  intros Hidx Hm Hin Hlen. exists (set_selected (selected g ++ [idx]) g).
  assert (Ht : toggled idx (selected g) = selected g ++ [idx]).
  { unfold toggled. rewrite bool_decide_eq_false_2 by done.
    by rewrite (proj2 (Nat.ltb_lt _ _)) by lia. }
  assert (Ht' : toggled idx (selected g ++ [idx]) = selected g).
  { unfold toggled. rewrite bool_decide_eq_true_2.
    - by apply remove_snoc.
    - apply elem_of_app. right. by apply list_elem_of_singleton. }
  unfold toggle_tile. rewrite Hidx, Hm. simpl. rewrite Ht, length_app. simpl.
  rewrite (proj2 (Nat.eqb_neq _ 4)) by lia.
  split; [done|]. split; [done|]. simpl. rewrite Hidx, Hm, Ht'. simpl.
  rewrite (proj2 (Nat.eqb_neq _ 4)) by lia.
  by destruct g.
Qed.

Lemma select_then_unselect_witness :
  ∃ g1, toggle_tile 0 5 example_game = Some (g1, []) ∧
        selected g1 = selected example_game ++ [5] ∧
        toggle_tile 1 5 g1 = Some (example_game, []).
Proof.
  apply (select_then_unselect 0 1 5 (MkTile "d1" "D" false) example_game).
  - reflexivity.
  - reflexivity.
  - vm_compute. intros H. by apply elem_of_nil in H.
  - vm_compute. lia.
Defined.

Lemma mark_matched_fmap {A} (f : Tile → A) sel ts :
  (∀ tl, f (set_matched tl) = f tl) → f <$> mark_matched ts sel = f <$> ts.
Proof.
  intros Hf. apply list_eq. intros j.
  rewrite !list_lookup_fmap, mark_matched_lookup.
  case_bool_decide; [|done]. destruct (ts !! j); simpl; [|done]. by rewrite Hf.
Qed.

Lemma mark_matched_keeps_matched sel ts i tl :
  ts !! i = Some tl → matched tl = true → matched <$> mark_matched ts sel !! i = Some true.
Proof.
  intros Hi Hm. rewrite mark_matched_lookup, Hi.
  case_bool_decide; simpl; [done|by rewrite Hm].
Qed.

Lemma same_puzzle_refl g : same_puzzle g g.
Proof.
  repeat split; try done. intros i tl Hi Hm. rewrite Hi. simpl. by f_equal.
Qed.

Lemma same_puzzle_trans g1 g2 g3 : same_puzzle g1 g2 → same_puzzle g2 g3 → same_puzzle g1 g3.
Proof.
  intros (Ht1 & Hg1 & Hp1 & Hf1 & Hc1 & Hm1) (Ht2 & Hg2 & Hp2 & Hf2 & Hc2 & Hm2).
  repeat split; try congruence; [lia|].
  intros i tl Hi Hm. specialize (Hm1 i tl Hi Hm).
  destruct (tiles g2 !! i) as [t2|] eqn:E2; [|done].
  injection Hm1 as Hm1. by eapply Hm2.
Qed.

Lemma check_selection_same_puzzle aid g g' effs :
  check_selection aid g = Some (g', effs) → same_puzzle g g'.
Proof.
  unfold check_selection. simpl.
  destruct (mapM _ _) as [gs|]; [|done].
  destruct gs as [|g0 gs]; [done|].
  destruct (forallb _ _); intros [= <- <-]; simpl.
  - repeat split; simpl; try done; try lia.
    + by apply mark_matched_fmap.
    + by apply mark_matched_fmap.
    + intros i tl. apply mark_matched_keeps_matched.
  - destruct (same_puzzle_refl g) as (? & ? & ? & ? & ? & ?).
    repeat split; simpl; try done; lia.
Qed.

Lemma toggle_tile_same_puzzle aid idx g g' effs :
  toggle_tile aid idx g = Some (g', effs) → same_puzzle g g'.
Proof.
  unfold toggle_tile. destruct (tiles g !! idx) as [tl|]; [|done].
  destruct (matched tl); [intros [= <- <-]; apply same_puzzle_refl|].
  destruct (_ =? _).
  - intros H%check_selection_same_puzzle. exact H.
  - intros [= <- <-]. apply (same_puzzle_refl g).
Qed.

(** Clearing the selection after the flash changes the selection only. *)
Lemma settle_fields r :
  tiles (settle r).1 = tiles r.1 ∧ puzzle_index (settle r).1 = puzzle_index r.1 ∧
  found_groups (settle r).1 = found_groups r.1 ∧
  guess_count (settle r).1 = guess_count r.1 ∧ (settle r).2 = r.2.
Proof. destruct r as [g effs]. unfold settle. simpl. by destruct (existsb _ _). Qed.

Lemma click_same_puzzle c g g' effs : click c g = Some (g', effs) → same_puzzle g g'.
Proof.
  destruct c as [aid idx|]; simpl.
  - destruct (toggle_tile aid idx g) as [r|] eqn:E; [|done]. simpl.
    destruct r as [g1 e1]. apply toggle_tile_same_puzzle in E.
    destruct (settle_fields (g1, e1)) as (Ht & Hp & Hf & Hc & _).
    intros [= <- <-]. unfold same_puzzle in *. simpl in *.
    by rewrite Ht, Hp, Hf, Hc.
  - intros [= <- <-]. apply (same_puzzle_refl g).
Qed.

Lemma play_cons c cs g g' effs :
  play (c :: cs) g = Some (g', effs) →
  ∃ g1 e1 e2, click c g = Some (g1, e1) ∧ play cs g1 = Some (g', e2) ∧ effs = e1 ++ e2.
Proof.
  simpl. unfold andThen. destruct (click c g) as [[g1 e1]|]; [|done].
  destruct (play cs g1) as [[g2 e2]|] eqn:E; [|done]. intros [= <- <-].
  by exists g1, e1, e2.
Qed.

Lemma play_same_puzzle cs : ∀ g g' effs,
  play cs g = Some (g', effs) → same_puzzle g g'.
Proof.
  induction cs as [|c cs IH]; intros g g' effs.
  - intros [= <- <-]. apply same_puzzle_refl.
  - intros (g1 & e1 & e2 & Hc & Hp & _)%play_cons.
    eapply same_puzzle_trans; [by eapply click_same_puzzle|by eapply IH].
Qed.

(** X4.  No sequence of clicks changes the puzzle: the words and the group
    labels of the grid, the puzzle index and [found_groups] stay as they
    are (so [found_groups] is 0 for good), the guess counter never goes
    down, and a tile that is matched stays matched. *)
Theorem play_keeps_the_puzzle cs g g' effs :
  play cs g = Some (g', effs) →
  text <$> tiles g' = text <$> tiles g ∧
  group <$> tiles g' = group <$> tiles g ∧
  puzzle_index g' = puzzle_index g ∧
  found_groups g' = found_groups g ∧
  guess_count g ≤ guess_count g' ∧
  ∀ i tl, tiles g !! i = Some tl → matched tl = true →
          matched <$> tiles g' !! i = Some true.
Proof. apply play_same_puzzle. Qed.

Lemma play_keeps_the_puzzle_witness :
  let g' := Mk (mark_matched (tiles example_game) [0; 2; 4; 6]) [] 0 1 1 in
  text <$> tiles g' = text <$> tiles example_game ∧
  group <$> tiles g' = group <$> tiles example_game ∧
  puzzle_index g' = puzzle_index example_game ∧
  found_groups g' = found_groups example_game ∧
  guess_count example_game ≤ guess_count g' ∧
  ∀ i tl, tiles example_game !! i = Some tl → matched tl = true →
          matched <$> tiles g' !! i = Some true.
Proof.
  apply (play_keeps_the_puzzle
           [cl_tile 0 0; cl_tile 0 2; cl_tile 0 4; cl_tile 0 6] example_game _
           ([on_marker (Connections_Guess 1 1 true)] ++ flash_correct_group
            ++ [on_marker (Connections_End 1);
                after 0 2500 cb_on_connections_puzzle_complete; selected_clear])).
  reflexivity.
Defined.

Lemma guesses_app e1 e2 : guesses (e1 ++ e2) = guesses e1 ++ guesses e2.
Proof. unfold guesses. apply omap_app. Qed.

Lemma toggle_tile_guesses aid idx g g' effs :
  toggle_tile aid idx g = Some (g', effs) →
  guesses effs = (λ n, (puzzle_index g, n)) <$> seq (S (guess_count g))
                                                  (guess_count g' - guess_count g).
Proof.
  unfold toggle_tile. destruct (tiles g !! idx) as [tl|]; [|done].
  destruct (matched tl); [intros [= <- <-]; by rewrite Nat.sub_diag|].
  destruct (_ =? _).
  - unfold check_selection. simpl.
    destruct (mapM _ _) as [gs|]; [|done].
    destruct gs as [|g0 gs]; [done|].
    destruct (forallb _ _); intros [= <- <-]; simpl.
    all: replace (guess_count g + 1 - guess_count g) with 1 by lia.
    all: simpl; by rewrite Nat.add_1_r.
  - intros [= <- <-]. simpl. by rewrite Nat.sub_diag.
Qed.

Lemma click_guesses c g g' effs :
  click c g = Some (g', effs) →
  guesses effs = (λ n, (puzzle_index g, n)) <$> seq (S (guess_count g))
                                                  (guess_count g' - guess_count g).
Proof.
  destruct c as [aid idx|]; simpl.
  - destruct (toggle_tile aid idx g) as [r|] eqn:E; [|done]. simpl.
    destruct r as [g1 e1]. apply toggle_tile_guesses in E.
    intros [= <- <-]. unfold settle. simpl. by destruct (existsb _ _).
  - intros [= <- <-]. simpl. by rewrite Nat.sub_diag.
Qed.

(** X5.  The guess markers of a puzzle are numbered 1, 2, 3, ... without gap
    or repetition: after any clicks on a game as constructed, the guess
    markers sent carry the puzzle's index and the numbers from 1 to
    [guess_count], in this order. *)
Theorem guesses_numbered_from_one cs self puzzle_index layout g effs :
  play cs (init self puzzle_index layout).1 = Some (g, effs) →
  guesses effs = (λ n, (puzzle_index, n)) <$> seq 1 (guess_count g).
Proof.
  assert (Hgen : ∀ cs g g' effs, play cs g = Some (g', effs) →
            guesses effs = (λ n, (ConnectionsGame.puzzle_index g, n))
                             <$> seq (S (guess_count g)) (guess_count g' - guess_count g)).
  { clear. induction cs as [|c cs IH]; intros g g' effs.
    - intros [= <- <-]. by rewrite Nat.sub_diag.
    - intros (g1 & e1 & e2 & Hc & Hp & ->)%play_cons.
      rewrite guesses_app, (click_guesses _ _ _ _ Hc), (IH _ _ _ Hp).
      destruct (click_same_puzzle _ _ _ _ Hc) as (_ & _ & Hpi & _ & Hle & _).
      destruct (play_same_puzzle cs _ _ _ Hp) as (_ & _ & _ & _ & Hle' & _).
      rewrite Hpi, <- fmap_app. f_equal.
      replace (guess_count g' - guess_count g)
        with ((guess_count g1 - guess_count g) + (guess_count g' - guess_count g1)) by lia.
      rewrite seq_app. do 2 f_equal. lia. }
  intros Hp. rewrite (Hgen _ _ _ _ Hp). simpl. by rewrite Nat.sub_0_r.
Qed.

Lemma guesses_numbered_from_one_witness :
  guesses ([on_marker (Connections_Guess 1 1 false);
            on_marker (Connections_Guess 1 2 true)] ++ flash_correct_group
           ++ [on_marker (Connections_End 1);
               after 0 2500 cb_on_connections_puzzle_complete; selected_clear])
  = (λ n, (1, n)) <$> seq 1 2.
Proof.
  apply (guesses_numbered_from_one
           [cl_tile 0 0; cl_tile 0 1; cl_tile 0 3; cl_tile 0 5;
            cl_tile 0 0; cl_tile 0 2; cl_tile 0 4; cl_tile 0 6] 0 1 example_layout
           (Mk (mark_matched (tiles example_game) [0; 2; 4; 6]) [] 0 2 1)).
  reflexivity.
Defined.

End connections_play.

(** ** A click in a session *)

Lemma can_config_true game w g :
  games w !! game = Some g → game_ok g → w_tiles game ∈ children (tk w) →
  can_config game w = true.
Proof.
  intros Hg (_ & _ & Hval & _) Hc. unfold can_config. rewrite Hg.
  destruct (ConnectionsGame.selected g) as [|a sel] eqn:Hs; [done|].
  rewrite bool_decide_eq_true_2 by done. rewrite andb_true_r.
  apply forallb_forall. intros i Hi. apply Nat.ltb_lt, Hval.
  by apply list_elem_of_In.
Qed.

(** The calls of a click: none, the marker of a wrong guess, or those of
    a correct guess with its flash. *)
Lemma toggle_tile_calls aid idx g g' effs :
  ConnectionsGame.toggle_tile aid idx g = Some (g', effs) →
  effs = [] ∨ (∃ l, effs = [on_marker l]) ∨
  (∃ l l', effs = on_marker l :: ConnectionsGame.flash_correct_group
                  ++ [on_marker l'; after aid 2500 cb_on_connections_puzzle_complete;
                      selected_clear]).
Proof.
  unfold ConnectionsGame.toggle_tile.
  destruct (_ !! _) as [tl|]; [|done].
  destruct (ConnectionsGame.matched tl); [intros [= <- <-]; by left|].
  destruct (_ =? _); [|intros [= <- <-]; by left].
  unfold ConnectionsGame.check_selection.
  destruct (mapM _ _) as [gs|]; [|done].
  destruct gs as [|g0 gs]; [done|].
  destruct (forallb _ _); intros [= <- <-]; right; [right|left]; eauto.
Qed.

(** X31.  A click on a tile handled while nothing else is waiting does
    what [click] says: when the grid of the game is on screen, the
    handler leaves the game with the fields [click] returns, the
    selection cleared after a guess, and sends the markers among the
    calls [click] returns, in their order.  So what holds of [play]
    holds of the games of a session as long as no event is taken inside
    a flash. *)
Theorem click_is_what_the_handler_does game idx w g g' effs :
  destroyed (tk w) = false → w_tiles game ∈ children (tk w) →
  games w !! game = Some g → game_ok g →
  click (cl_tile (next_after (tk w)) idx) g = Some (g', effs) →
  games (step (ev_tile game idx) w) = <[game := g']> (games w) ∧
  labels (step (ev_tile game idx) w) = labels w ++ markers effs.
Proof.
  intros Hd Hc Hg Hok Hclick. rewrite !step_unfold. unfold click in Hclick.
  destruct (ConnectionsGame.toggle_tile _ idx g) as [[g1 e1]|] eqn:Ht; [|done].
  simpl in Hclick. injection Hclick as <- <-.
  pose proof (toggle_tile_ok _ _ _ _ _ Hok Ht) as Hok1.
  assert (Hlt : game < length (games w)) by (by eapply lookup_lt_Some).
  unfold handle, on_screen. rewrite Hd, bool_decide_eq_true_2 by done.
  unfold call_game. rewrite Hg, Ht.
  destruct (toggle_tile_calls _ _ _ _ _ Ht) as [->|[[l ->]|(l & l' & ->)]].
  - simpl. split; [done|]. by rewrite app_nil_r.
  - simpl. split; [done|]. unfold labels, send_marker. simpl. by rewrite map_app.
  - set (w1 := set_games (<[game:=g1]> (games w)) w).
    assert (Hg1 : games w1 !! game = Some g1) by (by apply list_lookup_insert_eq).
    simpl.
    rewrite !(can_config_true game _ g1); try done.
    rewrite Hd. simpl. split.
    + apply list_eq. intros j. destruct (decide (j = game)) as [->|Hne].
      * rewrite list_lookup_alter_eq, !list_lookup_insert_eq by done. done.
      * rewrite list_lookup_alter_ne, !list_lookup_insert_ne by done. done.
    + unfold labels. simpl. rewrite !map_app. simpl. by rewrite <- app_assoc.
Qed.

Lemma click_is_what_the_handler_does_witness :
  let w := run three_of_group_a example_init in
  games (step (ev_tile 0 6) w)
  = <[0 := ConnectionsGame.Mk
             (ConnectionsGame.mark_matched (ConnectionsGame.tiles example_game) [0; 2; 4; 6])
             [] 0 1 1]> (games w) ∧
  labels (step (ev_tile 0 6) w)
  = labels w ++ [Connections_Guess 1 1 true; Connections_End 1].
Proof.
  apply (click_is_what_the_handler_does 0 6 (run three_of_group_a example_init)
           (ConnectionsGame.set_selected [0; 2; 4] example_game) _
           ([on_marker (Connections_Guess 1 1 true)] ++ ConnectionsGame.flash_correct_group
            ++ [on_marker (Connections_End 1);
                after 0 2500 cb_on_connections_puzzle_complete; selected_clear])).
  - reflexivity.
  - vm_compute. apply elem_of_cons. by left.
  - reflexivity.
  - split; [vm_compute; lia|]. split; [|split; [|left]].
    + apply (bool_decide_unpack _). by vm_compute.
    + intros i Hi. vm_compute in Hi. vm_compute.
      repeat (apply elem_of_cons in Hi as [->|Hi]; [lia|]).
      by apply elem_of_nil in Hi.
    + intros i tl Hi. vm_compute in Hi.
      repeat (apply elem_of_cons in Hi as [->|Hi]; [by intros [= <-]|]).
      by apply elem_of_nil in Hi.
  - reflexivity.
Defined.

(** ** The RAT game over a whole task *)

Section rat_task.
Import RATGame.

Lemma rat_call_timers c self aid r r' effs :
  rat_inv r → rat_timers r → rat_call c self aid r = Some (r', effs) → rat_timers r'.
Proof.
  unfold rat_inv, rat_timers. destruct r as [i ph aw tr rr ta ra]. simpl.
  destruct ph as [[]|]; [| | | |done]; intros Hinv Ht; destruct c; rat_unfold; simpl.
  all: case_split.
  all: try (intros [= <- <-]; simpl).
  all: try done.
  all: arith.
  all: repeat split; try done; try lia; eauto.
Qed.

Lemma rat_init_timers self aid r effs : __init__ self aid = Some (r, effs) → rat_timers r.
Proof.
  rat_unfold. simpl. intros [= <- <-]. unfold rat_timers. simpl.
  repeat split; eauto.
Qed.

Lemma rat_reachable_timers r : rat_reachable r → rat_timers r.
Proof.
  induction 1 as [self aid r effs Hi|c self aid r r' effs Hr IH Hc].
  - by eapply rat_init_timers.
  - eapply rat_call_timers; [|exact IH|exact Hc]. by apply rat_reachable_inv.
Qed.

(** X7.  A RAT game holds the handle of one timer at most, the one of its
    phase: in every reachable state the handle of the think countdown
    is held in Think and in no other phase, that of the rest countdown
    in Rest and in no other phase; the counters are below ten and
    fifteen; and the game is Done only with all ten items behind it. *)
Theorem rat_holds_the_timer_of_its_phase r :
  rat_reachable r →
  match phase r with
  | Some think =>
      is_Some (_think_after_id r) ∧ _rest_after_id r = None ∧
      _think_remaining r < 10 ∧ awaiting_yes_no r = false
  | Some reveal => _think_after_id r = None ∧ _rest_after_id r = None
  | Some rest =>
      _think_after_id r = None ∧ is_Some (_rest_after_id r) ∧
      _rest_remaining r < 15 ∧ awaiting_yes_no r = false
  | Some done =>
      _think_after_id r = None ∧ _rest_after_id r = None ∧ index r = 10
  | None => False
  end.
Proof. apply rat_reachable_timers. Qed.

Lemma rat_holds_the_timer_of_its_phase_witness :
  is_Some (_think_after_id example_rat) ∧ _rest_after_id example_rat = None ∧
  _think_remaining example_rat < 10 ∧ awaiting_yes_no example_rat = false.
Proof.
  exact (rat_holds_the_timer_of_its_phase example_rat
           (rat_reach_init 0 0 example_rat _ eq_refl)).
Defined.

(** X8.  No call from outside makes a RAT game in a reachable state raise:
    whenever a prompt or an answer is looked up, the index is inside
    the tables. *)
Theorem rat_call_never_raises c self aid r :
  rat_reachable r → is_Some (rat_call c self aid r).
Proof.
  intros Hr. apply rat_reachable_inv in Hr. revert Hr. unfold rat_inv.
  destruct r as [i ph aw tr rr ta ra]. simpl.
  destruct ph as [[]|]; [| | | |done]; intros Hinv; destruct c; rat_unfold; simpl.
  all: case_split; try done; arith.
Qed.

Lemma rat_call_never_raises_witness :
  is_Some (rat_call rc_force_advance 0 1 example_rat).
Proof.
  exact (rat_call_never_raises rc_force_advance 0 1 example_rat
           (rat_reach_init 0 0 example_rat _ eq_refl)).
Defined.

End rat_task.

Section rat_markers.
Import RATGame.

Lemma rat_calls_cons self c aid cs r r' effs :
  rat_calls self ((c, aid) :: cs) r = Some (r', effs) →
  ∃ r1 e1 e2, rat_call c self aid r = Some (r1, e1) ∧
              rat_calls self cs r1 = Some (r', e2) ∧ effs = e1 ++ e2.
Proof.
  simpl. unfold andThen. destruct (rat_call c self aid r) as [[r1 e1]|]; [|done].
  destruct (rat_calls self cs r1) as [[r2 e2]|] eqn:E; [|done]. intros [= <- <-].
  by exists r1, e1, e2.
Qed.

Lemma rat_call_pos c self aid r r' effs :
  rat_inv r → rat_call c self aid r = Some (r', effs) →
  take (rat_pos r') rat_expected = take (rat_pos r) rat_expected ++ omap rat_norm effs.
Proof.
  unfold rat_inv. destruct r as [i ph aw tr rr ta ra]. simpl.
  destruct ph as [[]|]; [| | | |done]; intros Hinv; destruct c; rat_unfold; simpl.
  all: case_split.
  all: try (intros [= <- <-]; unfold rat_pos; simpl).
  all: try done.
  all: try (by rewrite app_nil_r).
  all: arith.
  all: assert (Hi : i ∈ seq 0 10) by (apply elem_of_seq; lia).
  all: simpl in Hi.
  all: repeat (apply elem_of_cons in Hi as [->|Hi]); [..|by apply elem_of_nil in Hi].
  all: try reflexivity.
  all: exfalso; simpl in *; lia.
Qed.

Lemma rat_calls_pos self cs : ∀ r r' effs,
  rat_reachable r → rat_calls self cs r = Some (r', effs) →
  rat_reachable r' ∧
  take (rat_pos r') rat_expected = take (rat_pos r) rat_expected ++ omap rat_norm effs.
Proof.
  induction cs as [|[c aid] cs IH]; intros r r' effs Hr.
  - intros [= <- <-]. split; [done|]. by rewrite app_nil_r.
  - intros (r1 & e1 & e2 & Hc & Hcs & ->)%rat_calls_cons.
    assert (Hr1 : rat_reachable r1) by (by eapply rat_reach_call).
    destruct (IH _ _ _ Hr1 Hcs) as [Hr' Hpos]. split; [done|].
    rewrite Hpos, (rat_call_pos _ _ _ _ _ _ (rat_reachable_inv _ Hr) Hc).
    by rewrite omap_app, app_assoc.
Qed.

Lemma rat_session_pos self aid cs r effs :
  rat_session self aid cs = Some (r, effs) →
  rat_reachable r ∧ omap rat_norm effs = take (rat_pos r) rat_expected.
Proof.
  unfold rat_session. destruct (__init__ self aid) as [[r0 e0]|] eqn:E0; [|done].
  destruct (rat_calls self cs r0) as [[r1 e1]|] eqn:E1; [|done]. intros [= <- <-].
  destruct (rat_calls_pos _ _ _ _ _ (rat_reach_init _ _ _ _ E0) E1) as [Hr Hpos].
  split; [done|]. rewrite Hpos, omap_app. f_equal.
  revert E0. vm_compute. by intros [= <- <-].
Qed.

(** X9.  The markers of a RAT task come in one fixed order, each once: after
    the construction of the game and any calls from timers, keys and
    the master skip, the markers sent so far are a beginning of
    [RAT1_Start, RAT1_Response_Y/N, RAT1_End, RAT1_Rest_Start,
    RAT1_Rest_End, RAT2_Start, ..., RAT10_Rest_End], followed by the
    call of [on_complete]; and all of it has been sent exactly when the
    game is Done. *)
Theorem rat_markers_in_order self aid cs r effs :
  rat_session self aid cs = Some (r, effs) →
  omap rat_norm effs `prefix_of` rat_expected ∧
  (phase r = Some done ↔ omap rat_norm effs = rat_expected).
Proof.
  intros [Hr Hpos]%rat_session_pos. rewrite Hpos. split.
  - apply prefix_take.
  - pose proof (rat_reachable_inv _ Hr) as Hinv.
    pose proof (rat_reachable_timers _ Hr) as Ht.
    unfold rat_inv, rat_timers, rat_pos in *.
    destruct r as [i ph aw tr rr ta ra]. simpl in *.
    destruct ph as [[]|]; [| | | |done].
    4: { destruct Ht as (_ & _ & ->). split; [reflexivity|done]. }
    all: split; [done|]; intros H; apply (f_equal length) in H; revert H.
    all: rewrite length_take; vm_compute length; lia.
Qed.

Lemma rat_markers_in_order_witness :
  omap rat_norm [unbind_all_yes_no; destroy_children; on_marker (RAT_Start 1);
                 after 0 1000 (cb_tick_think 0); after_cancel 0; bind_all_yes_no 0]
    `prefix_of` rat_expected ∧
  (phase (Mk 0 (Some reveal) true 9 0 None None) = Some done ↔
   omap rat_norm [unbind_all_yes_no; destroy_children; on_marker (RAT_Start 1);
                  after 0 1000 (cb_tick_think 0); after_cancel 0; bind_all_yes_no 0]
   = rat_expected).
Proof.
  apply (rat_markers_in_order 0 0 [(rc_force_advance, 1)]).
  reflexivity.
Defined.

End rat_markers.

Section rat_skip.
Import RATGame.



(** X11.  The answer changes nothing but the response marker: Y and N leave
    the game in the same state and make the same calls, but for
    [RAT<i>_Response_Y] against [RAT<i>_Response_N] when the answer is
    awaited; when it is not, neither makes a call. *)
Theorem answer_changes_only_the_marker self aid r :
  match _on_yes self aid r, _on_no self aid r with
  | Some (r1, e1), Some (r2, e2) =>
      r1 = r2 ∧
      filter (λ e, is_response e = false) e1 = filter (λ e, is_response e = false) e2 ∧
      ((phase r = Some reveal ∧ awaiting_yes_no r = true ∧
        filter (λ e, is_response e = true) e1
        = [on_marker (RAT_Response (index r + 1) true)] ∧
        filter (λ e, is_response e = true) e2
        = [on_marker (RAT_Response (index r + 1) false)]) ∨
       (e1 = [] ∧ e2 = []))
  | _, _ => False
  end.
Proof.
  destruct r as [i ph aw tr rr ta ra].
  destruct ph as [[]|], aw; rat_unfold; simpl; try (split; [done|split; [done|by right]]).
  destruct ta, ra, rr; simpl; (split; [done|split; [done|left; done]]).
Qed.

End rat_skip.

Section rat_countdown.
Import RATGame.

Lemma think_ticks self aids : ∀ r,
  phase r = Some think → length aids = _think_remaining r →
  ∃ r1, rat_calls self ((λ a, (rc_tick_think, a)) <$> aids) r
        = Some (r1, (λ a, after a 1000 (cb_tick_think self)) <$> aids) ∧
        phase r1 = Some think ∧ _think_remaining r1 = 0 ∧ index r1 = index r.
Proof.
  induction aids as [|a aids IH]; intros r Hph Hlen.
  - exists r. by repeat split.
  - destruct r as [i ph aw tr rr ta ra]. simpl in *. subst ph tr.
    destruct (IH (Mk i (Some think) aw (length aids) rr (Some a) ra)) as (r1 & Hc & H1);
      [done|done|].
    exists r1. split; [|done].
    assert (Hs : _tick_think self a
                   (Mk i (Some think) aw (S (length aids)) rr ta ra)
                 = Some (Mk i (Some think) aw (length aids) rr (Some a) ra,
                         [after a 1000 (cb_tick_think self)])).
    { rat_unfold. simpl. by rewrite Nat.sub_0_r. }
    change (rat_calls self ((λ a, (rc_tick_think, a)) <$> a :: aids) ?x)
      with ((rat_call rc_tick_think self a
             >>> rat_calls self ((λ a, (rc_tick_think, a)) <$> aids)) x).
    unfold andThen. rewrite Hs. cbv beta iota. unfold fmap in Hc. by rewrite Hc.
Qed.

(** X12.  The think phase lasts exactly its countdown: with [n] seconds
    remaining, the next [n] ticks do nothing but count down and
    schedule the next tick (no marker, no key bound), and the tick
    after them reveals the answer and waits for Y or N, again without
    any marker. *)
Theorem think_lasts_its_countdown self aids aid r :
  phase r = Some think → length aids = _think_remaining r →
  index r < length RAT_ANSWERS →
  ∃ r1 r2 effs,
    rat_calls self ((λ a, (rc_tick_think, a)) <$> aids) r
    = Some (r1, (λ a, after a 1000 (cb_tick_think self)) <$> aids) ∧
    phase r1 = Some think ∧
    _tick_think self aid r1 = Some (r2, effs) ∧
    phase r2 = Some reveal ∧ awaiting_yes_no r2 = true ∧ index r2 = index r ∧
    bind_all_yes_no self ∈ effs ∧ omap rat_norm effs = [].
Proof.
  intros Hph Hlen Hi. destruct (think_ticks self aids r Hph Hlen) as (r1 & Hc & Hp1 & Ht1 & Hi1).
  destruct r1 as [i1 ph1 aw1 tr1 rr1 ta1 ra1]. simpl in *. subst ph1 tr1 i1.
  destruct (lookup_lt_is_Some_2 RAT_ANSWERS (index r) Hi) as [ans Hans].
  destruct ta1; (eexists _, _, _; split; [exact Hc|]; split; [done|]).
  all: rat_unfold; simpl; rewrite Hans; simpl.
  all: split; [reflexivity|]; repeat split.
  all: repeat (apply elem_of_cons; first [by left|right]).
Qed.

Lemma think_lasts_its_countdown_witness :
  ∃ r1 r2 effs,
    rat_calls 0 ((λ a, (rc_tick_think, a)) <$> seq 1 9) example_rat
    = Some (r1, (λ a, after a 1000 (cb_tick_think 0)) <$> seq 1 9) ∧
    phase r1 = Some think ∧
    _tick_think 0 10 r1 = Some (r2, effs) ∧
    phase r2 = Some reveal ∧ awaiting_yes_no r2 = true ∧ index r2 = index example_rat ∧
    bind_all_yes_no 0 ∈ effs ∧ omap rat_norm effs = [].
Proof.
  apply (think_lasts_its_countdown 0 (seq 1 9) 10 example_rat).
  - reflexivity.
  - reflexivity.
  - vm_compute. lia.
Defined.

Lemma rest_ticks self aids : ∀ r,
  phase r = Some rest → length aids = _rest_remaining r →
  ∃ r1, rat_calls self ((λ a, (rc_tick_rest, a)) <$> aids) r
        = Some (r1, (λ a, after a 1000 (cb_tick_rest self)) <$> aids) ∧
        phase r1 = Some rest ∧ _rest_remaining r1 = 0 ∧ index r1 = index r.
Proof.
  induction aids as [|a aids IH]; intros r Hph Hlen.
  - exists r. by repeat split.
  - destruct r as [i ph aw tr rr ta ra]. simpl in *. subst ph rr.
    destruct (IH (Mk i (Some rest) aw tr (length aids) ta (Some a))) as (r1 & Hc & H1);
      [done|done|].
    exists r1. split; [|done].
    assert (Hs : _tick_rest self a
                   (Mk i (Some rest) aw tr (S (length aids)) ta ra)
                 = Some (Mk i (Some rest) aw tr (length aids) ta (Some a),
                         [after a 1000 (cb_tick_rest self)])).
    { rat_unfold. simpl. by rewrite Nat.sub_0_r. }
    change (rat_calls self ((λ a, (rc_tick_rest, a)) <$> a :: aids) ?x)
      with ((rat_call rc_tick_rest self a
             >>> rat_calls self ((λ a, (rc_tick_rest, a)) <$> aids)) x).
    unfold andThen. rewrite Hs. cbv beta iota. unfold fmap in Hc. by rewrite Hc.
Qed.

(** X13.  The rest of an item lasts exactly its countdown: with [n] seconds
    remaining, the next [n] ticks only count down and schedule the next
    tick, and the tick after them sends [RAT<i>_Rest_End] and goes on:
    to the think phase of the next item ([RAT<i+1>_Start]), or, after
    the tenth item, to Done with the call of [on_complete]. *)
Theorem rest_lasts_its_countdown self aids aid r :
  phase r = Some rest → length aids = _rest_remaining r →
  ∃ r1 r2 effs,
    rat_calls self ((λ a, (rc_tick_rest, a)) <$> aids) r
    = Some (r1, (λ a, after a 1000 (cb_tick_rest self)) <$> aids) ∧
    phase r1 = Some rest ∧
    _tick_rest self aid r1 = Some (r2, effs) ∧
    index r2 = index r + 1 ∧
    if index r + 1 <? length RAT_PROMPTS then
      phase r2 = Some think ∧
      omap rat_norm effs = on_marker <$> [RAT_Rest_End (index r + 1); RAT_Start (index r + 2)]
    else
      phase r2 = Some done ∧
      omap rat_norm effs = [on_marker (RAT_Rest_End (index r + 1)); on_complete].
Proof.
  intros Hph Hlen. destruct (rest_ticks self aids r Hph Hlen) as (r1 & Hc & Hp1 & Ht1 & Hi1).
  destruct r1 as [i1 ph1 aw1 tr1 rr1 ta1 ra1]. simpl in *. subst ph1 rr1 i1.
  destruct (index r + 1 <? 10) eqn:Hlt.
  - apply Nat.ltb_lt in Hlt.
    destruct (lookup_lt_is_Some_2 RAT_PROMPTS (index r + 1)) as [p Hp]; [simpl; lia|].
    destruct ta1, ra1; (eexists _, _, _; split; [exact Hc|]; split; [done|]).
    all: rat_unfold; simpl; rewrite (proj2 (Nat.leb_gt _ _)) by lia; simpl.
    all: rewrite Hp; simpl.
    all: split; [reflexivity|]; repeat split.
    all: by replace (index r + 1 + 1) with (index r + 2) by lia.
  - apply Nat.ltb_ge in Hlt.
    destruct ta1, ra1; (eexists _, _, _; split; [exact Hc|]; split; [done|]).
    all: rat_unfold; simpl; rewrite (proj2 (Nat.leb_le _ _)) by lia; simpl.
    all: split; [reflexivity|]; repeat split.
Qed.

Lemma rest_lasts_its_countdown_witness :
  ∃ r1 r2 effs,
    rat_calls 0 ((λ a, (rc_tick_rest, a)) <$> [3; 4])
      (Mk 9 (Some rest) false 0 2 None (Some 2))
    = Some (r1, (λ a, after a 1000 (cb_tick_rest 0)) <$> [3; 4]) ∧
    phase r1 = Some rest ∧
    _tick_rest 0 5 r1 = Some (r2, effs) ∧
    index r2 = 9 + 1 ∧
    phase r2 = Some done ∧
    omap rat_norm effs = [on_marker (RAT_Rest_End (9 + 1)); on_complete].
Proof.
  apply (rest_lasts_its_countdown 0 [3; 4] 5 (Mk 9 (Some rest) false 0 2 None (Some 2)));
    reflexivity.
Defined.

End rat_countdown.

(** ** The questionnaire *)

Section questionnaire.
Import PostQuestionnaire.

Lemma answer_step self a i :
  answer self a (Mk i) =
    if i <? 5 then
      Some (Mk (i + 1),
            [on_marker (answer_label (i + 1) a); destroy (w_post_buttons self)] ++
            if 5 <=? i + 1 then [on_complete]
            else [app_last_on_next (cb_skip_current self); pack (w_post_buttons self)])
    else
      match a with
      | ans_rating value =>
          Some (Mk (i + 1), [on_marker (PostQ (i + 1) value);
                             destroy (w_post_buttons self); on_complete])
      | ans_skip => Some (Mk i, [])
      end.
Proof.
  destruct a; simpl; postq_unfold; simpl.
  - destruct (i <? 5) eqn:E, (5 <=? i + 1) eqn:E'; simpl; try done. arith.
  - destruct (i <? 5) eqn:E; simpl; [|done]. by destruct (5 <=? i + 1).
Qed.

Lemma answers_from self ans : ∀ i,
  i + length ans ≤ 5 →
  ∃ effs, answers self ans (Mk i) = Some (Mk (i + length ans), effs) ∧
          markers effs = imap (λ k, answer_label (i + k + 1)) ans ∧
          length (filter (λ e, is_complete e = true) effs)
          = (if (0 <? length ans) && (i + length ans =? 5) then 1 else 0) ∧
          (0 < length ans → i + length ans = 5 → last effs = Some on_complete).
Proof.
  induction ans as [|a ans IH]; intros i Hlen; simpl in Hlen.
  - exists []. rewrite Nat.add_0_r.
    split; [done|split; [done|split; [by vm_compute|intros H; simpl in H; lia]]].
  - destruct (IH (i + 1)) as (effs & He & Hm & Hc & Hl); [lia|].
    change (answers self (a :: ans) (Mk i))
      with ((answer self a >>> answers self ans) (Mk i)).
    unfold andThen. rewrite answer_step.
    rewrite (proj2 (Nat.ltb_lt i 5)) by lia. rewrite He.
    replace (i + 1 + length ans) with (i + length (a :: ans)) by (simpl; lia).
    eexists. split; [reflexivity|]. split; [|split].
    + simpl. rewrite Nat.add_0_r. f_equal.
      unfold markers in *. rewrite omap_app.
      replace (omap _ (if 5 <=? i + 1 then _ else _)) with (@nil Label)
        by (by destruct (5 <=? i + 1)).
      simpl. unfold markers in Hm. rewrite Hm. apply imap_ext. intros k x _. simpl.
      f_equal. lia.
    + simpl. rewrite !filter_cons. simpl. rewrite filter_app, length_app, Hc.
      destruct ans as [|a' ans]; simpl in *.
      * destruct (5 <=? i + 1) eqn:E; arith;
          [rewrite (proj2 (Nat.eqb_eq _ _)) by lia|rewrite (proj2 (Nat.eqb_neq _ _)) by lia];
          done.
      * rewrite (proj2 (Nat.leb_gt _ _)) by lia. simpl.
        replace (i + 1 + S (length ans)) with (i + S (S (length ans))) by lia. done.
    + intros _ H5. simpl. destruct ans as [|a' ans]; simpl in *.
      * injection He as _ <-. rewrite (proj2 (Nat.leb_le _ _)) by lia. done.
      * rewrite !app_comm_cons, last_app, Hl; [done|lia|lia].
Qed.

(** X14.  The questionnaire sends one marker per question, numbered in order,
    and completes once, at the end: after the construction and any
    [n ≤ 5] answers (a rating or a skip each), the markers sent are
    [PostQ<i>_<value>] or [PostQ<i>_NoResponse] for i = 1, ..., n in
    this order, question n + 1 is the current one, and [on_complete]
    has been called exactly when n = 5: once, as the last call. *)
Theorem questionnaire_one_marker_per_question self ans :
  length ans ≤ length questions →
  ∃ effs, postq_session self ans = Some (Mk (length ans), effs) ∧
          markers effs = imap (λ k, answer_label (k + 1)) ans ∧
          length (filter (λ e, is_complete e = true) effs)
          = (if length ans =? 5 then 1 else 0) ∧
          (length ans = 5 → last effs = Some on_complete).
Proof.
  intros Hlen. destruct (answers_from self ans 0) as (effs & He & Hm & Hc & Hl); [done|].
  unfold postq_session.
  assert (Hi : __init__ self = Some (Mk 0, [destroy (w_post_buttons self);
                                            app_last_on_next (cb_skip_current self);
                                            pack (w_post_buttons self)])) by done.
  rewrite Hi, He. eexists. split; [done|]. split; [|split].
  - unfold markers in *. rewrite omap_app. simpl. exact Hm.
  - rewrite filter_app, length_app, Hc. simpl.
    destruct ans; simpl; [done|]. done.
  - intros H5. rewrite last_app, Hl; [done|lia|done].
Qed.

Lemma questionnaire_one_marker_per_question_witness :
  ∃ effs, postq_session 0 [ans_rating 4; ans_skip; ans_rating 1; ans_skip; ans_rating 5]
          = Some (Mk 5, effs) ∧
          markers effs = [PostQ 1 4; PostQ_NoResponse 2; PostQ 3 1; PostQ_NoResponse 4;
                          PostQ 5 5] ∧
          length (filter (λ e, is_complete e = true) effs) = 1 ∧
          (5 = 5 → last effs = Some on_complete).
Proof.
  apply (questionnaire_one_marker_per_question 0
           [ans_rating 4; ans_skip; ans_rating 1; ans_skip; ans_rating 5]).
  vm_compute. lia.
Defined.

End questionnaire.

(** ** The application between two stages *)

Lemma step_without_id e w :
  types_an_id e = false →
  pre_session w → entry (tk w) = "" →
  pre_session (step e w) ∧ entry (tk (step e w)) = "".
Proof.
  intros He Hpre Hen.
  assert (Hscr := on_screen_player_id w (proj1 (proj2 (proj2 (proj2 (proj2 Hpre)))))).
  assert (Hsub : ∀ w, pre_session w → entry (tk w) = "" → submit w = w).
  { intros w0 _ H0. unfold submit. by rewrite H0. }
  destruct Hpre as (Hp & Hs & Hl & Hr & Hc & Hpe & Ha & Hcn & Hrt & Hpq & Hyn).
  assert (Hpre : pre_session w) by (unfold pre_session; by repeat split).
  rewrite step_unfold. unfold handle. destruct (destroyed (tk w)); [done|].
  destruct e; rewrite ?Hscr; simpl; try done.
  - simpl in He. apply negb_false_iff, bool_decide_eq_true in He as ->.
    revert Hp Hs Hl Hr Hc Hpe Ha Hcn Hrt Hpq Hyn Hen. destruct_world w. simpl.
    unfold pre_session. simpl. intros. by repeat split.
  - by rewrite Hsub.
  - rewrite Hr. simpl. by rewrite Hsub.
  - unfold _master_skip. destruct Hl as [Hl|Hl]; rewrite Hl.
    + by rewrite Ha, Hcn, Hrt, Hpq.
    + simpl. rewrite Hsub.
      * revert Hp Hs Hr Hc Hpe Ha Hcn Hrt Hpq Hyn Hen. destruct_world w. simpl.
        unfold pre_session. simpl. intros. repeat split; auto.
      * revert Hp Hs Hr Hc Hpe Ha Hcn Hrt Hpq Hyn. destruct_world w. simpl.
        unfold pre_session. simpl. intros. repeat split; auto.
      * done.
  - by rewrite Hyn.
  - by rewrite Hyn.
  - by rewrite Hpe.
Qed.

Lemma run_without_id es : ∀ w,
  Forall (λ e, types_an_id e = false) es →
  pre_session w → entry (tk w) = "" →
  pre_session (run es w) ∧ entry (tk (run es w)) = "".
Proof.
  unfold run. induction es as [|e es IH]; intros w Hes Hpre Hen; simpl; [done|].
  apply Forall_cons in Hes as [He Hes].
  destruct (step_without_id e w He Hpre Hen) as [Hpre' Hen']. by apply IH.
Qed.

(** X15.  Nothing happens before text is entered as a player ID: as long
    as the ID field is not edited to a text that is not empty, and no
    period is typed into it, whatever else is pressed or clicked
    (Return, Continue, the master skip with the focus outside the field,
    Y, N), no marker is sent, [player_id] stays unset and the ID screen
    stays up.  (A period typed into the field is text: the master skip
    that follows submits it, and the session starts under the ID [.].) *)
Theorem nothing_before_player_id layouts es :
  Forall (λ e, types_an_id e = false) es →
  let w := run es (__init__ layouts) in
  sent w = [] ∧ player_id (app w) = None ∧ children (tk w) = [w_player_id] ∧
  return_binding (tk w) = Some cb_submit.
Proof.
  intros Hes.
  destruct (run_without_id es (__init__ layouts) Hes (pre_session_init layouts) eq_refl)
    as [(Hp & Hs & _ & Hr & Hc & _) _].
  done.
Qed.

Lemma nothing_before_player_id_witness :
  let w := run [ev_return; ev_period; ev_continue; ev_type ""; ev_period; ev_key_y]
             example_init in
  sent w = [] ∧ player_id (app w) = None ∧ children (tk w) = [w_player_id] ∧
  return_binding (tk w) = Some cb_submit.
Proof.
  apply (nothing_before_player_id (λ _, example_layout)
           [ev_return; ev_period; ev_continue; ev_type ""; ev_period; ev_key_y]).
  repeat constructor.
Defined.

(** X30.  A period typed into the ID field is accepted as a player ID:
    on the ID screen as the program starts it, with the focus in the
    field, the period key puts the character into the field and then
    runs the master skip, which calls [submit]; the text is not empty,
    so [player_id] is set to it, [Session_Start] is sent under it and
    the intro screen is up. *)
Theorem period_in_entry_starts_the_session layouts s :
  has_period s = true →
  let w := step (ev_period_in_entry s) (__init__ layouts) in
  player_id (app w) = Some s ∧ sent w = [stamp (Some s) Session_Start] ∧
  _last_on_next (app w) = Some cb_show_connections_instructions.
Proof.
  intros Hs w. subst w. rewrite step_unfold. unfold handle, on_screen.
  change (children (tk (__init__ layouts))) with [w_player_id].
  rewrite bool_decide_eq_true_2 by (apply elem_of_cons; by left).
  rewrite Hs. simpl. unfold _master_skip. simpl. unfold submit. simpl.
  case_bool_decide as E; [subst s; discriminate|]. done.
Qed.

Lemma period_in_entry_starts_the_session_witness :
  let w := step (ev_period_in_entry ".") example_init in
  player_id (app w) = Some "." ∧
  sent w = [MkMarker Session_Start "Player._Session_Start"] ∧
  _last_on_next (app w) = Some cb_show_connections_instructions.
Proof.
  apply (period_in_entry_starts_the_session (λ _, example_layout) "."). reflexivity.
Defined.

(** X16.  On the message screens between the stages the master skip is the
    Return key: when the stored callback and the Return binding are the
    same continuation (instructions, start of the Connections stage,
    start of the RAT task, start of the questionnaire), pressing '.'
    and pressing Return lead to the same world. *)
Theorem period_is_return_on_message_screens cb w :
  is_screen_continuation cb = true →
  _last_on_next (app w) = Some cb → return_binding (tk w) = Some cb →
  step ev_period w = step ev_return w.
Proof.
  intros Hcb Hl Hr. rewrite !step_unfold. unfold handle.
  destruct (destroyed (tk w)); [done|].
  unfold _master_skip. rewrite Hl, Hr.
  destruct_world w. simpl in *.
  destruct cb; try discriminate; reflexivity.
Qed.

Lemma period_is_return_on_message_screens_witness :
  step ev_period (run [ev_type "7"; ev_return] example_init)
  = step ev_return (run [ev_type "7"; ev_return] example_init).
Proof.
  apply (period_is_return_on_message_screens cb_show_connections_instructions);
    reflexivity.
Defined.

(** ** A rating rest from start to end *)

(** X17.  A rest that is rated records that rating, once: the rest of puzzle
    [i] is started, button [value] is clicked, any further buttons are
    clicked, and the rest ends (by its timer or by the master skip).
    Then the markers sent are [Connections<i>_Rest_Start],
    [ConnectionQ<i>_<value>] and [Connections<i>_Rest_End] (followed by
    the start marker of the next puzzle, if there is one), no
    [NoResponse] marker is among them, and [value] is the one entry
    added to the ratings. *)
Theorem rated_rest_records_the_first_click i value later w :
  let w1 := _start_connections_rest i w in
  let w2 := foldl (λ w v, _conn_select_rating v w) w1 (value :: later) in
  let w3 := _end_connections_rest w2 in
  labels w3 = labels w ++ [Connections_Rest_Start i; ConnectionQ (Some i) value;
                           Connections_Rest_End (Some i)]
                       ++ next_puzzle_start (connections_puzzles_completed (app w)) ∧
  connections_spontaneity (app w3) = connections_spontaneity (app w) ++ [Some value] ∧
  _conn_rest_active (app w3) = false ∧
  (∀ aid, (aid, cb_tick_connections_rest) ∈ pending (tk w3) →
          (aid, cb_tick_connections_rest) ∈ pending (tk w)).
Proof.
  intros w1 w2 w3.
  assert (H2 : w2 = _conn_select_rating value w1).
  { subst w2. simpl.
    assert (Hc : _conn_rating_choice (app (_conn_select_rating value w1)) = Some value)
      by (subst w1; by destruct_world w).
    revert Hc. generalize (_conn_select_rating value w1). clear.
    induction later as [|v later IH]; intros w Hc; simpl; [done|].
    assert (Hw : _conn_select_rating v w = w).
    { unfold _conn_select_rating. rewrite Hc. by destruct (_conn_rest_active (app w)). }
    rewrite Hw. by apply IH. }
  subst w3. rewrite H2. subst w1. clear.
  destruct_world w.
  assert (E1 : _conn_select_rating value
                 (_start_connections_rest i
                    (MkWorld (MkApp pid k sp lon act rem raid ch pidx cn rt pq)
                             (MkTk pe na rb yn cs en de) gs rs qs rl st))
               = MkWorld (MkApp pid k sp (Some cb_end_connections_rest) true 14 (Some na)
                                (Some value) (Some i) cn rt pq)
                         (MkTk (pe ++ [(na, cb_tick_connections_rest)]) (S na) rb yn
                               [w_rating_buttons] en de)
                         gs rs qs rl
                         (st ++ [stamp pid (Connections_Rest_Start i)]
                             ++ [stamp pid (ConnectionQ (Some i) value)])).
  { unfold _conn_select_rating, _start_connections_rest, _tick_connections_rest.
    simpl. unfold send_marker. simpl. by rewrite <- app_assoc. }
  rewrite E1. clear E1.
  unfold labels, next_puzzle_start, _end_connections_rest, new_connections_game. simpl.
  destruct (k <? 15) eqn:Hk; simpl; rewrite ?Hk; simpl.
  all: rewrite ?map_app, <- ?app_assoc; simpl.
  all: split; [done|split; [done|split; [done|]]].
  all: intros aid Hin.
  all: apply list_elem_of_filter in Hin as [Hne Hin]; simpl in Hne.
  all: apply elem_of_app in Hin as [Hin|Hin]; [done|].
  all: apply list_elem_of_singleton in Hin; injection Hin as ->; done.
Qed.

(** X18.  A rest that is not rated records [NoResponse], once: the rest of
    puzzle [i] is started and ends without a click.  Then the markers
    sent are [Connections<i>_Rest_Start], [ConnectionQ<i>_NoResponse]
    and [Connections<i>_Rest_End] (followed by the start marker of the
    next puzzle, if there is one), and the one entry added to the
    ratings is [None]. *)
Theorem unrated_rest_records_no_response i w :
  let w3 := _end_connections_rest (_start_connections_rest i w) in
  labels w3 = labels w ++ [Connections_Rest_Start i; ConnectionQ_NoResponse (Some i);
                           Connections_Rest_End (Some i)]
                       ++ next_puzzle_start (connections_puzzles_completed (app w)) ∧
  connections_spontaneity (app w3) = connections_spontaneity (app w) ++ [None] ∧
  _conn_rest_active (app w3) = false.
Proof.
  destruct_world w.
  assert (E1 : _start_connections_rest i
                 (MkWorld (MkApp pid k sp lon act rem raid ch pidx cn rt pq)
                          (MkTk pe na rb yn cs en de) gs rs qs rl st)
               = MkWorld (MkApp pid k sp (Some cb_end_connections_rest) true 14 (Some na)
                                None (Some i) cn rt pq)
                         (MkTk (pe ++ [(na, cb_tick_connections_rest)]) (S na) rb yn
                               [w_rating_buttons] en de)
                         gs rs qs rl
                         (st ++ [stamp pid (Connections_Rest_Start i)])).
  { unfold _start_connections_rest, _tick_connections_rest. simpl. done. }
  rewrite E1. clear E1.
  unfold labels, next_puzzle_start, _end_connections_rest, new_connections_game. simpl.
  destruct (k <? 15) eqn:Hk; simpl; rewrite ?Hk; simpl.
  all: rewrite ?map_app, <- ?app_assoc; simpl.
  all: by repeat split.
Qed.

Lemma tick_connections_rest_counts w n :
  _conn_rest_active (app w) = true → _conn_rest_remaining (app w) = S n →
  let w' := _tick_connections_rest w in
  _conn_rest_active (app w') = true ∧ _conn_rest_remaining (app w') = n ∧
  sent w' = sent w ∧ games w' = games w ∧ children (tk w') = children (tk w) ∧
  connections_spontaneity (app w') = connections_spontaneity (app w) ∧
  _conn_rating_choice (app w') = _conn_rating_choice (app w) ∧
  connections_puzzles_completed (app w') = connections_puzzles_completed (app w) ∧
  _conn_rest_after_id (app w') = Some (next_after (tk w)) ∧
  pending (tk w') = pending (tk w) ++ [(next_after (tk w), cb_tick_connections_rest)].
Proof.
  destruct_world w. simpl. intros -> ->. unfold _tick_connections_rest. simpl.
  rewrite Nat.sub_0_r. by repeat split.
Qed.

(** X19.  The rating rest lasts exactly its countdown: with the rest running
    and [n] seconds remaining, the next [n] ticks only count down and
    schedule the next tick (no marker is sent, no rating is recorded,
    the rating buttons stay, no puzzle is started), and the tick after
    them is the end of the rest: it does what [_end_connections_rest]
    does. *)
Theorem connections_rest_lasts_its_countdown w :
  _conn_rest_active (app w) = true →
  let w' := Nat.iter (_conn_rest_remaining (app w)) _tick_connections_rest w in
  _conn_rest_active (app w') = true ∧ _conn_rest_remaining (app w') = 0 ∧
  sent w' = sent w ∧ games w' = games w ∧ children (tk w') = children (tk w) ∧
  connections_spontaneity (app w') = connections_spontaneity (app w) ∧
  _conn_rating_choice (app w') = _conn_rating_choice (app w) ∧
  _tick_connections_rest w' = _end_connections_rest w'.
Proof.
  intros Ha.
  assert (Hgen : ∀ n, n ≤ _conn_rest_remaining (app w) →
            let w' := Nat.iter n _tick_connections_rest w in
            _conn_rest_active (app w') = true ∧
            _conn_rest_remaining (app w') = _conn_rest_remaining (app w) - n ∧
            sent w' = sent w ∧ games w' = games w ∧ children (tk w') = children (tk w) ∧
            connections_spontaneity (app w') = connections_spontaneity (app w) ∧
            _conn_rating_choice (app w') = _conn_rating_choice (app w)).
  { induction n as [|n IH]; intros Hn; simpl.
    - rewrite Nat.sub_0_r. by repeat split.
    - destruct IH as (H1 & H2 & H3 & H4 & H5 & H6 & H7); [lia|].
      destruct (tick_connections_rest_counts (Nat.iter n _tick_connections_rest w)
                  (_conn_rest_remaining (app w) - S n) H1)
        as (G1 & G2 & G3 & G4 & G5 & G6 & G7 & _); [lia|].
      repeat split; congruence. }
  destruct (Hgen _ (Nat.le_refl _)) as (H1 & H2 & H3 & H4 & H5 & H6 & H7).
  rewrite Nat.sub_diag in H2. cbv zeta. repeat split; try done.
  revert H1 H2. generalize (Nat.iter (_conn_rest_remaining (app w)) _tick_connections_rest w).
  intros w' H1 H2. unfold _tick_connections_rest. by rewrite H1, H2.
Qed.

Lemma connections_rest_lasts_its_countdown_witness :
  let w' := Nat.iter (_conn_rest_remaining (app example_rest)) _tick_connections_rest
              example_rest in
  _conn_rest_active (app w') = true ∧ _conn_rest_remaining (app w') = 0 ∧
  sent w' = sent example_rest ∧ games w' = games example_rest ∧
  children (tk w') = children (tk example_rest) ∧
  connections_spontaneity (app w') = connections_spontaneity (app example_rest) ∧
  _conn_rating_choice (app w') = _conn_rating_choice (app example_rest) ∧
  _tick_connections_rest w' = _end_connections_rest w'.
Proof.
  apply (connections_rest_lasts_its_countdown example_rest). reflexivity.
Defined.

(** ** Every run of the session, continued

    The selection of every Connections game stays as [game_ok] says,
    the RAT games stay in reachable states, [Session_Start] is sent
    once, and the ratings recorded match the rests that ended.  As
    before, the handlers of the application are checked one by one
    ([grow]), the game objects through the calls they make. *)

Lemma game_ok_fresh puzzle_index layout :
  game_ok
    (ConnectionsGame.Mk (map (λ p, ConnectionsGame.MkTile p.1 p.2 false) layout)
                        [] 0 0 puzzle_index).
Proof. by apply game_ok_nil. Qed.

Ltac stores_tac :=
  unfold stores_ok in *; simpl in *;
  let Hg := fresh in let Hr := fresh in
  intros [Hg Hr]; split; rewrite ?Forall_app; repeat split; try done;
  try (apply Forall_cons; split; [apply game_ok_fresh|apply Forall_nil]);
  repeat constructor.

Ltac grow_chunk :=
  eexists _, _;
  split; [rewrite ?map_app, <- ?app_assoc; simpl;
          first [reflexivity|symmetry; apply app_nil_r]|];
  split; [mem_tac|];
  split; [first [rewrite <- ?app_assoc; reflexivity|symmetry; apply app_nil_r]|reflexivity].

Ltac grow_tac := split; [stores_tac|grow_chunk].

Ltac grow_world w :=
  destruct_world w; intros; unfold grow, labels; app_unfold; simpl; case_split; grow_tac.

Lemma grow_refl w : grow w w.
Proof. split; [done|]. exists [], []. rewrite !app_nil_r. repeat split. apply not_elem_of_nil. Qed.

Lemma grow_trans w1 w2 w3 : grow w1 w2 → grow w2 w3 → grow w1 w3.
Proof.
  intros (Hs1 & c1 & s1 & Hl1 & Hn1 & Hp1 & Hc1) (Hs2 & c2 & s2 & Hl2 & Hn2 & Hp2 & Hc2).
  split; [by auto|]. exists (c1 ++ c2), (s1 ++ s2).
  split; [by rewrite Hl2, Hl1, app_assoc|]. split.
  - rewrite elem_of_app. tauto.
  - split; [by rewrite Hp2, Hp1, app_assoc|].
    rewrite filter_app, !length_app. lia.
Qed.

Lemma grow_end_connections_rest w : grow w (_end_connections_rest w).
Proof. grow_world w. Qed.

Lemma grow_tick_connections_rest w : grow w (_tick_connections_rest w).
Proof. grow_world w. Qed.

Lemma grow_on_connections_puzzle_complete w : grow w (on_connections_puzzle_complete w).
Proof. grow_world w. Qed.

Lemma grow_conn_select_rating v w : grow w (_conn_select_rating v w).
Proof. grow_world w. Qed.

Lemma grow_show_congratulations w : grow w (show_congratulations w).
Proof. grow_world w. Qed.

Lemma grow_final_thanks_and_exit w : grow w (final_thanks_and_exit w).
Proof. grow_world w. Qed.

Lemma grow_start_connections_game w : grow w (start_connections_game w).
Proof. grow_world w. Qed.

Lemma grow_show_connections_instructions w : grow w (show_connections_instructions w).
Proof. grow_world w. Qed.

Lemma grow_upd_tk f w : grow w (upd_tk f w).
Proof. grow_world w. Qed.

Lemma grow_clear_last_on_next w : grow w (upd_app (set_last_on_next None) w).
Proof. grow_world w. Qed.

Lemma rat_call_quiet c self aid r r' effs :
  rat_call c self aid r = Some (r', effs) → Forall effect_quiet effs.
Proof.
  destruct r as [i ph aw tr rr ta ra].
  destruct c; rat_unfold; simpl; case_split.
  all: effects_tac.
Qed.

Lemma rat_init_quiet self aid r effs :
  RATGame.__init__ self aid = Some (r, effs) → Forall effect_quiet effs.
Proof. rat_unfold; simpl; case_split. all: effects_tac. Qed.

Lemma postq_skip_quiet self q q' effs :
  PostQuestionnaire.skip_current self q = Some (q', effs) → Forall effect_quiet effs.
Proof. destruct q as [i]. postq_unfold; simpl; case_split. all: effects_tac. Qed.

Lemma postq_record_quiet self v q q' effs :
  PostQuestionnaire.record_response self v q = Some (q', effs) → Forall effect_quiet effs.
Proof. destruct q as [i]. postq_unfold; simpl; case_split. all: effects_tac. Qed.

Lemma postq_init_quiet self q effs :
  PostQuestionnaire.__init__ self = Some (q, effs) → Forall effect_quiet effs.
Proof. postq_unfold; simpl; case_split. all: effects_tac. Qed.

Lemma grow_perform complete e w :
  (∀ w, grow w (complete w)) → effect_quiet e → grow w (perform complete e w).
Proof.
  intros Hc He. destruct e as [l| | | | | | | | | | | |]; simpl in He; try by auto.
  all: try apply grow_refl.
  all: destruct_world w; unfold grow, labels; app_unfold; simpl.
  1: destruct l; try done.
  all: grow_tac.
Qed.

Lemma grow_perform_all complete effs : ∀ w,
  (∀ w, grow w (complete w)) → Forall effect_quiet effs →
  grow w (perform_all complete effs w).
Proof.
  unfold perform_all. induction effs as [|e effs IH]; intros w Hc Hok; simpl.
  - apply grow_refl.
  - apply Forall_cons in Hok as [He Hok].
    eapply grow_trans; [by apply grow_perform|by apply IH].
Qed.

Lemma grow_set_rats v w :
  (Forall rat_reachable (rats w) → Forall rat_reachable v) → grow w (set_rats v w).
Proof.
  intros Hv. split.
  - intros [Hg Hr]. split; [done|by apply Hv].
  - exists [], []. rewrite !app_nil_r. repeat split. apply not_elem_of_nil.
Qed.

Lemma grow_set_games v w :
  (Forall game_ok (games w) → Forall game_ok v) → grow w (set_games v w).
Proof.
  intros Hv. split.
  - intros [Hg Hr]. split; [by apply Hv|done].
  - exists [], []. rewrite !app_nil_r. repeat split. apply not_elem_of_nil.
Qed.

Lemma grow_set_postqs v w : grow w (set_postqs v w).
Proof.
  split; [done|]. exists [], []. rewrite !app_nil_r. repeat split. apply not_elem_of_nil.
Qed.

Lemma Forall_insert_reachable {A} (P : A → Prop) l i x y :
  l !! i = Some x → (P x → P y) → Forall P l → Forall P (<[i := y]> l).
Proof.
  intros Hi Hxy Hl. apply Forall_insert; [done|].
  apply Hxy. by eapply Forall_lookup_1.
Qed.

Lemma grow_call_rat c self w : grow w (call_rat (rat_call c) self w).
Proof.
  unfold call_rat.
  destruct (rats w !! self) as [r|] eqn:Hr; [|apply grow_refl].
  destruct (rat_call c self (next_after (tk w)) r) as [[r' effs]|] eqn:E;
    [|apply grow_refl].
  eapply grow_trans.
  - apply (grow_set_rats (<[self:=r']> (rats w))).
    apply (Forall_insert_reachable _ _ _ r); [done|]. intros H. by eapply rat_reach_call.
  - apply grow_perform_all; [apply grow_show_congratulations|by eapply rat_call_quiet].
Qed.

Lemma grow_call_postq_skip self w :
  grow w (call_postq PostQuestionnaire.skip_current self w).
Proof.
  unfold call_postq.
  destruct (postqs w !! self) as [q|]; [|apply grow_refl].
  destruct (PostQuestionnaire.skip_current self q) as [[q' effs]|] eqn:E;
    [|apply grow_refl].
  eapply grow_trans; [apply grow_set_postqs|].
  apply grow_perform_all; [apply grow_final_thanks_and_exit|by eapply postq_skip_quiet].
Qed.

Lemma grow_call_postq_record self v w :
  grow w (call_postq (λ self, PostQuestionnaire.record_response self v) self w).
Proof.
  unfold call_postq.
  destruct (postqs w !! self) as [q|]; [|apply grow_refl].
  destruct (PostQuestionnaire.record_response self v q) as [[q' effs]|] eqn:E;
    [|apply grow_refl].
  eapply grow_trans; [apply grow_set_postqs|].
  apply grow_perform_all; [apply grow_final_thanks_and_exit|by eapply postq_record_quiet].
Qed.

Lemma grow_show_post_questions w : grow w (show_post_questions w).
Proof.
  unfold show_post_questions.
  set (w1 := send_marker PostSurvey_Start (clear_screen w)).
  assert (H1 : grow w w1) by (subst w1; grow_world w).
  destruct (PostQuestionnaire.__init__ (length (postqs w1))) as [[q effs]|] eqn:E; [|done].
  eapply grow_trans; [exact H1|].
  eapply grow_trans; [apply (grow_set_postqs (postqs w1 ++ [q]))|].
  eapply grow_trans;
    [apply (grow_perform_all final_thanks_and_exit effs); 
       [apply grow_final_thanks_and_exit|by eapply postq_init_quiet]|].
  generalize (perform_all final_thanks_and_exit effs (set_postqs (postqs w1 ++ [q]) w1)).
  intros w2. grow_world w2.
Qed.

Lemma grow_start_rat_task w : grow w (start_rat_task w).
Proof.
  unfold start_rat_task.
  set (w1 := upd_app (set_last_on_next None)
               (upd_tk (set_return_binding None) (clear_screen w))).
  assert (H1 : grow w w1) by (subst w1; grow_world w).
  destruct (RATGame.__init__ (length (rats w1)) (next_after (tk w1)))
    as [[r effs]|] eqn:E; [|done].
  eapply grow_trans; [exact H1|].
  eapply grow_trans.
  { apply (grow_set_rats (rats w1 ++ [r])). intros Hr. apply Forall_app. split; [done|].
    constructor; [|constructor]. by eapply rat_reach_init. }
  eapply grow_trans;
    [apply (grow_perform_all show_congratulations effs);
       [apply grow_show_congratulations|by eapply rat_init_quiet]|].
  generalize (perform_all show_congratulations effs (set_rats (rats w1 ++ [r]) w1)).
  intros w2. grow_world w2.
Qed.

Lemma check_selection_quiet aid g g' effs :
  ConnectionsGame.check_selection aid g = Some (g', effs) → Forall effect_quiet effs.
Proof.
  unfold ConnectionsGame.check_selection.
  destruct (mapM _ _) as [gs|]; [|done].
  destruct gs as [|g0 gs]; [done|].
  destruct (forallb _ _); intros [= <- <-]; repeat constructor; done.
Qed.

Lemma toggle_tile_quiet aid idx g g' effs :
  ConnectionsGame.toggle_tile aid idx g = Some (g', effs) → Forall effect_quiet effs.
Proof.
  unfold ConnectionsGame.toggle_tile.
  destruct (_ !! _) as [tl|]; [|done].
  destruct (ConnectionsGame.matched tl); [intros [= <- <-]; constructor|].
  destruct (_ =? _); [by apply check_selection_quiet|intros [= <- <-]; constructor].
Qed.

Lemma ext_grow_refl w : no_submit w → ext_grow w w.
Proof. intros Hns. split; [by apply ext_refl|apply grow_refl]. Qed.

Lemma ext_grow_trans w1 w2 w3 : ext_grow w1 w2 → ext_grow w2 w3 → ext_grow w1 w3.
Proof.
  intros [He1 Hg1] [He2 Hg2]. split; [by eapply ext_trans|by eapply grow_trans].
Qed.

Lemma ext_grow_next w w' : no_submit w → ext_grow w w' → no_submit w'.
Proof. intros Hns [He _]. by eapply ext_next. Qed.

Lemma grow_game_call self e w : effect_quiet e → grow w (game_call self e w).
Proof.
  intros He. destruct e; try by apply (grow_perform id); [intros; apply grow_refl|].
  - unfold game_call, tk_after. apply grow_upd_tk.
  - apply grow_set_games. intros Hg. apply Forall_alter; [done|].
    intros g _ _. apply game_ok_clear.
Qed.

Lemma ext_grow_call_game m updates self :
  (∀ aid g g' effs, m aid g = Some (g', effs) →
     Forall effect_ok effs ∧ Forall effect_quiet effs ∧ (game_ok g → game_ok g')) →
  Forall (keeps no_submit ext_grow) updates →
  keeps no_submit ext_grow (call_game m updates self).
Proof.
  intros Hm Hu w Hns. unfold call_game.
  destruct (games w !! self) as [g|] eqn:Hg; [|by apply ext_grow_refl].
  destruct (m (next_after (tk w)) g) as [[g' effs]|] eqn:E; [|by apply ext_grow_refl].
  destruct (Hm _ _ _ _ E) as (Hok & Hq & Hr).
  assert (H1 : ext_grow w (set_games (<[self:=g']> (games w)) w)).
  { split; [by apply ext_set_games|]. apply grow_set_games.
    by apply (Forall_insert_reachable _ _ _ g). }
  eapply ext_grow_trans; [exact H1|].
  apply (keeps_perform_game no_submit ext_grow ext_grow_refl ext_grow_trans ext_grow_next);
    [done| |by eapply ext_grow_next].
  apply Forall_forall. intros e He w' Hw'.
  rewrite Forall_forall in Hok. rewrite Forall_forall in Hq.
  split; [apply ext_game_call; auto|apply grow_game_call; auto].
Qed.

Lemma grow_run_callback cb w : cb ≠ cb_submit → grow w (run_callback cb w).
Proof.
  intros Hcb. destruct cb; simpl; try done.
  - apply grow_show_connections_instructions.
  - apply grow_start_connections_game.
  - apply grow_start_rat_task.
  - apply grow_show_post_questions.
  - apply grow_upd_tk.
  - apply grow_end_connections_rest.
  - apply grow_tick_connections_rest.
  - apply grow_on_connections_puzzle_complete.
  - apply (grow_call_rat rc_tick_think).
  - apply (grow_call_rat rc_tick_rest).
  - apply grow_call_postq_skip.
Qed.

Lemma grow_master_skip w : no_submit w → grow w (_master_skip w).
Proof.
  intros Hns. unfold _master_skip.
  destruct (_last_on_next (app w)) as [cb|] eqn:Hcb.
  - eapply grow_trans; [apply grow_clear_last_on_next|].
    apply grow_run_callback. intros ->. by destruct Hns as [Hns _].
  - destruct (_conn_rest_active (app w)); [apply grow_end_connections_rest|].
    destruct (conn (app w)); [apply grow_on_connections_puzzle_complete|].
    destruct (rat (app w)); [apply (grow_call_rat rc_force_advance)|].
    destruct (postq (app w)); [apply grow_call_postq_skip|apply grow_refl].
Qed.

Lemma ext_grow_handle nested e :
  Forall (λ es, keeps no_submit ext_grow (nested es)) (nested_events e) →
  keeps no_submit ext_grow (handle nested e).
Proof.
  intros Hn w Hns. split.
  { apply ext_handle; [|done]. eapply Forall_impl; [exact Hn|].
    intros es H w' Hw'. by apply H. }
  unfold handle. destruct (destroyed (tk w)); [apply grow_refl|].
  destruct e.
  - destruct (on_screen _ _); [apply grow_upd_tk|apply grow_refl].
  - destruct (on_screen _ _) eqn:E; [|apply grow_refl].
    apply bool_decide_eq_true in E. by destruct Hns as (_ & _ & Hns & _).
  - destruct (return_binding (tk w)) as [cb|] eqn:E; [|apply grow_refl].
    apply grow_run_callback. intros ->. by destruct Hns as (_ & Hns & _).
  - by apply grow_master_skip.
  - destruct (on_screen _ _); [|apply grow_refl].
    apply ext_grow_call_game; [|constructor|done]. intros aid g g' effs Ht.
    split; [by eapply toggle_tile_effects|].
    split; [by eapply toggle_tile_quiet|]. intros Hr. by eapply toggle_tile_ok.
  - destruct (on_screen _ _); [|apply grow_refl].
    apply ext_grow_call_game; [|constructor|done]. intros aid g g' effs [= <- <-].
    split; [constructor|]. split; [constructor|]. intros _. apply game_ok_clear.
  - destruct (_ && _); [apply grow_conn_select_rating|apply grow_refl].
  - destruct (yes_no_binding (tk w)); [apply (grow_call_rat rc_on_yes)|apply grow_refl].
  - destruct (yes_no_binding (tk w)); [apply (grow_call_rat rc_on_no)|apply grow_refl].
  - destruct (_ && _); [apply grow_call_postq_record|apply grow_refl].
  - destruct (list_find _ _) as [[i [a cb]]|] eqn:E; [|apply grow_refl].
    apply list_find_Some in E as (Hi & _).
    apply (grow_trans _ (tk_after_cancel aid w)); [unfold tk_after_cancel; apply grow_upd_tk|].
    apply grow_run_callback.
    intros ->. destruct Hns as (_ & _ & _ & Hns). apply (Hns a).
    by eapply list_elem_of_lookup_2.
  - destruct (on_screen _ _) eqn:E; [|apply grow_refl].
    apply bool_decide_eq_true in E. by destruct Hns as (_ & _ & Hns & _).
  - destruct (on_screen _ _); [|apply grow_refl].
    apply ext_grow_call_game; [|by apply keeps_updates|done]. intros aid g g' effs Ht.
    split; [by eapply toggle_tile_effects|].
    split; [by eapply toggle_tile_quiet|]. intros Hr. by eapply toggle_tile_ok.
Qed.

Lemma grow_step e w : no_submit w → grow w (step e w).
Proof.
  intros Hns.
  apply (keeps_step no_submit ext_grow ext_grow_refl ext_grow_trans ext_grow_next);
    [apply ext_grow_handle|done].
Qed.

Lemma submit_pre_fields w :
  pre_session w → pre_fields w →
  pre_fields (submit w) ∧
  (pre_session (submit w) ∨ (in_session (submit w) ∧ labels (submit w) = [Session_Start])).
Proof.
  destruct_world w. unfold pre_session, pre_fields, in_session, submit, labels. simpl.
  intros (-> & -> & Hlon & -> & -> & -> & -> & -> & -> & -> & ->) (-> & -> & ->).
  case_bool_decide as Hen; simpl.
  - split; [done|]. left. by repeat split.
  - split; [done|]. right. split; [|done]. exists en.
    split; [done|]. split; [done|]. split.
    + unfold no_submit; simpl. repeat split; try done; mem_tac.
    + repeat constructor.
Qed.

Lemma step_pre_fields e w :
  pre_session w → pre_fields w →
  pre_fields (step e w) ∧
  (pre_session (step e w) ∨ (in_session (step e w) ∧ labels (step e w) = [Session_Start])).
Proof.
  intros Hpre Hf.
  assert (Hsame : pre_fields w ∧ (pre_session w ∨
                    (in_session w ∧ labels w = [Session_Start]))) by (split; [done|by left]).
  assert (Hscr := on_screen_player_id w (proj1 (proj2 (proj2 (proj2 (proj2 Hpre)))))).
  assert (Hskip : ∀ w, pre_session w → pre_fields w →
            pre_fields (_master_skip w) ∧
            (pre_session (_master_skip w) ∨
             (in_session (_master_skip w) ∧ labels (_master_skip w) = [Session_Start]))).
  { intros w' Hw' Hf'. destruct (master_skip_pre_session w' Hw') as [-> | ->].
    - split; [done|by left].
    - apply submit_pre_fields; [by apply pre_session_clear_last_on_next|exact Hf']. }
  rewrite step_unfold. unfold handle. destruct (destroyed (tk w)); [done|].
  destruct e; rewrite ?Hscr; simpl; try done.
  - by apply submit_pre_fields.
  - rewrite (proj1 (proj2 (proj2 (proj2 Hpre)))). simpl. by apply submit_pre_fields.
  - by apply Hskip.
  - destruct Hpre as (_ & _ & _ & _ & _ & _ & _ & _ & _ & _ & Hyn). by rewrite Hyn.
  - destruct Hpre as (_ & _ & _ & _ & _ & _ & _ & _ & _ & _ & Hyn). by rewrite Hyn.
  - destruct Hpre as (_ & _ & _ & _ & _ & Hpe & _). by rewrite Hpe.
  - destruct (has_period s); [|done].
    apply Hskip; [by apply pre_session_set_entry|exact Hf].
Qed.

Lemma pre_session_not_in_session w : pre_session w → in_session w → False.
Proof. intros (Hp & _) (p & Hp' & _). congruence. Qed.

Lemma step_session_inv2 e w : session_inv2 w → session_inv2 (step e w).
Proof.
  intros (Hinv & Hst & Hcount & [[Hpre Hf]|[Hin Hso]]).
  - pose proof (step_session_inv e w Hinv) as Hinv'.
    destruct (step_pre_fields e w Hpre Hf) as [Hf' Hcase].
    assert (Hst' : stores_ok (step e w)).
    { destruct Hf' as (Hg & Hr & _). unfold stores_ok. rewrite Hg, Hr. by split. }
    pose proof Hf' as (Hg & Hr & Hsp).
    split; [done|]. split; [done|]. destruct Hcase as [Hpre'|[Hin' Hl']].
    + split; [|left; by split].
      destruct Hpre' as (_ & Hs & _). unfold labels. by rewrite Hsp, Hs.
    + split; [by rewrite Hsp, Hl'|]. right. split; [done|].
      exists []. split; [done|apply not_elem_of_nil].
  - pose proof (step_session_inv e w Hinv) as Hinv'.
    assert (Hns : no_submit w) by (by destruct Hin as (p & _ & _ & Hns & _)).
    destruct (grow_step e w Hns) as (Hs & c & s & Hl & Hn & Hp & Hc).
    split; [done|]. split; [by auto|]. split.
    + rewrite Hp, Hl, filter_app, !length_app. lia.
    + right. split.
      * destruct Hinv' as [Hpre'|Hin']; [|done]. exfalso.
        destruct (ext_step e w Hns) as (Hpid & _).
        destruct Hin as (p & Hp0 & _). destruct Hpre' as (Hnone & _). congruence.
      * destruct Hso as (rest & Hr & Hnr). exists (rest ++ c). rewrite Hl, Hr.
        split; [done|]. rewrite elem_of_app. tauto.
Qed.

Lemma run_session_inv2 es : ∀ w, session_inv2 w → session_inv2 (run es w).
Proof.
  unfold run. induction es as [|e es IH]; intros w Hw; simpl; [done|].
  apply IH. by apply step_session_inv2.
Qed.

Lemma reachable_session_inv2 layouts es : session_inv2 (run es (__init__ layouts)).
Proof.
  apply run_session_inv2. split; [|split; [|split]].
  - left; apply pre_session_init.
  - split; constructor.
  - done.
  - left. split; [apply pre_session_init|done].
Qed.

(** X20.  The objects of a session are well formed at every moment:
    whatever the events, also those taken inside a flash, and whether or
    not a handler has raised, every Connections game built so far has at
    most four tiles selected, none twice and all inside the grid, none
    of them matched unless they are the four of a correct guess whose
    flash did not finish; and every RAT game is in a state that timers,
    keys and the master skip reach from its construction, so it is in
    one of its four phases with its index inside the tables. *)
Theorem session_objects_are_well_formed layouts es :
  let w := run es (__init__ layouts) in
  (∀ g, g ∈ games w → game_ok g) ∧
  (∀ r, r ∈ rats w → rat_reachable r ∧ rat_inv r).
Proof.
  destruct (reachable_session_inv2 layouts es) as (_ & [Hg Hr] & _).
  rewrite Forall_forall in Hg. rewrite Forall_forall in Hr. split.
  - intros g Hin. by apply Hg.
  - intros r Hin. split; [by apply Hr|]. by apply rat_reachable_inv, Hr.
Qed.

(** X21.  [Session_Start] is sent once, as the first marker of the session:
    in every run, either nothing was sent yet, or the first marker is
    [Session_Start] and no later marker is. *)
Theorem session_start_once_and_first layouts es :
  let ls := labels (run es (__init__ layouts)) in
  ls = [] ∨ ∃ rest, ls = Session_Start :: rest ∧ Session_Start ∉ rest.
Proof.
  destruct (reachable_session_inv2 layouts es) as (_ & _ & _ & [[Hpre _]|[_ Hso]]).
  - left. destruct Hpre as (_ & Hs & _). unfold labels. by rewrite Hs.
  - by right.
Qed.

(** X22.  One rating entry per rest that ended: in every run, forced skips
    or not, [connections_spontaneity] has as many entries as
    [Connections<i>_Rest_End] markers were sent. *)
Theorem one_rating_entry_per_rest_end layouts es :
  let w := run es (__init__ layouts) in
  length (connections_spontaneity (app w))
  = length (filter (λ l, is_rest_end l = true) (labels w)).
Proof. by destruct (reachable_session_inv2 layouts es) as (_ & _ & Hc & _). Qed.

Lemma session_objects_are_well_formed_witness :
  let w := run (three_of_group_a ++ [skip_inside_flash]) example_init in
  ConnectionsGame.selected <$> games w !! 0 = Some [0; 2; 4; 6] ∧
  ∀ g, g ∈ games w → game_ok g.
Proof.
  split; [reflexivity|].
  exact (proj1 (session_objects_are_well_formed (λ _, example_layout)
                  (three_of_group_a ++ [skip_inside_flash]))).
Defined.

(** ** The master skip after the Connections stage

    [self.conn] is assigned when a puzzle is constructed and never
    cleared, and the RAT task and the questionnaire only start after
    the Connections stage.  So the branch of [_master_skip] that tests
    [self.conn] always comes before the branches for the RAT game and
    the questionnaire. *)

Ltac conn_world w :=
  destruct_world w; unfold keeps_conn; app_unfold; simpl; case_split; eauto.

Lemma conn_refl w : keeps_conn w w.
Proof. by intros H. Qed.

Lemma conn_trans w1 w2 w3 : keeps_conn w1 w2 → keeps_conn w2 w3 → keeps_conn w1 w3.
Proof. unfold keeps_conn. auto. Qed.

Lemma conn_end_connections_rest w : keeps_conn w (_end_connections_rest w).
Proof. conn_world w. Qed.

Lemma conn_tick_connections_rest w : keeps_conn w (_tick_connections_rest w).
Proof. conn_world w. Qed.

Lemma conn_on_connections_puzzle_complete w : keeps_conn w (on_connections_puzzle_complete w).
Proof. conn_world w. Qed.

Lemma conn_conn_select_rating v w : keeps_conn w (_conn_select_rating v w).
Proof. conn_world w. Qed.

Lemma conn_center_message_screen cb w : keeps_conn w (center_message_screen cb w).
Proof. conn_world w. Qed.

Lemma conn_final_thanks_and_exit w : keeps_conn w (final_thanks_and_exit w).
Proof. conn_world w. Qed.

Lemma conn_start_connections_game w : keeps_conn w (start_connections_game w).
Proof. conn_world w. Qed.

Lemma conn_submit w : keeps_conn w (submit w).
Proof. destruct_world w. unfold keeps_conn, submit. simpl. case_bool_decide; eauto. Qed.

Lemma conn_upd_tk f w : keeps_conn w (upd_tk f w).
Proof. by intros H. Qed.

Lemma conn_perform complete e w :
  (∀ w, keeps_conn w (complete w)) → keeps_conn w (perform complete e w).
Proof.
  intros Hc. destruct e; simpl; try by auto.
  all: intros H; exact H.
Qed.

Lemma conn_perform_all complete effs : ∀ w,
  (∀ w, keeps_conn w (complete w)) → keeps_conn w (perform_all complete effs w).
Proof.
  unfold perform_all. induction effs as [|e effs IH]; intros w Hc; simpl.
  - apply conn_refl.
  - eapply conn_trans; [by apply conn_perform|by apply IH].
Qed.

Lemma conn_call_rat m self w : keeps_conn w (call_rat m self w).
Proof.
  unfold call_rat. destruct (rats w !! self) as [r|]; [|apply conn_refl].
  destruct (m self (next_after (tk w)) r) as [[r' effs]|]; [|apply conn_refl].
  eapply conn_trans; [|apply conn_perform_all; apply conn_center_message_screen].
  by intros H.
Qed.

Lemma conn_call_postq m self w : keeps_conn w (call_postq m self w).
Proof.
  unfold call_postq. destruct (postqs w !! self) as [q|]; [|apply conn_refl].
  destruct (m self q) as [[q' effs]|]; [|apply conn_refl].
  eapply conn_trans; [|apply conn_perform_all; apply conn_final_thanks_and_exit].
  by intros H.
Qed.

Lemma conn_game_call self e w : keeps_conn w (game_call self e w).
Proof.
  destruct e; try (apply (conn_perform id); intros; apply conn_refl).
  all: by intros H.
Qed.

Lemma conn_call_game m updates self w :
  Forall (keeps (λ _, True) keeps_conn) updates → keeps_conn w (call_game m updates self w).
Proof.
  intros Hu. unfold call_game. destruct (games w !! self) as [g|]; [|apply conn_refl].
  destruct (m (next_after (tk w)) g) as [[g' effs]|]; [|apply conn_refl].
  apply (conn_trans _ (set_games (<[self:=g']> (games w)) w)); [by intros H|].
  refine (keeps_perform_game (λ _, True) keeps_conn _ conn_trans _ self effs updates Hu _ _ I).
  - intros w0 _. apply conn_refl.
  - done.
  - apply Forall_forall. intros e _ w0 _. apply conn_game_call.
Qed.

Lemma conn_show_post_questions w : keeps_conn w (show_post_questions w).
Proof.
  unfold show_post_questions.
  destruct (PostQuestionnaire.__init__ _) as [[q effs]|]; [|by intros H].
  intros H.
  assert (H1 : is_Some (conn (app (set_postqs
                 (postqs (send_marker PostSurvey_Start (clear_screen w)) ++ [q])
                 (send_marker PostSurvey_Start (clear_screen w)))))) by done.
  by apply (conn_perform_all final_thanks_and_exit effs _ conn_final_thanks_and_exit) in H1.
Qed.

Lemma conn_start_rat_task w : keeps_conn w (start_rat_task w).
Proof.
  unfold start_rat_task.
  destruct (RATGame.__init__ _ _) as [[r effs]|]; [|by intros H].
  intros H.
  set (w1 := upd_app (set_last_on_next None)
               (upd_tk (set_return_binding None) (clear_screen w))).
  assert (H1 : is_Some (conn (app (set_rats (rats w1 ++ [r]) w1)))) by done.
  by apply (conn_perform_all show_congratulations effs _
              (conn_center_message_screen cb_show_post_questions)) in H1.
Qed.

Lemma conn_run_callback cb w : keeps_conn w (run_callback cb w).
Proof.
  destruct cb; simpl.
  - apply conn_submit.
  - apply conn_center_message_screen.
  - apply conn_start_connections_game.
  - apply conn_start_rat_task.
  - apply conn_show_post_questions.
  - apply conn_upd_tk.
  - apply conn_end_connections_rest.
  - apply conn_tick_connections_rest.
  - apply conn_on_connections_puzzle_complete.
  - apply conn_call_rat.
  - apply conn_call_rat.
  - apply conn_call_postq.
Qed.

Lemma conn_master_skip w : keeps_conn w (_master_skip w).
Proof.
  unfold _master_skip. destruct (_last_on_next (app w)) as [cb|].
  - eapply conn_trans; [|apply conn_run_callback]. by intros H.
  - destruct (_conn_rest_active (app w)); [apply conn_end_connections_rest|].
    destruct (conn (app w)); [apply conn_on_connections_puzzle_complete|].
    destruct (rat (app w)); [apply conn_call_rat|].
    destruct (postq (app w)); [apply conn_call_postq|apply conn_refl].
Qed.

Lemma conn_handle nested e :
  Forall (λ es, keeps (λ _, True) keeps_conn (nested es)) (nested_events e) →
  keeps (λ _, True) keeps_conn (handle nested e).
Proof.
  intros Hn w _. unfold handle. destruct (destroyed (tk w)); [apply conn_refl|].
  destruct e.
  - destruct (on_screen _ _); [apply conn_upd_tk|apply conn_refl].
  - destruct (on_screen _ _); [apply conn_submit|apply conn_refl].
  - destruct (return_binding (tk w)); [apply conn_run_callback|apply conn_refl].
  - apply conn_master_skip.
  - destruct (on_screen _ _); [by apply conn_call_game|apply conn_refl].
  - destruct (on_screen _ _); [by apply conn_call_game|apply conn_refl].
  - destruct (_ && _); [apply conn_conn_select_rating|apply conn_refl].
  - destruct (yes_no_binding (tk w)); [apply conn_call_rat|apply conn_refl].
  - destruct (yes_no_binding (tk w)); [apply conn_call_rat|apply conn_refl].
  - destruct (_ && _); [apply conn_call_postq|apply conn_refl].
  - destruct (list_find _ _) as [[i [a cb]]|]; [|apply conn_refl].
    eapply conn_trans; [|apply conn_run_callback]. by intros H.
  - destruct (_ && _); [|apply conn_refl].
    eapply conn_trans; [|apply conn_master_skip]. by intros H.
  - destruct (on_screen _ _); [|apply conn_refl].
    apply conn_call_game. by apply keeps_updates.
Qed.

Lemma conn_step e w : keeps_conn w (step e w).
Proof.
  refine (keeps_step (λ _, True) keeps_conn _ conn_trans _ conn_handle e w I).
  - intros w0 _. apply conn_refl.
  - done.
Qed.

Ltac early_tac :=
  left; unfold early; simpl; repeat split; try done;
  try (intros ? [= <-]; reflexivity);
  try (intros ? ?%elem_of_nil; done);
  auto.

Lemma early_init layouts : early (__init__ layouts).
Proof.
  unfold early. simpl. repeat split; try done.
  - by intros cb [= <-].
  - by intros cb [= <-].
  - by intros wd ->%list_elem_of_singleton.
Qed.

Lemma early_run_callback cb w :
  early_cb cb = true → early w →
  early (run_callback cb w) ∨ is_Some (conn (app (run_callback cb w))).
Proof.
  destruct_world w. unfold early. simpl.
  intros Hcb (-> & -> & -> & -> & -> & -> & Hl & Hr & Hc).
  destruct cb; try discriminate; simpl.
  - unfold submit. simpl. case_bool_decide; early_tac.
  - early_tac.
  - right. by eexists.
Qed.

Lemma early_off_screen wd w : early w → wd ≠ w_player_id → on_screen wd w = false.
Proof.
  intros (_ & _ & _ & _ & _ & _ & _ & _ & Hc) Hne. unfold on_screen.
  apply bool_decide_eq_false_2. intros Hin. by apply Hne, Hc.
Qed.

Lemma early_set_entry s w : early w → early (upd_tk (set_entry s) w).
Proof. destruct_world w. unfold early. simpl. tauto. Qed.

Lemma early_master_skip w :
  early w → early (_master_skip w) ∨ is_Some (conn (app (_master_skip w))).
Proof.
  intros He. pose proof He as (Hcn & Hrt & Hpq & Ha & Hpe & Hyn & Hl & Hr & Hc).
  unfold _master_skip. destruct (_last_on_next (app w)) as [cb|] eqn:Hcb.
  - apply early_run_callback; [by apply Hl|].
    revert He. clear. destruct_world w. unfold early. simpl.
    intros (? & ? & ? & ? & ? & ? & ? & ? & ?). repeat split; try done.
  - rewrite Ha, Hcn, Hrt, Hpq. by left.
Qed.

Lemma step_early e w : early w → early (step e w) ∨ is_Some (conn (app (step e w))).
Proof.
  intros He. pose proof He as (Hcn & Hrt & Hpq & Ha & Hpe & Hyn & Hl & Hr & Hc).
  rewrite step_unfold. unfold handle. destruct (destroyed (tk w)); [by left|].
  destruct e; rewrite ?(early_off_screen _ w He) by done; simpl; try by left.
  - destruct (on_screen _ _); [|by left]. left. by apply early_set_entry.
  - destruct (on_screen _ _); [|by left]. by apply (early_run_callback cb_submit).
  - destruct (return_binding (tk w)) as [cb|] eqn:Hcb; [|by left].
    apply early_run_callback; [by apply Hr|done].
  - by apply early_master_skip.
  - rewrite Hyn. by left.
  - rewrite Hyn. by left.
  - rewrite Hpe. by left.
  - destruct (_ && _); [|by left]. by apply early_master_skip, early_set_entry.
Qed.

Lemma run_conn_inv es : ∀ w,
  early w ∨ is_Some (conn (app w)) →
  early (run es w) ∨ is_Some (conn (app (run es w))).
Proof.
  unfold run. induction es as [|e es IH]; intros w Hw; simpl; [done|].
  apply IH. destruct Hw as [He|Hc]; [by apply step_early|right; by apply conn_step].
Qed.

(** X23.  During the RAT task and the questionnaire the master skip does not
    reach their branches of [_master_skip]: in every run, once a RAT
    game or a questionnaire exists, [self.conn] still holds a
    Connections game.  So with an empty callback slot and no rest
    running, as during a RAT item, the master skip does what it does
    during a puzzle: it runs [on_connections_puzzle_complete], and
    [RATGame.force_advance] is not called. *)
Theorem master_skip_prefers_the_connections_game layouts es :
  let w := run es (__init__ layouts) in
  (is_Some (rat (app w)) ∨ is_Some (postq (app w)) → is_Some (conn (app w))) ∧
  (is_Some (rat (app w)) →
   _last_on_next (app w) = None → _conn_rest_active (app w) = false →
   _master_skip w = on_connections_puzzle_complete w).
Proof.
  intros w.
  assert (H : is_Some (rat (app w)) ∨ is_Some (postq (app w)) → is_Some (conn (app w))).
  { destruct (run_conn_inv es (__init__ layouts) (or_introl (early_init layouts)))
      as [(_ & Hrt & Hpq & _)|Hc]; [|done].
    fold w in Hrt, Hpq. rewrite Hrt, Hpq. by intros [[? [=]]|[? [=]]]. }
  split; [done|]. intros Hr Hl Ha. destruct H as [c Hc]; [by left|].
  unfold _master_skip. by rewrite Hl, Ha, Hc.
Qed.

Lemma master_skip_prefers_the_connections_game_witness :
  let w := run to_first_rat_item example_init in
  is_Some (rat (app w)) ∧
  _master_skip w = on_connections_puzzle_complete w.
Proof.
  intros w. assert (Hr : is_Some (rat (app w))) by (exists 0; by vm_compute).
  split; [exact Hr|].
  apply (proj2 (master_skip_prefers_the_connections_game (λ _, example_layout)
                  to_first_rat_item) Hr); by vm_compute.
Defined.

(** ** Timers and keys that come too late *)

Lemma call_rat_noop m self w r :
  rats w !! self = Some r → m self (next_after (tk w)) r = Some (r, []) →
  call_rat m self w = w.
Proof.
  intros Hr Hm. unfold call_rat. rewrite Hr, Hm. simpl. unfold set_rats.
  rewrite list_insert_id by done. by destruct w.
Qed.

(** X24.  A tick or a key that comes too late changes nothing: a think tick
    for a RAT game that is not in Think, a rest tick for one that is
    not in Rest, Y or N for one that is not awaiting the answer in
    Reveal, and a tick of the rating rest when no rating rest is
    running all leave the whole program state as it is (no marker, no
    new timer). *)
Theorem late_ticks_and_keys_are_ignored w :
  (∀ self r, rats w !! self = Some r → RATGame.phase r ≠ Some RATGame.think →
     run_callback (cb_tick_think self) w = w) ∧
  (∀ self r, rats w !! self = Some r → RATGame.phase r ≠ Some RATGame.rest →
     run_callback (cb_tick_rest self) w = w) ∧
  (∀ self r, rats w !! self = Some r →
     ¬ (RATGame.phase r = Some RATGame.reveal ∧ RATGame.awaiting_yes_no r = true) →
     call_rat RATGame._on_yes self w = w ∧ call_rat RATGame._on_no self w = w) ∧
  (_conn_rest_active (app w) = false → run_callback cb_tick_connections_rest w = w).
Proof.
  split; [|split; [|split]].
  - intros self r Hr Hph. apply (call_rat_noop _ _ _ r Hr).
    unfold RATGame._tick_think. by destruct (RATGame.phase r) as [[]|].
  - intros self r Hr Hph. apply (call_rat_noop _ _ _ r Hr).
    unfold RATGame._tick_rest. by destruct (RATGame.phase r) as [[]|].
  - intros self r Hr Hph.
    split; apply (call_rat_noop _ _ _ r Hr);
      unfold RATGame._on_yes, RATGame._on_no;
      destruct (RATGame.phase r) as [[]|], (RATGame.awaiting_yes_no r); try done;
      exfalso; by apply Hph.
  - intros Ha. simpl. unfold _tick_connections_rest. by rewrite Ha.
Qed.

Lemma late_ticks_and_keys_are_ignored_witness :
  let w := run to_first_rat_item example_init in
  run_callback (cb_tick_rest 0) w = w.
Proof.
  intros w.
  apply (proj1 (proj2 (late_ticks_and_keys_are_ignored w)) 0
           (RATGame.Mk 0 (Some RATGame.think) false 9 0 (Some 240) None)).
  - by vm_compute.
  - done.
Defined.

(** ** Markers can be told apart *)

Section marker_text.

Lemma string_of_uint_digits d : digits (NilEmpty.string_of_uint d) = true.
Proof.
  induction d; cbn [digits NilEmpty.string_of_uint]; [done|..].
  all: apply andb_true_iff; split; [by vm_compute|done].
Qed.

Lemma py_str_digits n : digits (py_str n) = true.
Proof. apply string_of_uint_digits. Qed.

Lemma py_str_inj i j : py_str i = py_str j → i = j.
Proof.
  unfold py_str. intros H. apply (f_equal NilEmpty.uint_of_string) in H.
  rewrite !NilEmpty.usu in H. injection H as H. by apply Unsigned.to_uint_inj.
Qed.

Lemma py_str_nonempty n : py_str n ≠ EmptyString.
Proof.
  intros H0. pose proof H0 as H. unfold py_str in H.
  apply (f_equal NilEmpty.uint_of_string) in H.
  rewrite NilEmpty.usu in H. injection H as H.
  apply (f_equal Nat.of_uint) in H. rewrite Unsigned.of_to in H.
  rewrite H in H0. by vm_compute in H0.
Qed.

(** Two texts that go on with a character that is no digit after their
    digits agree on the digits and on what follows. *)
Lemma digits_split d1 : ∀ d2 c1 c2 s1 s2,
  digits d1 = true → digits d2 = true →
  is_digit c1 = false → is_digit c2 = false →
  d1 +:+ String c1 s1 = d2 +:+ String c2 s2 → d1 = d2 ∧ String c1 s1 = String c2 s2.
Proof.
  induction d1 as [|c d1 IH]; intros [|c' d2] c1 c2 s1 s2 H1 H2 Hc1 Hc2;
    cbn [digits String.append] in *.
  - done.
  - intros [= -> _]. apply andb_true_iff in H2 as [H2 _]. congruence.
  - intros [= <- _]. apply andb_true_iff in H1 as [H1 _]. congruence.
  - apply andb_true_iff in H1 as [_ H1]. apply andb_true_iff in H2 as [_ H2].
    intros [= -> H]. destruct (IH _ _ _ _ _ H1 H2 Hc1 Hc2 H) as [-> ->]. done.
Qed.

Lemma py_str_split i j c1 c2 s1 s2 :
  is_digit c1 = false → is_digit c2 = false →
  py_str i +:+ String c1 s1 = py_str j +:+ String c2 s2 →
  i = j ∧ String c1 s1 = String c2 s2.
Proof.
  intros Hc1 Hc2 H. apply digits_split in H as [H ->]; [|by apply py_str_digits..|done|done].
  split; [by apply py_str_inj|done].
Qed.

(** The text of a number starts with a digit. *)
Lemma py_str_head n t c s : py_str n +:+ t = String c s → is_digit c = true.
Proof.
  pose proof (py_str_digits n) as Hd. pose proof (py_str_nonempty n) as Hne.
  destruct (py_str n) as [|c' s']; [done|]. cbn [digits String.append] in *.
  intros [= -> _]. by apply andb_true_iff in Hd as [Hd _].
Qed.

Lemma py_str_head' n c s : py_str n = String c s → is_digit c = true.
Proof.
  intros H. apply (py_str_head n EmptyString c s). rewrite H.
  generalize (String c s). clear.
  intros s. induction s as [|a s IH]; [done|].
  change (String a (s +:+ EmptyString) = String a s). by rewrite IH.
Qed.

End marker_text.

Lemma string_cons_inj c1 c2 s1 s2 : String c1 s1 = String c2 s2 → c1 = c2 ∧ s1 = s2.
Proof. by intros [= -> ->]. Qed.

Lemma string_app_inv_head p s1 s2 : p +:+ s1 = p +:+ s2 → s1 = s2.
Proof.
  induction p as [|c p IH]; [done|].
  change (String c (p +:+ s1) = String c (p +:+ s2) → s1 = s2).
  intros [_ H]%string_cons_inj. by apply IH.
Qed.

Lemma string_app_cons c p s : String c p +:+ s = String c (p +:+ s).
Proof. reflexivity. Qed.

Lemma string_app_nil s : EmptyString +:+ s = s.
Proof. reflexivity. Qed.

(** Strips what the two sides of an equation between marker texts have
    in common, from the left, until they differ or nothing is left. *)
Ltac label_inj H :=
  repeat first
    [ discriminate H
    | match type of H with
      | String _ _ = String _ _ =>
          let Hc := fresh in
          apply string_cons_inj in H as [Hc H]; try discriminate Hc; clear Hc
      | py_str _ +:+ String _ _ = py_str _ +:+ String _ _ =>
          let Hi := fresh in
          apply py_str_split in H as [Hi H]; [subst|by vm_compute..]
      | py_str _ +:+ _ = String _ _ => apply py_str_head in H; by vm_compute in H
      | String _ _ = py_str _ +:+ _ =>
          symmetry in H; apply py_str_head in H; by vm_compute in H
      | py_str _ = String _ _ => apply py_str_head' in H; by vm_compute in H
      | String _ _ = py_str _ => symmetry in H; apply py_str_head' in H; by vm_compute in H
      | py_str _ = py_str _ => apply py_str_inj in H; subst
      end ].

Lemma label_text_inj l1 l2 : label_text l1 = label_text l2 → l1 = l2.
Proof.
  intros H. destruct l1, l2.
  all: repeat match goal with
              | b : bool |- _ => destruct b
              | o : option nat |- _ => destruct o
              end.
  all: cbn [label_text py_str_opt] in H.
  all: rewrite ?string_app_cons, ?string_app_nil in H.
  all: label_inj H.
  all: reflexivity.
Qed.

(** X25.  The text of a marker tells which event it stands for: two labels
    with the same text are the same label, with the same indices and
    values; so in one state of the program (one player ID),
    [send_marker] sends the same message for two labels only if they
    are the same label. *)
Theorem marker_text_determines_the_event :
  (∀ l1 l2, label_text l1 = label_text l2 → l1 = l2) ∧
  (∀ w l1 l2,
     msg <$> last (sent (send_marker l1 w)) = msg <$> last (sent (send_marker l2 w)) →
     l1 = l2).
Proof.
  split; [apply label_text_inj|].
  intros w l1 l2. unfold send_marker. simpl. rewrite !last_snoc. simpl.
  intros [= Hm]. do 3 apply string_app_inv_head in Hm. by apply label_text_inj.
Qed.

Lemma marker_text_determines_the_event_witness :
  label_text (Connections_Guess 12 3 true) = "Connections12_Guess3_Correct" ∧
  ∀ l, label_text l = "Connections12_Guess3_Correct" → l = Connections_Guess 12 3 true.
Proof.
  split; [reflexivity|]. intros l Hl.
  apply (proj1 marker_text_determines_the_event l (Connections_Guess 12 3 true)).
  by rewrite Hl.
Defined.

(** ** What is drawn of a Connections game *)

Section connections_view.
Import ConnectionsGame ConnectionsView.

Lemma restyle_spec g bs : ∀ i,
  i + length bs ≤ length (tiles g) →
  ∃ bs', restyle g i bs = Some bs' ∧ length bs' = length bs ∧
         ∀ k b, bs !! k = Some b → bs' !! k = style g (i + k) b.
Proof.
  induction bs as [|b bs IH]; intros i Hlen; simpl in *.
  - exists []. by repeat split.
  - destruct (lookup_lt_is_Some_2 (tiles g) i) as [tl Htl]; [lia|].
    destruct (IH (S i)) as (bs' & Hr & Hl & Hk); [lia|].
    assert (Hs : ∃ b', style g i b = Some b').
    { unfold style. rewrite Htl. destruct (matched tl); [by eexists|].
      case_bool_decide; by eexists. }
    destruct Hs as [b' Hb']. rewrite Hb', Hr. exists (b' :: bs').
    split; [done|]. split; [simpl; by rewrite Hl|].
    intros [|k] b0; rewrite !lookup_cons.
    + intros [= <-]. by rewrite Nat.add_0_r.
    + intros Hb0. rewrite (Hk _ _ Hb0). f_equal. lia.
Qed.

Lemma style_idem g i b b' : style g i b = Some b' → style g i b' = Some b'.
Proof.
  unfold style. destruct (tiles g !! i) as [tl|]; [|done].
  destruct (matched tl); [by intros [= <-]|].
  case_bool_decide; by intros [= <-].
Qed.

Lemma restyle_idem g bs : ∀ i bs', restyle g i bs = Some bs' → restyle g i bs' = Some bs'.
Proof.
  induction bs as [|b bs IH]; intros i bs'; simpl.
  - by intros [= <-].
  - destruct (style g i b) as [b1|] eqn:Hs; [|done].
    destruct (restyle g (S i) bs) as [bs1|] eqn:Hr; [|done].
    intros [= <-]. simpl. by rewrite (style_idem _ _ _ _ Hs), (IH _ _ Hr).
Qed.

(** X26.  [update_tile_styles] shows the state of the game on the buttons:
    with one button per tile it does not raise, it keeps the text and
    the cell of every button, and afterwards a button is disabled
    exactly when its tile is matched and sunken exactly when its tile is
    selected and not matched; a highlight left by [on_hover] is gone;
    and calling it again changes nothing. *)
Theorem update_tile_styles_shows_the_state g bs :
  length bs = length (tiles g) →
  ∃ bs', update_tile_styles g bs = Some bs' ∧ length bs' = length bs ∧
         update_tile_styles g bs' = Some bs' ∧
         ∀ i b tile, bs !! i = Some b → tiles g !! i = Some tile →
           ∃ b', bs' !! i = Some b' ∧
                 btn_text b' = btn_text b ∧ row b' = row b ∧ column b' = column b ∧
                 (state b' = "disabled" ↔ matched tile = true) ∧
                 (relief b' = "sunken" ↔ matched tile = false ∧ i ∈ selected g) ∧
                 bg b' ≠ "#cce6ff".
Proof.
  intros Hlen. destruct (restyle_spec g bs 0) as (bs' & Hr & Hl & Hk); [lia|].
  exists bs'. split; [done|]. split; [done|]. split; [exact (restyle_idem g bs 0 bs' Hr)|].
  intros i b tile Hb Ht. rewrite (Hk _ _ Hb). simpl. unfold style. rewrite Ht.
  destruct (matched tile); [|case_bool_decide].
  all: eexists; split; [done|]; simpl.
  all: repeat split; try done; try (intros [? ?]; done).
Qed.

Lemma update_tile_styles_shows_the_state_witness :
  ∃ bs', update_tile_styles example_three_selected (draw_tiles example_three_selected)
         = Some bs' ∧
         length bs' = length (draw_tiles example_three_selected) ∧
         update_tile_styles example_three_selected bs' = Some bs' ∧
         ∀ i b tile, draw_tiles example_three_selected !! i = Some b →
                     tiles example_three_selected !! i = Some tile →
           ∃ b', bs' !! i = Some b' ∧
                 btn_text b' = btn_text b ∧ row b' = row b ∧ column b' = column b ∧
                 (state b' = "disabled" ↔ matched tile = true) ∧
                 (relief b' = "sunken" ↔
                    matched tile = false ∧ i ∈ selected example_three_selected) ∧
                 bg b' ≠ "#cce6ff".
Proof.
  apply (update_tile_styles_shows_the_state example_three_selected
           (draw_tiles example_three_selected)).
  reflexivity.
Defined.

End connections_view.

Section connections_hover.
Import ConnectionsGame ConnectionsView.

(** X27.  Hovering over a tile and leaving it gives the buttons back: for a
    tile inside the grid whose button is white, [on_hover] followed by
    [on_leave] returns the buttons as they were; no other button is
    touched in between; and the button of a matched or selected tile is
    not touched at all. *)
Theorem hover_then_leave_restores idx g bs b tile :
  tiles g !! idx = Some tile → bs !! idx = Some b → bg b = "white" →
  ∃ bs1, on_hover idx g bs = Some bs1 ∧ on_leave idx g bs1 = Some bs ∧
         (∀ j, j ≠ idx → bs1 !! j = bs !! j) ∧
         (matched tile = true ∨ idx ∈ selected g → bs1 = bs).
Proof.
  intros Ht Hb Hbg. unfold on_hover, on_leave, recolour. rewrite Ht.
  destruct (matched tile) eqn:Hm; simpl.
  { exists bs. by repeat split. }
  case_bool_decide as Hsel; simpl.
  { exists bs. by repeat split. }
  rewrite Hb. eexists. split; [done|].
  rewrite list_lookup_alter_eq, Hb. simpl. split; [|split].
  - f_equal. apply list_eq. intros j. destruct (decide (j = idx)) as [->|Hne].
    + rewrite !list_lookup_alter_eq, Hb. simpl. f_equal.
      destruct b. simpl in *. by subst.
    + by rewrite !list_lookup_alter_ne.
  - intros j Hne. by rewrite list_lookup_alter_ne.
  - intros [?|?]; done.
Qed.

Lemma hover_then_leave_restores_witness :
  ∃ bs1, on_hover 5 example_three_selected (draw_tiles example_three_selected) = Some bs1 ∧
         on_leave 5 example_three_selected bs1
         = Some (draw_tiles example_three_selected) ∧
         (∀ j, j ≠ 5 → bs1 !! j = draw_tiles example_three_selected !! j) ∧
         (matched (MkTile "d1" "D" false) = true ∨ 5 ∈ selected example_three_selected →
          bs1 = draw_tiles example_three_selected).
Proof.
  apply (hover_then_leave_restores 5 example_three_selected
           (draw_tiles example_three_selected)
           (MkButton "d1" "white" None "raised" "normal" 1 1) (MkTile "d1" "D" false));
    reflexivity.
Defined.

End connections_hover.

(** ** The ratings recorded *)

Ltac ratings_world w :=
  destruct_world w; unfold keeps_ratings, ratings_ok; simpl;
  (let Hs := fresh in let Hc := fresh in
   intros [Hs Hc]; app_unfold; simpl; case_split; simpl in *;
   rewrite ?Forall_app, ?Forall_singleton; simpl; repeat split; try done; try lia;
   by constructor).

Lemma ratings_refl w : keeps_ratings w w.
Proof. by intros H. Qed.

Lemma ratings_trans w1 w2 w3 :
  keeps_ratings w1 w2 → keeps_ratings w2 w3 → keeps_ratings w1 w3.
Proof. unfold keeps_ratings. auto. Qed.

Lemma ratings_end_connections_rest w : keeps_ratings w (_end_connections_rest w).
Proof. ratings_world w. Qed.

Lemma ratings_tick_connections_rest w : keeps_ratings w (_tick_connections_rest w).
Proof. ratings_world w. Qed.

Lemma ratings_on_connections_puzzle_complete w :
  keeps_ratings w (on_connections_puzzle_complete w).
Proof. ratings_world w. Qed.

Lemma ratings_conn_select_rating v w :
  is_rating v = true → keeps_ratings w (_conn_select_rating v w).
Proof.
  intros [H1 H2]%andb_true_iff. apply Nat.leb_le in H1. apply Nat.leb_le in H2.
  ratings_world w.
Qed.

Lemma ratings_center_message_screen cb w : keeps_ratings w (center_message_screen cb w).
Proof. ratings_world w. Qed.

Lemma ratings_final_thanks_and_exit w : keeps_ratings w (final_thanks_and_exit w).
Proof. ratings_world w. Qed.

Lemma ratings_start_connections_game w : keeps_ratings w (start_connections_game w).
Proof. ratings_world w. Qed.

Lemma ratings_submit w : keeps_ratings w (submit w).
Proof.
  destruct_world w. unfold keeps_ratings, ratings_ok, submit. simpl.
  by case_bool_decide.
Qed.

Lemma ratings_upd_tk f w : keeps_ratings w (upd_tk f w).
Proof. by intros H. Qed.

Lemma ratings_perform complete e w :
  (∀ w, keeps_ratings w (complete w)) → keeps_ratings w (perform complete e w).
Proof.
  intros Hc. destruct e; simpl; try by auto.
  all: intros H; exact H.
Qed.

Lemma ratings_perform_all complete effs : ∀ w,
  (∀ w, keeps_ratings w (complete w)) → keeps_ratings w (perform_all complete effs w).
Proof.
  unfold perform_all. induction effs as [|e effs IH]; intros w Hc; simpl.
  - apply ratings_refl.
  - eapply ratings_trans; [by apply ratings_perform|by apply IH].
Qed.

Lemma ratings_call_rat m self w : keeps_ratings w (call_rat m self w).
Proof.
  unfold call_rat. destruct (rats w !! self) as [r|]; [|apply ratings_refl].
  destruct (m self (next_after (tk w)) r) as [[r' effs]|]; [|apply ratings_refl].
  eapply ratings_trans; [|apply ratings_perform_all; apply ratings_center_message_screen].
  by intros H.
Qed.

Lemma ratings_call_postq m self w : keeps_ratings w (call_postq m self w).
Proof.
  unfold call_postq. destruct (postqs w !! self) as [q|]; [|apply ratings_refl].
  destruct (m self q) as [[q' effs]|]; [|apply ratings_refl].
  eapply ratings_trans; [|apply ratings_perform_all; apply ratings_final_thanks_and_exit].
  by intros H.
Qed.

Lemma ratings_game_call self e w : keeps_ratings w (game_call self e w).
Proof.
  destruct e; try (apply (ratings_perform id); intros; apply ratings_refl).
  all: by intros H.
Qed.

Lemma ratings_call_game m updates self w :
  Forall (keeps (λ _, True) keeps_ratings) updates → keeps_ratings w (call_game m updates self w).
Proof.
  intros Hu. unfold call_game. destruct (games w !! self) as [g|]; [|apply ratings_refl].
  destruct (m (next_after (tk w)) g) as [[g' effs]|]; [|apply ratings_refl].
  apply (ratings_trans _ (set_games (<[self:=g']> (games w)) w)); [by intros H|].
  refine (keeps_perform_game (λ _, True) keeps_ratings _ ratings_trans _ self effs updates Hu _ _ I).
  - intros w0 _. apply ratings_refl.
  - done.
  - apply Forall_forall. intros e _ w0 _. apply ratings_game_call.
Qed.

Lemma ratings_show_post_questions w : keeps_ratings w (show_post_questions w).
Proof.
  unfold show_post_questions.
  destruct (PostQuestionnaire.__init__ _) as [[q effs]|]; [|by intros H].
  intros H.
  assert (H1 : ratings_ok (set_postqs
                 (postqs (send_marker PostSurvey_Start (clear_screen w)) ++ [q])
                 (send_marker PostSurvey_Start (clear_screen w)))) by exact H.
  by apply (ratings_perform_all final_thanks_and_exit effs _
              ratings_final_thanks_and_exit) in H1.
Qed.

Lemma ratings_start_rat_task w : keeps_ratings w (start_rat_task w).
Proof.
  unfold start_rat_task.
  destruct (RATGame.__init__ _ _) as [[r effs]|]; [|by intros H].
  intros H.
  set (w1 := upd_app (set_last_on_next None)
               (upd_tk (set_return_binding None) (clear_screen w))).
  assert (H1 : ratings_ok (set_rats (rats w1 ++ [r]) w1)) by exact H.
  by apply (ratings_perform_all show_congratulations effs _
              (ratings_center_message_screen cb_show_post_questions)) in H1.
Qed.

Lemma ratings_run_callback cb w : keeps_ratings w (run_callback cb w).
Proof.
  destruct cb; simpl.
  - apply ratings_submit.
  - apply ratings_center_message_screen.
  - apply ratings_start_connections_game.
  - apply ratings_start_rat_task.
  - apply ratings_show_post_questions.
  - apply ratings_upd_tk.
  - apply ratings_end_connections_rest.
  - apply ratings_tick_connections_rest.
  - apply ratings_on_connections_puzzle_complete.
  - apply ratings_call_rat.
  - apply ratings_call_rat.
  - apply ratings_call_postq.
Qed.

Lemma ratings_master_skip w : keeps_ratings w (_master_skip w).
Proof.
  unfold _master_skip. destruct (_last_on_next (app w)) as [cb|].
  - eapply ratings_trans; [|apply ratings_run_callback]. by intros H.
  - destruct (_conn_rest_active (app w)); [apply ratings_end_connections_rest|].
    destruct (conn (app w)); [apply ratings_on_connections_puzzle_complete|].
    destruct (rat (app w)); [apply ratings_call_rat|].
    destruct (postq (app w)); [apply ratings_call_postq|apply ratings_refl].
Qed.

Lemma ratings_handle nested e :
  Forall (λ es, keeps (λ _, True) keeps_ratings (nested es)) (nested_events e) →
  keeps (λ _, True) keeps_ratings (handle nested e).
Proof.
  intros Hn w _. unfold handle. destruct (destroyed (tk w)); [apply ratings_refl|].
  destruct e.
  - destruct (on_screen _ _); [apply ratings_upd_tk|apply ratings_refl].
  - destruct (on_screen _ _); [apply ratings_submit|apply ratings_refl].
  - destruct (return_binding (tk w)); [apply ratings_run_callback|apply ratings_refl].
  - apply ratings_master_skip.
  - destruct (on_screen _ _); [by apply ratings_call_game|apply ratings_refl].
  - destruct (on_screen _ _); [by apply ratings_call_game|apply ratings_refl].
  - destruct (on_screen _ _); simpl; [|apply ratings_refl].
    destruct (is_rating value) eqn:Hv; [by apply ratings_conn_select_rating|apply ratings_refl].
  - destruct (yes_no_binding (tk w)); [apply ratings_call_rat|apply ratings_refl].
  - destruct (yes_no_binding (tk w)); [apply ratings_call_rat|apply ratings_refl].
  - destruct (_ && _); [apply ratings_call_postq|apply ratings_refl].
  - destruct (list_find _ _) as [[i [a cb]]|]; [|apply ratings_refl].
    eapply ratings_trans; [|apply ratings_run_callback]. by intros H.
  - destruct (_ && _); [|apply ratings_refl].
    eapply ratings_trans; [|apply ratings_master_skip]. by intros H.
  - destruct (on_screen _ _); [|apply ratings_refl].
    apply ratings_call_game. by apply keeps_updates.
Qed.

Lemma ratings_step e w : keeps_ratings w (step e w).
Proof.
  refine (keeps_step (λ _, True) keeps_ratings _ ratings_trans _ ratings_handle e w I).
  - intros w0 _. apply ratings_refl.
  - done.
Qed.

Lemma run_ratings es : ∀ w, ratings_ok w → ratings_ok (run es w).
Proof.
  unfold run. induction es as [|e es IH]; intros w Hw; simpl; [done|].
  apply IH. by apply ratings_step.
Qed.

(** X29.  Only what a rating button gives is recorded: in every run, every
    entry of [connections_spontaneity] is [None] (no rating was chosen)
    or a value from 1 to 5, and so is the rating chosen in the rest
    that is running. *)
Theorem recorded_ratings_are_one_to_five layouts es :
  let w := run es (__init__ layouts) in
  (∀ o, o ∈ connections_spontaneity (app w) → o = None ∨ ∃ v, o = Some v ∧ 1 ≤ v ≤ 5) ∧
  (∀ v, _conn_rating_choice (app w) = Some v → 1 ≤ v ≤ 5).
Proof.
  intros w. destruct (run_ratings es (__init__ layouts)) as [Hs Hc].
  { split; [constructor|done]. }
  fold w in Hs, Hc. split.
  - intros o Ho. rewrite Forall_forall in Hs. specialize (Hs o Ho).
    destruct o as [v|]; [right; by exists v|by left].
  - intros v Hv. by rewrite Hv in Hc.
Qed.

Lemma recorded_ratings_are_one_to_five_witness :
  let w := run (to_first_rest ++ [ev_rating 3; ev_rating 9; ev_period]) example_init in
  connections_spontaneity (app w) = [Some 3] ∧
  (Some 3 = None ∨ ∃ v, Some 3 = Some v ∧ 1 ≤ v ≤ 5).
Proof.
  intros w. split; [reflexivity|].
  apply (proj1 (recorded_ratings_are_one_to_five (λ _, example_layout)
                  (to_first_rest ++ [ev_rating 3; ev_rating 9; ev_period]))).
  vm_compute. apply elem_of_cons. by left.
Defined.
